(** * rop: runtime operator parsing

    A shallow embedding of the compilation and evaluation pipeline of the
    [rop] expression engine (tokenizer, precedence-climbing parser, evaluator
    with prototype-chain overload resolution, built-in overloads and the
    process-wide default engine), followed by the properties established
    about it.

    Conventions of the embedding.
    - Source text is a [string] of 8-bit code units.  The Unicode property
      tables behind [\p{ID_Start}] and [\p{ID_Continue}] belong to the host
      regular-expression engine and are parameters of the tokenizer.
    - Host values are first order: objects, arrays and functions live in a
      heap and are referred to by location; a host function is run by the
      parameter [host_call], a transformer of the whole world.
    - Numbers with an integral value that a double holds exactly are [NInt].
      A double that is not an integer is named by the decimal that denotes
      it, for decimals of at most 15 significant digits, which doubles tell
      apart; arithmetic on it is reported as [Unmodelled], and so is every
      other number that would have to be rounded.  Negative zero is
      not a value of the embedding: an operation whose result is negative
      zero is reported as [Unmodelled]. *)

From stdpp Require Import gmap strings list pretty.
From Stdlib Require Import ZArith Ascii.

Set Warnings "-register-all".

Open Scope Z_scope.

(* ================================================================= *)
(** ** Host values *)

Abbreviation loc := nat.

(** Canonical operation names, [UNARY_OPERATOR_NAMES] and
    [BINARY_OPERATOR_NAMES]. *)
Inductive UnaryOperationName := U_not | U_bitnot | U_neg | U_pos.

Inductive BinaryOperationName :=
| B_add | B_sub | B_mul | B_div | B_mod | B_pow
| B_and | B_or | B_xor | B_shl | B_shr | B_ushr
| B_land | B_lor
| B_eq | B_seq | B_ne | B_sne
| B_lt | B_gt | B_le | B_ge.

(** [OPERATOR_NAMES]: ['[i]'], ['[:]'], then the unary and binary names. *)
Inductive OperationName :=
| OpIndexing
| OpSlicing
| OpUnary (u : UnaryOperationName)
| OpBinary (b : BinaryOperationName).

#[global] Instance UnaryOperationName_eq_dec : EqDecision UnaryOperationName.
Proof. solve_decision. Defined.
#[global] Instance BinaryOperationName_eq_dec : EqDecision BinaryOperationName.
Proof. solve_decision. Defined.
#[global] Instance OperationName_eq_dec : EqDecision OperationName.
Proof. solve_decision. Defined.

(** The registry creates one [Symbol(name)] per operation; a symbol is
    identified with the operation it was created for. *)
Inductive JsSymbol := SymbolOf (op : OperationName).

#[global] Instance JsSymbol_eq_dec : EqDecision JsSymbol.
Proof. solve_decision. Defined.

(** [NFloat m e] is the double nearest to [m * 10 ^ e], where [e < 0], [m]
    is positive, below [10 ^ 15] and not a multiple of 10. *)
Inductive JsNumber :=
| NInt (z : Z)
| NFloat (mantissa exponent : Z)
| NInfinity (negative : bool)
| NNaN.

#[global] Instance JsNumber_eq_dec : EqDecision JsNumber.
Proof. solve_decision. Defined.

Inductive Value :=
| VUndefined
| VNull
| VBoolean (b : bool)
| VNumber (n : JsNumber)
| VBigInt (z : Z)
| VString (s : string)
| VSymbol (s : JsSymbol)
| VObject (l : loc).

#[global] Instance Value_eq_dec : EqDecision Value.
Proof. solve_decision. Defined.

Definition VInt (z : Z) : Value := VNumber (NInt z).

(* ================================================================= *)
(** ** Exceptions and outcomes *)

Inductive Thrown :=
| TypeError (message : string)
| RangeError (message : string)
| SyntaxError (message : string)
| TokenizingError (position : nat) (ch : string)
| Error (message : string)
| HostThrow (v : Value)
| Unmodelled (what : string)
| OutOfFuel.

Inductive Outcome (A : Type) :=
| Ok (a : A)
| Throw (e : Thrown).
Arguments Ok {A} a.
Arguments Throw {A} e.

Definition obind {A B} (o : Outcome A) (k : A → Outcome B) : Outcome B :=
  match o with
  | Ok a => k a
  | Throw e => Throw e
  end.

Declare Scope outcome_scope.
Delimit Scope outcome_scope with outcome.
Notation "'let*' x ':=' c1 'in' c2" := (obind c1 (λ x, c2))
  (at level 10, x pattern, c1 at level 100, c2 at level 200) : outcome_scope.
Open Scope outcome_scope.

Definition succeeded {A} (o : Outcome A) : bool :=
  match o with Ok _ => true | Throw _ => false end.

(* ================================================================= *)
(** ** Tokens (Token.ts) *)

Inductive TokenType :=
| Whitespace | Operator | Embedded | Constant | Identifier | Punctuation.

#[global] Instance TokenType_eq_dec : EqDecision TokenType.
Proof. solve_decision. Defined.

(** The token interfaces; an [EmbeddedToken] has the fixed literal ["${}"]. *)
Inductive Token :=
| WhitespaceToken (literal : string)
| OperatorToken (literal : string)
| EmbeddedToken (value : Value)
| ConstantToken (literal : string) (value : Value)
| IdentifierToken (literal : string)
| PunctuationToken (literal : string).

#[global] Instance Token_eq_dec : EqDecision Token.
Proof. solve_decision. Defined.

Definition token_type (t : Token) : TokenType :=
  match t with
  | WhitespaceToken _ => Whitespace
  | OperatorToken _ => Operator
  | EmbeddedToken _ => Embedded
  | ConstantToken _ _ => Constant
  | IdentifierToken _ => Identifier
  | PunctuationToken _ => Punctuation
  end.

Definition token_literal (t : Token) : string :=
  match t with
  | WhitespaceToken l | OperatorToken l | ConstantToken l _
  | IdentifierToken l | PunctuationToken l => l
  | EmbeddedToken _ => "${}"
  end.

(** The [value] field, present on embedded and constant tokens. *)
Definition token_value (t : Token) : option Value :=
  match t with
  | EmbeddedToken v | ConstantToken _ v => Some v
  | _ => None
  end.


(* ================================================================= *)
(** ** TokenFactory (TokenFactory.ts) *)

Module TokenFactory.

Definition whitespace (literal : string) : Token := WhitespaceToken literal.
Definition operator (literal : string) : Token := OperatorToken literal.
Definition embeddedValue (value : Value) : Token := EmbeddedToken value.
Definition constant (literal : string) (value : Value) : Token :=
  ConstantToken literal value.
Definition punctuation (literal : string) : Token := PunctuationToken literal.
Definition identifier (literal : string) : Token := IdentifierToken literal.

End TokenFactory.

(** A static method of a class, by the shape of its parameter list. *)
Inductive StaticMethod :=
| OfLiteral (f : string → Token)
| OfValue (f : Value → Token)
| OfLiteralAndValue (f : string → Value → Token).

(** The class object is a property table: member name to method.  These are
    the static members that [class TokenFactory] declares. *)
Definition TokenFactory_statics : list (string * StaticMethod) :=
  [ ("whitespace", OfLiteral TokenFactory.whitespace);
    ("operator", OfLiteral TokenFactory.operator);
    ("embeddedValue", OfValue TokenFactory.embeddedValue);
    ("constant", OfLiteralAndValue TokenFactory.constant);
    ("punctuation", OfLiteral TokenFactory.punctuation);
    ("identifier", OfLiteral TokenFactory.identifier) ].

Fixpoint get_static (statics : list (string * StaticMethod)) (name : string)
  : option StaticMethod :=
  match statics with
  | [] => None
  | (k, m) :: rest => if decide (k = name) then Some m else get_static rest name
  end.

(** [Class.name(args)]: the member is looked up by name when the call is
    made; calling a member the class does not have throws a [TypeError]. *)
Definition call_static (statics : list (string * StaticMethod))
    (name : string) (args : list Value) : Outcome Token :=
  match get_static statics name with
  | None => Throw (TypeError (name +:+ " is not a function"))
  | Some (OfLiteral f) =>
      match args with
      | VString literal :: _ => Ok (f literal)
      | _ => Throw (Unmodelled "literal argument that is not a string")
      end
  | Some (OfValue f) =>
      match args with
      | v :: _ => Ok (f v)
      | [] => Ok (f VUndefined)
      end
  | Some (OfLiteralAndValue f) =>
      match args with
      | VString literal :: v :: _ => Ok (f literal v)
      | [VString literal] => Ok (f literal VUndefined)
      | _ => Throw (Unmodelled "literal argument that is not a string")
      end
  end.

(* ================================================================= *)
(** ** Character classes and the regular expressions of the tokenizer *)

Definition code (c : ascii) : nat := nat_of_ascii c.

Definition in_range (lo hi : nat) (c : ascii) : bool :=
  ((lo <=? code c) && (code c <=? hi))%nat.

Definition is_digit (c : ascii) : bool := in_range 48 57 c.

Definition is_hex_digit (c : ascii) : bool :=
  is_digit c || in_range 65 70 c || in_range 97 102 c.

(** [\s] on 8-bit code units: TAB, LF, VT, FF, CR, space and NBSP. *)
Definition is_space (c : ascii) : bool :=
  in_range 9 13 c || (code c =? 32)%nat || (code c =? 160)%nat.

(** [.] does not match a line terminator. *)
Definition is_line_terminator (c : ascii) : bool :=
  (code c =? 10)%nat || (code c =? 13)%nat.

Definition squote : ascii := ascii_of_nat 39.
Definition dquote : ascii := ascii_of_nat 34.
Definition backslash : ascii := ascii_of_nat 92.

Definition char_in (set : string) (c : ascii) : bool :=
  bool_decide (c ∈ String.list_ascii_of_string set).

Fixpoint take_while (p : ascii → bool) (s : string) : string * string :=
  match s with
  | String c rest =>
      if p c then let (m, r) := take_while p rest in (String c m, r)
      else (EmptyString, s)
  | EmptyString => (EmptyString, EmptyString)
  end.

Fixpoint drop (n : nat) (s : string) : string :=
  match n, s with
  | S n', String _ rest => drop n' rest
  | _, _ => s
  end.

Definition substring_from (n : nat) (s : string) : string := drop n s.

Fixpoint starts_with (p s : string) : bool :=
  match p, s with
  | EmptyString, _ => true
  | String a p', String b s' => bool_decide (a = b) && starts_with p' s'
  | String _ _, EmptyString => false
  end.

Definition non_empty (s : string) : bool :=
  match s with EmptyString => false | _ => true end.

Fixpoint last_char (s : string) : option ascii :=
  match s with
  | EmptyString => None
  | String c EmptyString => Some c
  | String _ rest => last_char rest
  end.

Fixpoint drop_last (s : string) : string :=
  match s with
  | EmptyString => EmptyString
  | String _ EmptyString => EmptyString
  | String c rest => String c (drop_last rest)
  end.

Fixpoint first_match (alternatives : list string) (s : string) : option string :=
  match alternatives with
  | [] => None
  | a :: rest => if starts_with a s then Some a else first_match rest s
  end.

(** [/^(\s|\n)+/] *)
Definition re_whitespace (s : string) : option string :=
  let (m, _) := take_while is_space s in
  if non_empty m then Some m else None.

(** [/^(<=|>=|===|!==|==|!=|\*\*|>>>|>>|<<|&&|\|\||[+\-*/%&|^<>!~])/]:
    the alternatives are tried in the order written. *)
Definition re_operator (s : string) : option string :=
  match first_match ["<="; ">="; "==="; "!=="; "=="; "!="; "**"; ">>>"; ">>";
                     "<<"; "&&"; "||"] s with
  | Some m => Some m
  | None =>
      match s with
      | String c _ => if char_in "+-*/%&|^<>!~" c then Some (String c EmptyString) else None
      | EmptyString => None
      end
  end.

(** [/^[0-9]*\.?[0-9]+([eE][+-]?[0-9]+)?[n]?/] *)
Definition re_number (s : string) : option string :=
  let (d1, r1) := take_while is_digit s in
  let mantissa :=
    match r1 with
    | String "."%char r2 =>
        let (d2, r3) := take_while is_digit r2 in
        if non_empty d2 then Some (d1 +:+ "." +:+ d2, r3)
        else if non_empty d1 then Some (d1, r1) else None
    | _ => if non_empty d1 then Some (d1, r1) else None
    end in
  match mantissa with
  | None => None
  | Some (m, r) =>
      let (m', r') :=
        match r with
        | String e r2 =>
            if char_in "eE" e then
              let (sign, r3) :=
                match r2 with
                | String sg r3 =>
                    if char_in "+-" sg then (String sg EmptyString, r3)
                    else (EmptyString, r2)
                | EmptyString => (EmptyString, r2)
                end in
              let (d, r4) := take_while is_digit r3 in
              if non_empty d then (m +:+ String e EmptyString +:+ sign +:+ d, r4)
              else (m, r)
            else (m, r)
        | EmptyString => (m, r)
        end in
      match r' with
      | String "n"%char _ => Some (m' +:+ "n")
      | _ => Some m'
      end
  end.

(** The body [([^q\\]|\\.)*q] of a string literal opened by the quote [q]. *)
Fixpoint re_string_body (q : ascii) (s : string) : option string :=
  match s with
  | EmptyString => None
  | String c rest =>
      if bool_decide (c = q) then Some (String c EmptyString)
      else if bool_decide (c = backslash) then
        match rest with
        | String e rest' =>
            if is_line_terminator e then None
            else option_map (λ m, String c (String e m)) (re_string_body q rest')
        | EmptyString => None
        end
      else option_map (String c) (re_string_body q rest)
  end.

(** [/^'([^'\\]|\\.)*'/], and the same with the double quote. *)
Definition re_string (q : ascii) (s : string) : option string :=
  match s with
  | String c rest =>
      if bool_decide (c = q) then option_map (String c) (re_string_body q rest)
      else None
  | EmptyString => None
  end.

(** The identifier expression: one character that is [$], [_] or in
    ID_Start, then any number that are [$], [_] or in ID_Continue, over the
    tables of the host. *)
Definition re_identifier (ID_Start ID_Continue : ascii → bool) (s : string)
  : option string :=
  match s with
  | String c rest =>
      if char_in "$_" c || ID_Start c then
        let (m, _) := take_while (λ x, char_in "$_" x || ID_Continue x) rest in
        Some (String c m)
      else None
  | EmptyString => None
  end.

(** The two tables on the ASCII range. *)
Definition ascii_ID_Start (c : ascii) : bool :=
  in_range 65 90 c || in_range 97 122 c.
Definition ascii_ID_Continue (c : ascii) : bool :=
  ascii_ID_Start c || is_digit c || (code c =? 95)%nat.

(* ================================================================= *)
(** ** StringWalker (utils/StringWalker.ts) *)

Record StringWalker := { source : string; position : nat }.

Module StringWalker.

Definition hasRemaining (w : StringWalker) : bool :=
  (position w <? String.length (source w))%nat.

Definition getRemaining (w : StringWalker) : string :=
  substring_from (position w) (source w).

(** [peek(len)] *)
Definition peek (w : StringWalker) (len : nat) : string :=
  String.substring (position w) len (source w).

(** [next(regexp)]: the match, when there is one, is consumed. *)
Definition next (w : StringWalker) (re : string → option string)
  : option string * StringWalker :=
  match re (getRemaining w) with
  | Some m =>
      (Some m, {| source := source w;
                  position := (position w + String.length m)%nat |})
  | None => (None, w)
  end.

Definition consume (w : StringWalker) (len : nat) : StringWalker :=
  {| source := source w;
     position := Nat.min (position w + len) (String.length (source w)) |}.

End StringWalker.

(* ================================================================= *)
(** ** Decoding of literals *)

Definition digit_value (c : ascii) : Z :=
  if is_digit c then Z.of_nat (code c - 48)
  else if in_range 65 70 c then Z.of_nat (code c - 55)
  else Z.of_nat (code c - 87).

Definition radix_value (radix : Z) (s : string) : Z :=
  fold_left (λ acc c, radix * acc + digit_value c) (String.list_ascii_of_string s) 0.

Definition all_chars (p : ascii → bool) (s : string) : bool :=
  forallb p (String.list_ascii_of_string s).

(** The integers a double represents without rounding. *)
Definition safe_integer (z : Z) : bool :=
  (- 2 ^ 53 <=? z) && (z <=? 2 ^ 53).

(** The parts of a decimal literal [d1.d2e+d3] matched by [re_number]: the
    digits before and after the point, and the exponent. *)
Definition decimal_parts (literal : string) : string * string * Z :=
  let (whole, r1) := take_while is_digit literal in
  let (fraction, r2) :=
    match r1 with
    | String "."%char r => take_while is_digit r
    | _ => (EmptyString, r1)
    end in
  let exponent :=
    match r2 with
    | String _ (String "-"%char d) => - radix_value 10 d
    | String _ (String "+"%char d) => radix_value 10 d
    | String _ d => radix_value 10 d
    | EmptyString => 0
    end in
  (whole, fraction, exponent).

(** [m * 10 ^ e] without the zeros at the end of [m]. *)
Fixpoint strip_zeros (fuel : nat) (m e : Z) : Z * Z :=
  match fuel with
  | O => (m, e)
  | S fuel =>
      if (m mod 10 =? 0) && negb (m =? 0) then strip_zeros fuel (m / 10) (e + 1)
      else (m, e)
  end.

(** The double that [parseFloat] makes of the decimal [m * 10 ^ e], where
    no rounding is involved or the decimal names the double. *)
Definition decimal_value (digits : nat) (m e : Z) : Outcome Value :=
  if m =? 0 then Ok (VInt 0)
  else
    let (m, e) := strip_zeros digits m e in
    if 0 <=? e then
      if (e <=? 16) && safe_integer (m * 10 ^ e) then Ok (VInt (m * 10 ^ e))
      else Throw (Unmodelled "number beyond the exact range of a double")
    else if (m <? 10 ^ 15) && (-300 <=? e) then Ok (VNumber (NFloat m e))
    else Throw (Unmodelled "decimal of more than 15 digits or out of range").

(** [parseFloat(literal)] for a literal matched by [re_number]. *)
Definition parseFloat (literal : string) : Outcome Value :=
  let '(whole, fraction, exponent) := decimal_parts literal in
  let digits := whole +:+ fraction in
  decimal_value (String.length digits) (radix_value 10 digits)
    (exponent - Z.of_nat (String.length fraction)).

(** The value of a numeric literal matched by [re_number]. *)
Definition number_value (literal : string) : Outcome Value :=
  if bool_decide (last_char literal = Some "n"%char) then
    let body := drop_last literal in
    if all_chars is_digit body
    then Ok (VBigInt (radix_value 10 body))
    else Throw (SyntaxError ("Cannot convert " +:+ body +:+ " to a BigInt"))
  else if negb (all_chars (λ c, negb (char_in ".eE" c)) literal) then
    parseFloat literal
  else
    let z := radix_value 10 literal in
    if safe_integer z then Ok (VInt z)
    else Throw (Unmodelled "number beyond the exact range of a double").

(** [s.replace(/ab/g, r)] for a two-character pattern. *)
Fixpoint replace_pair (a b r : ascii) (s : string) : string :=
  match s with
  | EmptyString => EmptyString
  | String c rest =>
      match rest with
      | String d rest' =>
          if bool_decide (c = a) && bool_decide (d = b)
          then String r (replace_pair a b r rest')
          else String c (replace_pair a b r rest)
      | EmptyString => s
      end
  end.

(** [literal.slice(1, -1)], then the escaped quote and the escaped
    backslash are replaced, in that order. *)
Definition string_value (q : ascii) (literal : string) : Value :=
  let inner := drop_last (drop 1 literal) in
  VString (replace_pair backslash backslash backslash
             (replace_pair backslash q q inner)).

(** [String.fromCodePoint] *)
Definition fromCodePoint (n : Z) : Outcome string :=
  if n <? 256 then Ok (String (ascii_of_nat (Z.to_nat n)) EmptyString)
  else if n <=? 1114111 then Throw (Unmodelled "code point above 255")
  else Throw (RangeError "Invalid code point").

(** One pass of [parseUnicodeEscapes]: with [braced = false] the escapes
    written as backslash, [u] and four or more hexadecimal digits; with
    [braced = true] those with the digits between braces. *)
Fixpoint replace_escapes (braced : bool) (fuel : nat) (s : string) : Outcome string :=
  match fuel with
  | O => Ok s
  | S fuel' =>
      match s with
      | EmptyString => Ok EmptyString
      | String c rest =>
          let opener :=
            String backslash (if braced then "u{" else "u") in
          let (hex, after) :=
            take_while is_hex_digit (drop (String.length opener) s) in
          let closed :=
            if braced then starts_with "}" after else true in
          if starts_with opener s && (4 <=? String.length hex)%nat && closed then
            let* ch := fromCodePoint (radix_value 16 hex) in
            let* tail :=
              replace_escapes braced fuel' (if braced then drop 1 after else after) in
            Ok (ch +:+ tail)
          else
            let* tail := replace_escapes braced fuel' rest in
            Ok (String c tail)
      end
  end.

(* ================================================================= *)
(** ** Tokenizer (tokenizer/Tokenizer.ts) *)

(** The first argument of the static [tokenize]: a plain string, or the
    strings array of a tagged template with its embedded values. *)
Inductive TokenizerInput :=
| PlainString (s : string)
| Template (raw : list string) (args : list Value).

Module Tokenizer.
Section Tokenizer.

(** Tables of the regular-expression engine. *)
Variables ID_Start ID_Continue : ascii → bool.
(** The members of the class object [TokenFactory] at run time. *)
Variable factory : list (string * StaticMethod).

Definition parseUnicodeEscapes (str : string) : Outcome string :=
  let* once := replace_escapes false (String.length str) str in
  replace_escapes true (String.length once) once.

(** The loop of the instance method [tokenize]; every round consumes at
    least one character or throws, so a fuel above the number of
    characters left is never used up. *)
Fixpoint scan (ignoreWhitespace : bool) (fuel : nat) (w : StringWalker)
    (tokens : list Token) : Outcome (list Token) :=
  match fuel with
  | O => Throw OutOfFuel
  | S fuel' =>
      if negb (StringWalker.hasRemaining w) then Ok tokens else
      let continue w' tokens' := scan ignoreWhitespace fuel' w' tokens' in
      match StringWalker.next w re_whitespace with
      | (Some m, w') =>
          continue w' (if ignoreWhitespace then tokens
                       else tokens ++ [WhitespaceToken m])
      | (None, _) =>
      let ch := StringWalker.peek w 1 in
      if bool_decide (ch ∈ ["("; ")"; "["; "]"; "{"; "}"; ","; ":"; "."]) then
        let* t := call_static factory "punctuation" [VString ch] in
        continue (StringWalker.consume w 1) (tokens ++ [t])
      else
      match StringWalker.next w re_operator with
      | (Some m, w') =>
          let* t := call_static factory "operator" [VString m] in
          continue w' (tokens ++ [t])
      | (None, _) =>
      match StringWalker.next w re_number with
      | (Some literal, w') =>
          let* value := number_value literal in
          let* t := call_static factory "constant" [VString literal; value] in
          continue w' (tokens ++ [t])
      | (None, _) =>
      match StringWalker.next w (re_string squote) with
      | (Some literal, w') =>
          let* t := call_static factory "constant"
                      [VString literal; string_value squote literal] in
          continue w' (tokens ++ [t])
      | (None, _) =>
      match StringWalker.next w (re_string dquote) with
      | (Some literal, w') =>
          let* t := call_static factory "constant"
                      [VString literal; string_value dquote literal] in
          continue w' (tokens ++ [t])
      | (None, _) =>
      match StringWalker.next w (re_identifier ID_Start ID_Continue) with
      | (Some literal, w') =>
          let* t := call_static factory "identifier" [VString literal] in
          continue w' (tokens ++ [t])
      | (None, _) =>
          Throw (TokenizingError (position w) (StringWalker.peek w 1))
      end end end end end end
  end.

(** [new Tokenizer(input).tokenize()], with [ignoreWhitespace] left at its
    default. *)
Definition instance_tokenize (input : string) : Outcome (list Token) :=
  let* src := parseUnicodeEscapes input in
  scan true (S (String.length src)) {| source := src; position := 0 |} [].

(** The loop [for (let i = 0; i < args.length; i++)] of the static
    [tokenize]. *)
Fixpoint tokenize_args (raw : list string) (i : nat) (args : list Value)
    (tokens : list Token) : Outcome (list Token) :=
  match args with
  | [] => Ok tokens
  | arg :: rest =>
      let* ts :=
        match raw !! i with
        | Some s => instance_tokenize s
        | None => Throw (TypeError "undefined is not a string")
        end in
      let* t := call_static factory "interpolation" [arg] in
      tokenize_args raw (S i) rest (tokens ++ ts ++ [t])
  end.

(** The static [Tokenizer.tokenize(s, ...args)]. *)
Definition tokenize (s : TokenizerInput) : Outcome (list Token) :=
  match s with
  | PlainString str => instance_tokenize str
  | Template raw args =>
      let* tokens := tokenize_args raw 0 args [] in
      match last raw with
      | Some str =>
          let* ts := instance_tokenize str in
          Ok (tokens ++ ts)
      | None => Throw (TypeError "undefined has no property raw")
      end
  end.

End Tokenizer.
End Tokenizer.

(** The tokenizer of the program: the class object is [TokenFactory]. *)
Definition Tokenizer_tokenize (ID_Start ID_Continue : ascii → bool)
    (s : TokenizerInput) : Outcome (list Token) :=
  Tokenizer.tokenize ID_Start ID_Continue TokenFactory_statics s.


(* ================================================================= *)
(** ** Native semantics of the operators (the host's own operators)

    The registry stores, for each operator, a closure applying the host
    operator to its two arguments.  The host operators are given here on
    the values a literal of the expression language can denote; a case that
    needs a conversion through user code or double rounding is reported as
    [Unmodelled], never approximated. *)

Definition ToBoolean (v : Value) : Outcome bool :=
  match v with
  | VUndefined | VNull => Ok false
  | VBoolean b => Ok b
  | VNumber (NInt z) => Ok (negb (z =? 0))
  | VNumber NNaN => Ok false
  | VNumber (NInfinity _) => Ok true
  | VNumber (NFloat _ _) => Ok true
  | VBigInt z => Ok (negb (z =? 0))
  | VString s => Ok (non_empty s)
  | VSymbol _ | VObject _ => Ok true
  end.

Definition ToInt32 (z : Z) : Z := (z + 2 ^ 31) mod 2 ^ 32 - 2 ^ 31.
Definition ToUint32 (z : Z) : Z := z mod 2 ^ 32.

Definition exact (z : Z) : Outcome Value :=
  if safe_integer z then Ok (VInt z)
  else Throw (Unmodelled "integer beyond the exact range of a double").

Definition native_unary (op : UnaryOperationName) (self : Value) : Outcome Value :=
  match op with
  | U_not => let* b := ToBoolean self in Ok (VBoolean (negb b))
  | U_bitnot =>
      match self with
      | VNumber (NInt z) => Ok (VInt (Z.lnot (ToInt32 z)))
      | VBigInt z => Ok (VBigInt (Z.lnot z))
      | _ => Throw (Unmodelled "bitwise not of a value that is not an integer")
      end
  | U_neg =>
      match self with
      | VNumber (NInt z) =>
          if z =? 0 then Throw (Unmodelled "negative zero") else Ok (VInt (- z))
      | VNumber (NInfinity s) => Ok (VNumber (NInfinity (negb s)))
      | VNumber NNaN => Ok (VNumber NNaN)
      | VBigInt z => Ok (VBigInt (- z))
      | _ => Throw (Unmodelled "negation of a value that is not an integer")
      end
  | U_pos =>
      match self with
      | VNumber n => Ok (VNumber n)
      | VBoolean b => Ok (VInt (if b then 1 else 0))
      | VNull => Ok (VInt 0)
      | VUndefined => Ok (VNumber NNaN)
      | VBigInt _ => Throw (TypeError "Cannot convert a BigInt value to a number")
      | VSymbol _ => Throw (TypeError "Cannot convert a Symbol value to a number")
      | _ => Throw (Unmodelled "numeric conversion")
      end
  end.

(** The host operators on two integral numbers. *)
Definition native_int (op : BinaryOperationName) (a b : Z) : Outcome Value :=
  let shift := ToUint32 b mod 32 in
  match op with
  | B_add => exact (a + b)
  | B_sub => exact (a - b)
  | B_mul =>
      if (a * b =? 0) && ((a <? 0) || (b <? 0)) then Throw (Unmodelled "negative zero")
      else exact (a * b)
  | B_div =>
      if (b =? 0) || negb (a mod b =? 0) then Throw (Unmodelled "inexact quotient")
      else if (a =? 0) && (b <? 0) then Throw (Unmodelled "negative zero")
      else exact (a / b)
  | B_mod =>
      if b =? 0 then Ok (VNumber NNaN)
      else if (Z.rem a b =? 0) && (a <? 0) then Throw (Unmodelled "negative zero")
      else exact (Z.rem a b)
  | B_pow => if b <? 0 then Throw (Unmodelled "negative exponent") else exact (a ^ b)
  | B_and => Ok (VInt (Z.land (ToInt32 a) (ToInt32 b)))
  | B_or => Ok (VInt (Z.lor (ToInt32 a) (ToInt32 b)))
  | B_xor => Ok (VInt (Z.lxor (ToInt32 a) (ToInt32 b)))
  | B_shl => Ok (VInt (ToInt32 (Z.shiftl (ToInt32 a) shift)))
  | B_shr => Ok (VInt (Z.shiftr (ToInt32 a) shift))
  | B_ushr => Ok (VInt (Z.shiftr (ToUint32 a) shift))
  | B_eq | B_seq => Ok (VBoolean (a =? b))
  | B_ne | B_sne => Ok (VBoolean (negb (a =? b)))
  | B_lt => Ok (VBoolean (a <? b))
  | B_gt => Ok (VBoolean (b <? a))
  | B_le => Ok (VBoolean (a <=? b))
  | B_ge => Ok (VBoolean (b <=? a))
  | B_land | B_lor => Throw (Unmodelled "unreachable")
  end.

Definition is_double (v : Value) : bool :=
  match v with VNumber (NFloat _ _) => true | _ => false end.

Definition same_type (a b : Value) : bool :=
  match a, b with
  | VUndefined, VUndefined | VNull, VNull | VBoolean _, VBoolean _
  | VNumber _, VNumber _ | VBigInt _, VBigInt _ | VString _, VString _
  | VSymbol _, VSymbol _ | VObject _, VObject _ => true
  | _, _ => false
  end.

(** [a === b] *)
Definition strict_equal (a b : Value) : Outcome bool :=
  if negb (same_type a b) then Ok false
  else if is_double a || is_double b then Throw (Unmodelled "equality of doubles")
  else match a with
       | VNumber NNaN => Ok false
       | _ => Ok (bool_decide (a = b))
       end.

Definition is_nullish (v : Value) : bool :=
  match v with VUndefined | VNull => true | _ => false end.

(** [a == b] *)
Definition loose_equal (a b : Value) : Outcome bool :=
  if same_type a b then strict_equal a b
  else if is_nullish a && is_nullish b then Ok true
  else if is_nullish a || is_nullish b then Ok false
  else Throw (Unmodelled "loose equality with conversion").

(** The [native] closures of the binary operators. *)
Definition native_binary (op : BinaryOperationName) (self other : Value)
  : Outcome Value :=
  match op with
  | B_land => let* b := ToBoolean self in Ok (if b then other else self)
  | B_lor => let* b := ToBoolean self in Ok (if b then self else other)
  | B_seq => let* b := strict_equal self other in Ok (VBoolean b)
  | B_sne => let* b := strict_equal self other in Ok (VBoolean (negb b))
  | B_eq => let* b := loose_equal self other in Ok (VBoolean b)
  | B_ne => let* b := loose_equal self other in Ok (VBoolean (negb b))
  | _ =>
      match self, other with
      | VNumber (NInt a), VNumber (NInt b) => native_int op a b
      | VString a, VString b =>
          match op with
          | B_add => Ok (VString (a +:+ b))
          | _ => Throw (Unmodelled "operator on strings")
          end
      | _, _ => Throw (Unmodelled "operator with conversion")
      end
  end.

(* ================================================================= *)
(** ** The operation registry (Operators.ts) *)

Inductive OperationType := unary | binary | other.

#[global] Instance OperationType_eq_dec : EqDecision OperationType.
Proof. solve_decision. Defined.

(** [OperationMeta]: an operator has a literal, a precedence and a native
    closure; the two subscript operations have none of them. *)
Record OperationMeta := {
  meta_name : string;
  meta_symbol : JsSymbol;
  meta_type : OperationType;
  meta_literal : string;
  meta_precedence : nat;
  meta_native : Value → Value → Outcome Value
}.

Module Operations.

Definition operator (op : OperationName) (name : string) (type : OperationType)
    (literal : string) (precedence : nat)
    (native : Value → Value → Outcome Value) : OperationMeta :=
  {| meta_name := name; meta_symbol := SymbolOf op; meta_type := type;
     meta_literal := literal; meta_precedence := precedence;
     meta_native := native |}.

Definition subscript (op : OperationName) (name : string) : OperationMeta :=
  {| meta_name := name; meta_symbol := SymbolOf op; meta_type := other;
     meta_literal := EmptyString; meta_precedence := 0;
     meta_native := λ _ _, Throw (TypeError "native is not a function") |}.

Definition un (u : UnaryOperationName) (name literal : string) : OperationMeta :=
  operator (OpUnary u) name unary literal 10 (λ self _, native_unary u self).

Definition bin (b : BinaryOperationName) (literal : string) (precedence : nat)
  : OperationMeta :=
  operator (OpBinary b) literal binary literal precedence (native_binary b).

(** [OPERATION_REGISTRY], by canonical name. *)
Definition meta (op : OperationName) : OperationMeta :=
  match op with
  | OpIndexing => subscript op "[i]"
  | OpSlicing => subscript op "[:]"
  | OpUnary U_not => un U_not "!" "!"
  | OpUnary U_bitnot => un U_bitnot "~" "~"
  | OpUnary U_neg => un U_neg "-x" "-"
  | OpUnary U_pos => un U_pos "+x" "+"
  | OpBinary B_lor => bin B_lor "||" 1
  | OpBinary B_land => bin B_land "&&" 2
  | OpBinary B_or => bin B_or "|" 3
  | OpBinary B_xor => bin B_xor "^" 4
  | OpBinary B_and => bin B_and "&" 5
  | OpBinary B_eq => bin B_eq "==" 6
  | OpBinary B_seq => bin B_seq "===" 6
  | OpBinary B_ne => bin B_ne "!=" 6
  | OpBinary B_sne => bin B_sne "!==" 6
  | OpBinary B_lt => bin B_lt "<" 7
  | OpBinary B_gt => bin B_gt ">" 7
  | OpBinary B_le => bin B_le "<=" 7
  | OpBinary B_ge => bin B_ge ">=" 7
  | OpBinary B_shl => bin B_shl "<<" 8
  | OpBinary B_shr => bin B_shr ">>" 8
  | OpBinary B_ushr => bin B_ushr ">>>" 8
  | OpBinary B_add => bin B_add "+" 9
  | OpBinary B_sub => bin B_sub "-" 9
  | OpBinary B_mul => bin B_mul "*" 10
  | OpBinary B_div => bin B_div "/" 10
  | OpBinary B_mod => bin B_mod "%" 10
  | OpBinary B_pow => bin B_pow "**" 11
  end.

(** The string keys of the registry, in the order of the object literal. *)
Definition names : list OperationName :=
  [OpIndexing; OpSlicing] ++
  (OpUnary <$> [U_not; U_bitnot; U_neg; U_pos]) ++
  (OpBinary <$> [B_lor; B_land; B_or; B_xor; B_and; B_eq; B_seq; B_ne; B_sne;
                 B_lt; B_gt; B_le; B_ge; B_shl; B_shr; B_ushr; B_add; B_sub;
                 B_mul; B_div; B_mod; B_pow]).

(** A registry key given as a string. *)
Definition byName (name : string) : option OperationName :=
  List.find (λ op, bool_decide (meta_name (meta op) = name)) names.

(** [Operations.symbol] on a canonical name and on an arbitrary string. *)
Definition symbol (op : OperationName) : JsSymbol := meta_symbol (meta op).
Definition symbolOf (name : string) : option JsSymbol := symbol <$> byName name.

(** [OPERATOR_LITERAL_TO_NAME_MAP]: literal to the unary and the binary
    operation written with it. *)
Definition literal_entry : Type :=
  option UnaryOperationName * option BinaryOperationName.

Definition OPERATOR_LITERAL_TO_NAME_MAP : gmap string literal_entry :=
  fold_left
    (λ (map : gmap string literal_entry) op,
       let literal := meta_literal (meta op) in
       let entry := default (None, None) (map !! literal) in
       match op with
       | OpUnary u => <[literal := (Some u, entry.2)]> map
       | OpBinary b => <[literal := (entry.1, Some b)]> map
       | _ => map
       end)
    names ∅.

Definition unaryFromLiteral (literal : string) : option UnaryOperationName :=
  (OPERATOR_LITERAL_TO_NAME_MAP !! literal) ≫= fst.

Definition binaryFromLiteral (literal : string) : option BinaryOperationName :=
  (OPERATOR_LITERAL_TO_NAME_MAP !! literal) ≫= snd.

End Operations.

Example unaryFromLiteral_minus : Operations.unaryFromLiteral "-" = Some U_neg.
Proof. vm_compute. reflexivity. Qed.

(* ================================================================= *)
(** ** Expression trees (AstNode.ts) *)

(** [NodeSlice]: the three optional parts of one dimension. *)
Record NodeSlice (node : Type) := {
  start : option node;
  end_ : option node;
  step : option node
}.
Arguments start {node} _.
Arguments end_ {node} _.
Arguments step {node} _.
Arguments Build_NodeSlice {node} _ _ _.

Inductive AstNode :=
| ValueNode (token : Token)
| IdentifierNode (name : string)
| UnaryNode (operation : UnaryOperationName) (operand : AstNode)
| BinaryNode (left : AstNode) (operation : BinaryOperationName) (right : AstNode)
| AccessPropertyNode (left : AstNode) (name : string)
| InvokeNode (target : AstNode) (args : list AstNode)
| IndexingNode (target : AstNode) (index : AstNode)
| SlicingNode (target : AstNode) (slices : list (NodeSlice AstNode)).

Inductive NodeType :=
| NT_Value | NT_Identifier | NT_Unary | NT_Binary | NT_AccessProperty
| NT_Slicing | NT_Indexing | NT_Invoke.

Definition node_type (n : AstNode) : NodeType :=
  match n with
  | ValueNode _ => NT_Value
  | IdentifierNode _ => NT_Identifier
  | UnaryNode _ _ => NT_Unary
  | BinaryNode _ _ _ => NT_Binary
  | AccessPropertyNode _ _ => NT_AccessProperty
  | InvokeNode _ _ => NT_Invoke
  | IndexingNode _ _ => NT_Indexing
  | SlicingNode _ _ => NT_Slicing
  end.

(* ================================================================= *)
(** ** AstParser (ast-parser/AstParser.ts)

    The cursor of the [TokenWalker] is represented by the tokens that remain
    ([getRemaining()]): [peek()] is the first of them and [consume()] drops
    it. *)

Module AstParser.

Fixpoint skipWhitespace (ts : list Token) : list Token :=
  match ts with
  | WhitespaceToken _ :: rest => skipWhitespace rest
  | _ => ts
  end.

Definition peekPunctuation (literal : string) (ts : list Token) : bool :=
  match ts with
  | PunctuationToken l :: _ => bool_decide (l = literal)
  | _ => false
  end.

Definition tryConsumePunctuation (punctuation : string) (ts : list Token)
  : option (list Token) :=
  match ts with
  | PunctuationToken l :: rest =>
      if bool_decide (l = punctuation) then Some rest else None
  | _ => None
  end.

(** [slice[colons] = s] on the array of the parts read so far; an
    assignment past the end extends the array with holes. *)
Fixpoint array_set {A} (l : list (option A)) (i : nat) (x : A) : list (option A) :=
  match i, l with
  | O, [] => [Some x]
  | O, _ :: rest => Some x :: rest
  | S i', [] => None :: array_set [] i' x
  | S i', y :: rest => y :: array_set rest i' x
  end.

Definition array_get {A} (l : list (option A)) (i : nat) : option A :=
  mjoin (l !! i).

(** What the subscript loop has collected: [slices], [isSlicing] and
    [elementCount]. *)
Record Subscript := {
  sub_slices : list (NodeSlice AstNode);
  isSlicing : bool;
  elementCount : nat
}.

(** The node built after the closing bracket. *)
Definition subscriptNode (left_ : AstNode) (sub : Subscript) : AstNode :=
  let slices := sub_slices sub in
  if isSlicing sub || (1 <? length slices)%nat then SlicingNode left_ slices
  else
    match slices with
    | [slice] =>
        match start slice, end_ slice, step slice with
        | Some index, None, None => IndexingNode left_ index
        | _, _, _ => SlicingNode left_ slices
        end
    | _ => left_
    end.

Definition Parsed (A : Type) : Type := Outcome (A * list Token).

Fixpoint parseExpression (fuel : nat) (precedence : nat) (ts : list Token)
    {struct fuel} : Parsed AstNode :=
  match fuel with
  | O => Throw OutOfFuel
  | S fuel =>
      let* (left_, ts) := parseAtom fuel ts in
      parseOperators fuel precedence left_ ts
  end

(** The loop [loop_parse_exp] of [parseExpression]. *)
with parseOperators (fuel : nat) (precedence : nat) (left_ : AstNode)
    (ts : list Token) {struct fuel} : Parsed AstNode :=
  match fuel with
  | O => Throw OutOfFuel
  | S fuel =>
      let ts := skipWhitespace ts in
      match ts with
      | [] => Ok (left_, ts)
      | OperatorToken literal :: rest =>
          match Operations.binaryFromLiteral literal with
          | None => Throw (Error "Unexpected token, binary operator expected")
          | Some operator =>
              let meta := Operations.meta (OpBinary operator) in
              if negb (bool_decide (meta_type meta = binary)) then
                Throw (Error "Never!")
              else if (meta_precedence meta <? precedence)%nat then Ok (left_, ts)
              else
                let isRightAssociative := bool_decide (operator = B_pow) in
                let* (right_, ts) :=
                  parseExpression fuel
                    (if isRightAssociative then meta_precedence meta
                     else meta_precedence meta + 1)%nat rest in
                parseOperators fuel precedence (BinaryNode left_ operator right_) ts
          end
      | PunctuationToken literal :: rest =>
          if bool_decide (literal = ".") then
            match skipWhitespace rest with
            | IdentifierToken name :: ts =>
                parseOperators fuel precedence (AccessPropertyNode left_ name) ts
            | _ => Throw (Error "Expected identifier after dot")
            end
          else if bool_decide (literal = "(") then
            let* (args, ts) := parseArguments fuel [] rest in
            parseOperators fuel precedence (InvokeNode left_ args) ts
          else if bool_decide (literal = "[") then
            let ts := skipWhitespace rest in
            if peekPunctuation "]" ts then
              Throw (Error "Empty subscript is not allowed")
            else
              let* (sub, ts) :=
                parseSubscript fuel
                  {| sub_slices := []; isSlicing := false; elementCount := 0 |} ts in
              if bool_decide (elementCount sub = 0%nat) then
                Throw (Error "Empty indexing or slicing expression")
              else parseOperators fuel precedence (subscriptNode left_ sub) ts
          else Ok (left_, ts)
      | _ => Ok (left_, ts)
      end
  end

(** The argument loop of an invocation. *)
with parseArguments (fuel : nat) (args : list AstNode) (ts : list Token)
    {struct fuel} : Parsed (list AstNode) :=
  match fuel with
  | O => Throw OutOfFuel
  | S fuel =>
      let ts := skipWhitespace ts in
      match tryConsumePunctuation ")" ts with
      | Some ts => Ok (args, ts)
      | None =>
          let* (arg, ts) := parseExpression fuel 0 ts in
          let ts := skipWhitespace ts in
          let ts := default ts (tryConsumePunctuation "," ts) in
          parseArguments fuel (args ++ [arg]) ts
      end
  end

(** The outer loop of a subscript: one dimension per round. *)
with parseSubscript (fuel : nat) (sub : Subscript) (ts : list Token)
    {struct fuel} : Parsed Subscript :=
  match fuel with
  | O => Throw OutOfFuel
  | S fuel =>
      let ts := skipWhitespace ts in
      let* (slice, flag, ts) := parseSlice fuel [] 0 false (isSlicing sub) ts in
      let sub :=
        match slice with
        | Some slice =>
            {| sub_slices := sub_slices sub ++ [slice]; isSlicing := flag;
               elementCount := S (elementCount sub) |}
        | None =>
            {| sub_slices := sub_slices sub; isSlicing := flag;
               elementCount := elementCount sub |}
        end in
      let ts := skipWhitespace ts in
      match tryConsumePunctuation "," ts with
      | Some ts =>
          parseSubscript fuel
            {| sub_slices := sub_slices sub; isSlicing := true;
               elementCount := elementCount sub |} ts
      | None =>
          match tryConsumePunctuation "]" ts with
          | Some ts => Ok (sub, ts)
          | None => parseSubscript fuel sub ts
          end
      end
  end

(** The inner loop: the parts of one dimension.  It returns the slice
    (or null), and the flag [isSlicing] it may have set. *)
with parseSlice (fuel : nat) (slice : list (option AstNode)) (colons : nat)
    (hasExpression : bool) (flag : bool) (ts : list Token) {struct fuel}
    : Parsed (option (NodeSlice AstNode) * bool) :=
  match fuel with
  | O => Throw OutOfFuel
  | S fuel =>
      if peekPunctuation "," ts || peekPunctuation "]" ts then
        if hasExpression || (0 <? colons)%nat then
          Ok (Some {| start := array_get slice 0; end_ := array_get slice 1;
                      step := array_get slice 2 |}, flag, ts)
        else Ok (None, flag, ts)
      else if peekPunctuation ":" ts then
        parseSlice fuel slice (S colons) hasExpression true (tail ts)
      else
        let* (s, ts) := parseExpression fuel 0 ts in
        parseSlice fuel (array_set slice colons s) colons true flag ts
  end

with parseAtom (fuel : nat) (ts : list Token) {struct fuel} : Parsed AstNode :=
  match fuel with
  | O => Throw OutOfFuel
  | S fuel =>
      match skipWhitespace ts with
      | [] => Throw (Error "Unexpected end of expression")
      | token :: rest =>
          match token with
          | EmbeddedToken _ | ConstantToken _ _ => Ok (ValueNode token, rest)
          | IdentifierToken literal => Ok (IdentifierNode literal, rest)
          | OperatorToken literal =>
              match Operations.unaryFromLiteral literal with
              | None => Throw (Error "Unexpected operator")
              | Some unaryOperatorName =>
                  let meta := Operations.meta (OpUnary unaryOperatorName) in
                  if negb (bool_decide (meta_type meta = unary)) then
                    Throw (Error "Never!")
                  else
                    let* (operand, ts) :=
                      parseExpression fuel (meta_precedence meta) rest in
                    Ok (UnaryNode unaryOperatorName operand, ts)
              end
          | PunctuationToken literal =>
              if bool_decide (literal = "(") then
                let* (expr, ts) := parseExpression fuel 0 rest in
                match tryConsumePunctuation ")" (skipWhitespace ts) with
                | Some ts => Ok (expr, ts)
                | None => Throw (Error "Expected closing parenthesis")
                end
              else Throw (Error "Unexpected punctuation")
          | WhitespaceToken _ => Throw (Error "Unexpected whitespace token")
          end
      end
  end.

(** A fuel that no run uses up: at most four calls are made between two
    tokens consumed. *)
Definition enough (ts : list Token) : nat := (4 * length ts + 4)%nat.

(** [new AstParser(tokens).parse()] *)
Definition parse (tokens : list Token) : Outcome AstNode :=
  let ts := skipWhitespace tokens in
  match ts with
  | [] => Throw (Error "Empty expression")
  | _ =>
      let* (result, ts) := parseExpression (enough tokens) 0 ts in
      match skipWhitespace ts with
      | [] => Ok result
      | _ => Throw (Error "Unexpected token at end of expression")
      end
  end.

End AstParser.

(* ================================================================= *)
(** ** The host: heap, prototypes and property access

    Objects, arrays and functions are heap cells; the prototype link, the own
    properties, the array elements and the code of a function are fields of
    the cell.  Accessor properties and proxies are outside the model. *)

Inductive PropertyKey :=
| KString (s : string)
| KSymbol (s : JsSymbol).

#[global] Instance PropertyKey_eq_dec : EqDecision PropertyKey.
Proof. solve_decision. Defined.

(** The closures that [overloadDefaults] creates. *)
Inductive DefaultOverload :=
| ArrayConcat | ArrayIndex | ArraySlice | StringRepeat | SetUnion | SetDifference.

#[global] Instance DefaultOverload_eq_dec : EqDecision DefaultOverload.
Proof. solve_decision. Defined.

(** The code of a function object: a function of the host program, one of
    the closures of [overloadDefaults], or the closure
    [function (...args) { return operationFn(this, ...args) }] that
    [setOverload] wraps around an arrow function. *)
Inductive Code :=
| HostCode (id : nat)
| DefaultCode (d : DefaultOverload)
| AdapterCode (operationFn : Code).

(** [FunctionType] of utils/index.ts *)
Inductive FunctionType := normal | arrow | method.

#[global] Instance FunctionType_eq_dec : EqDecision FunctionType.
Proof. solve_decision. Defined.

Record FunctionInfo := {
  fn_code : Code;
  (** the source text of the function, what
      [Function.prototype.toString.call(fn)] returns *)
  fn_text : string
}.

Record Obj := {
  proto : option loc;
  props : list (PropertyKey * Value);
  callable : option FunctionInfo;
  elements : option (list Value)
}.

Abbreviation Heap := (gmap nat Obj).

(** The intrinsic objects of the realm, at fixed locations. *)
Module Realm.
Definition ObjectPrototype : loc := 0%nat.
Definition FunctionPrototype : loc := 1%nat.
Definition ArrayPrototype : loc := 2%nat.
Definition StringPrototype : loc := 3%nat.
Definition NumberPrototype : loc := 4%nat.
Definition BooleanPrototype : loc := 5%nat.
Definition BigIntPrototype : loc := 6%nat.
Definition SymbolPrototype : loc := 7%nat.
Definition SetPrototype : loc := 8%nat.
Definition Object : loc := 9%nat.
Definition Number : loc := 10%nat.
Definition BigInt : loc := 11%nat.
Definition String : loc := 12%nat.
Definition Boolean : loc := 13%nat.
Definition Array : loc := 14%nat.
Definition Date : loc := 15%nat.
Definition Symbol : loc := 16%nat.
Definition JSON : loc := 17%nat.
Definition Math : loc := 18%nat.
Definition Set_ : loc := 19%nat.
End Realm.

Definition empty_object : Obj :=
  {| proto := None; props := []; callable := None; elements := None |}.

(** The cell of a location; a location without a cell reads as an object
    with neither prototype nor properties. *)
Definition cell (h : Heap) (l : loc) : Obj := default empty_object (h !! l).

Fixpoint assoc {K V} `{EqDecision K} (k : K) (l : list (K * V)) : option V :=
  match l with
  | [] => None
  | (k', v) :: rest => if decide (k' = k) then Some v else assoc k rest
  end.

(** [typeof v] *)
Definition typeof (h : Heap) (v : Value) : string :=
  match v with
  | VUndefined => "undefined"
  | VNull => "object"
  | VBoolean _ => "boolean"
  | VNumber _ => "number"
  | VBigInt _ => "bigint"
  | VString _ => "string"
  | VSymbol _ => "symbol"
  | VObject l =>
      match callable (cell h l) with
      | Some _ => "function"
      | None => "object"
      end
  end.

Definition of_proto (p : option loc) : Value :=
  match p with Some l => VObject l | None => VNull end.

(** [Object.getPrototypeOf(v)]: a primitive is converted to an object
    first, which [undefined] and [null] do not allow. *)
Definition getPrototypeOf (h : Heap) (v : Value) : Outcome Value :=
  match v with
  | VUndefined | VNull =>
      Throw (TypeError "Cannot convert undefined or null to object")
  | VBoolean _ => Ok (VObject Realm.BooleanPrototype)
  | VNumber _ => Ok (VObject Realm.NumberPrototype)
  | VBigInt _ => Ok (VObject Realm.BigIntPrototype)
  | VString _ => Ok (VObject Realm.StringPrototype)
  | VSymbol _ => Ok (VObject Realm.SymbolPrototype)
  | VObject l => Ok (of_proto (proto (cell h l)))
  end.

Definition decimal (z : Z) : string := pretty z.

(** The index a string key denotes, for canonical numeric keys. *)
Definition array_index (k : PropertyKey) : option nat :=
  match k with
  | KString s =>
      if all_chars is_digit s && non_empty s
         && bool_decide (decimal (radix_value 10 s) = s)
      then Some (Z.to_nat (radix_value 10 s)) else None
  | KSymbol _ => None
  end.

(** The own property [k] of a cell: an element or the length of an array, or
    an entry of the property list. *)
Definition own_property (o : Obj) (k : PropertyKey) : option Value :=
  match elements o with
  | Some xs =>
      if bool_decide (k = KString "length") then Some (VInt (Z.of_nat (length xs)))
      else match array_index k with
           | Some i => match xs !! i with
                       | Some x => Some x
                       | None => assoc k (props o)
                       end
           | None => assoc k (props o)
           end
  | None => assoc k (props o)
  end.

(** A number of steps no acyclic prototype chain of the heap exceeds. *)
Definition chain_fuel (h : Heap) : nat := S (size h).

(** The property [k] found from object [l] upwards. *)
Fixpoint find_property (fuel : nat) (h : Heap) (l : loc) (k : PropertyKey)
  : option Value :=
  match fuel with
  | O => None
  | S fuel =>
      match own_property (cell h l) k with
      | Some v => Some v
      | None =>
          match proto (cell h l) with
          | Some l' => find_property fuel h l' k
          | None => None
          end
      end
  end.

(** [k in o] for an object [o]. *)
Definition has_property (h : Heap) (l : loc) (k : PropertyKey) : bool :=
  bool_decide (is_Some (find_property (chain_fuel h) h l k)).

(** The own properties of a string: its length and its characters. *)
Definition string_property (s : string) (k : PropertyKey) : option Value :=
  if bool_decide (k = KString "length") then Some (VInt (Z.of_nat (String.length s)))
  else match array_index k with
       | Some i =>
           if (i <? String.length s)%nat
           then Some (VString (String.substring i 1 s)) else None
       | None => None
       end.

Definition ToPropertyKey (v : Value) : Outcome PropertyKey :=
  match v with
  | VString s => Ok (KString s)
  | VSymbol s => Ok (KSymbol s)
  | VUndefined => Ok (KString "undefined")
  | VNull => Ok (KString "null")
  | VBoolean b => Ok (KString (if b then "true" else "false"))
  | VNumber (NInt z) => Ok (KString (decimal z))
  | VNumber NNaN => Ok (KString "NaN")
  | VNumber (NInfinity s) => Ok (KString (if s then "-Infinity" else "Infinity"))
  | VNumber (NFloat _ _) => Throw (Unmodelled "property key of a double")
  | VBigInt z => Ok (KString (decimal z))
  | VObject _ => Throw (Unmodelled "property key of an object")
  end.

(** [v[k]] for a key already converted. *)
Definition get_by_key (h : Heap) (v : Value) (k : PropertyKey) : Outcome Value :=
  let from l := default VUndefined (find_property (chain_fuel h) h l k) in
  match v with
  | VUndefined | VNull =>
      Throw (TypeError "Cannot read properties of undefined or null")
  | VObject l => Ok (from l)
  | VString s =>
      match string_property s k with
      | Some x => Ok x
      | None => Ok (from Realm.StringPrototype)
      end
  | VBoolean _ => Ok (from Realm.BooleanPrototype)
  | VNumber _ => Ok (from Realm.NumberPrototype)
  | VBigInt _ => Ok (from Realm.BigIntPrototype)
  | VSymbol _ => Ok (from Realm.SymbolPrototype)
  end.

(** [v[key]] *)
Definition get_property (h : Heap) (v key : Value) : Outcome Value :=
  match v with
  | VUndefined | VNull =>
      Throw (TypeError "Cannot read properties of undefined or null")
  | _ => let* k := ToPropertyKey key in get_by_key h v k
  end.

Definition alloc (o : Obj) (h : Heap) : loc * Heap :=
  let l := fresh (dom h) in (l, <[l := o]> h).

(* ================================================================= *)
(** ** Engines and the world *)

Definition operation_index (op : OperationName) : nat :=
  match op with
  | OpIndexing => 0 | OpSlicing => 1
  | OpUnary U_not => 2 | OpUnary U_bitnot => 3
  | OpUnary U_neg => 4 | OpUnary U_pos => 5
  | OpBinary B_lor => 6 | OpBinary B_land => 7 | OpBinary B_or => 8
  | OpBinary B_xor => 9 | OpBinary B_and => 10 | OpBinary B_eq => 11
  | OpBinary B_seq => 12 | OpBinary B_ne => 13 | OpBinary B_sne => 14
  | OpBinary B_lt => 15 | OpBinary B_gt => 16 | OpBinary B_le => 17
  | OpBinary B_ge => 18 | OpBinary B_shl => 19 | OpBinary B_shr => 20
  | OpBinary B_ushr => 21 | OpBinary B_add => 22 | OpBinary B_sub => 23
  | OpBinary B_mul => 24 | OpBinary B_div => 25 | OpBinary B_mod => 26
  | OpBinary B_pow => 27
  end%nat.

#[global] Program Instance OperationName_countable : Countable OperationName :=
  inj_countable operation_index (λ n, Operations.names !! n) _.
Next Obligation. by intros [| | [] | []]. Qed.

#[global] Program Instance JsSymbol_countable : Countable JsSymbol :=
  inj_countable' (λ s, match s with SymbolOf op => op end) SymbolOf _.
Next Obligation. by intros []. Qed.

#[global] Program Instance JsNumber_countable : Countable JsNumber :=
  inj_countable'
    (λ n, match n with
          | NInt z => inl (inl z)
          | NFloat m e => inl (inr (m, e))
          | NInfinity negative => inr (inl negative)
          | NNaN => inr (inr tt)
          end)
    (λ x, match x with
          | inl (inl z) => NInt z
          | inl (inr (m, e)) => NFloat m e
          | inr (inl negative) => NInfinity negative
          | inr (inr _) => NNaN
          end) _.
Next Obligation. by intros []. Qed.

#[global] Program Instance Value_countable : Countable Value :=
  inj_countable'
    (λ v, match v with
          | VUndefined => inl (inl (inl true))
          | VNull => inl (inl (inl false))
          | VBoolean b => inl (inl (inr b))
          | VNumber n => inl (inr (inl n))
          | VBigInt z => inl (inr (inr z))
          | VString s => inr (inl (inl s))
          | VSymbol s => inr (inl (inr s))
          | VObject l => inr (inr l)
          end)
    (λ x, match x with
          | inl (inl (inl true)) => VUndefined
          | inl (inl (inl false)) => VNull
          | inl (inl (inr b)) => VBoolean b
          | inl (inr (inl n)) => VNumber n
          | inl (inr (inr z)) => VBigInt z
          | inr (inl (inl s)) => VString s
          | inr (inl (inr s)) => VSymbol s
          | inr (inr l) => VObject l
          end) _.
Next Obligation. by intros []. Qed.

(** The fields of a [Rop] instance: [overloadings], from prototype to
    operation symbol to function, and [bindings], from identifier to value.
    The keys of [overloadings], a [Map], are values of any kind: an object
    is a key by its identity, a primitive by its value. *)
Record RopObject := {
  overloadings : gmap Value (gmap JsSymbol Value);
  bindings : gmap string Value
}.

(** The state of the host program: the heap, the engines created so far,
    and the static field [Rop.instance]. *)
Record World := {
  heap : Heap;
  engines : gmap nat RopObject;
  instance : option nat
}.

Definition with_heap (h : Heap) (w : World) : World :=
  {| heap := h; engines := engines w; instance := instance w |}.

Definition with_engines (es : gmap nat RopObject) (w : World) : World :=
  {| heap := heap w; engines := es; instance := instance w |}.

Definition with_instance (i : option nat) (w : World) : World :=
  {| heap := heap w; engines := engines w; instance := i |}.

(** Computations that read and change a state and may throw; what was
    changed before a throw stays changed. *)
Definition Run (S A : Type) : Type := S → Outcome A * S.

Definition ret {S A} (a : A) : Run S A := λ s, (Ok a, s).
Definition throw {S A} (e : Thrown) : Run S A := λ s, (Throw e, s).
Definition bind {S A B} (m : Run S A) (k : A → Run S B) : Run S B :=
  λ s, match m s with
       | (Ok a, s') => k a s'
       | (Throw e, s') => (Throw e, s')
       end.
Definition lift {S A} (o : Outcome A) : Run S A := λ s, (o, s).
Definition reads {S A} (f : S → A) : Run S A := λ s, (Ok (f s), s).
Definition modify {S} (f : S → S) : Run S unit := λ s, (Ok tt, f s).

Declare Scope run_scope.
Delimit Scope run_scope with run.
Notation "'do' x '<-' c1 ';' c2" := (bind c1 (λ x, c2))
  (at level 10, x pattern, c1 at level 100, c2 at level 200) : run_scope.
Open Scope run_scope.

Definition allocate (o : Obj) : Run World loc :=
  λ w, let (l, h) := alloc o (heap w) in (Ok l, with_heap h w).

Definition store (l : loc) (o : Obj) : Run World unit :=
  modify (λ w, with_heap (<[l := o]> (heap w)) w).

Definition new_array (xs : list Value) : Run World Value :=
  do l <- allocate {| proto := Some Realm.ArrayPrototype; props := [];
                      callable := None; elements := Some xs |};
  ret (VObject l).

Definition new_object (ps : list (PropertyKey * Value)) : Run World Value :=
  do l <- allocate {| proto := Some Realm.ObjectPrototype; props := ps;
                      callable := None; elements := None |};
  ret (VObject l).

(** A function object with the given source text.  A [function] expression
    owns a [prototype] object; an arrow function and a method of an object
    literal do not. *)
Definition new_function (c : Code) (owns_prototype : bool) (text : string)
  : Run World Value :=
  let info := {| fn_code := c; fn_text := text |} in
  if owns_prototype then
    do p <- new_object [];
    do l <- allocate {| proto := Some Realm.FunctionPrototype;
                        props := [(KString "prototype", p)];
                        callable := Some info; elements := None |};
    ret (VObject l)
  else
    do l <- allocate {| proto := Some Realm.FunctionPrototype; props := [];
                        callable := Some info; elements := None |};
    ret (VObject l).

(* ================================================================= *)
(** ** utils/index.ts *)

(** [normalizeIndex(index, length)] *)
Definition normalizeIndex (index length : Z) : Z :=
  if index <? 0 then index + length else index.

(** The pattern of [detectFunctionType], [^[^(),.=>{}[]]+\s*=>\s*\{]: its
    character class ends at the first closing bracket, so it asks for one
    character that is none of [( ) , . = > { } [], then one or more closing
    square brackets, then the arrow and an opening brace, with white space
    allowed before and after the arrow. *)
Definition re_arrow (s : string) : bool :=
  match s with
  | String c r =>
      negb (char_in "(),.=>{}[" c)
      && (let (brackets, r1) := take_while (λ x, bool_decide (x = "]"%char)) r in
          non_empty brackets
          && (let (_, r2) := take_while is_space r1 in
              starts_with "=>" r2
              && (let (_, r3) := take_while is_space (drop 2 r2) in
                  starts_with "{" r3)))
  | EmptyString => false
  end.

(** [str.startsWith('(') || pattern.test(str)] *)
Definition arrow_text (str : string) : bool := starts_with "(" str || re_arrow str.

(** [detectFunctionType(fn)]: [normal] when [fn] owns a [prototype]
    property, otherwise decided on the source text of the function, which
    only a function has. *)
Definition detectFunctionType (h : Heap) (fn : Value) : Outcome FunctionType :=
  match fn with
  | VUndefined | VNull =>
      Throw (TypeError "Cannot read properties of undefined or null")
  | VObject l =>
      if bool_decide (is_Some (own_property (cell h l) (KString "prototype")))
      then Ok normal
      else match callable (cell h l) with
           | Some info => Ok (if arrow_text (fn_text info) then arrow else method)
           | None => Throw (TypeError "Function.prototype.toString requires a function")
           end
  | _ => Throw (TypeError "Function.prototype.toString requires a function")
  end.

(** [Slice]: the evaluated parts of one dimension; an absent part is
    [undefined]. *)
Record Slice := { s_start : Value; s_end : Value; s_step : Value }.

(* ================================================================= *)
(** ** The built-in overloads (Rop.overloadDefaults) *)

(** The values [i] takes in [for (let i = from; i < to; i += step)]. *)
Fixpoint for_up (fuel : nat) (i to step : Z) : list Z :=
  match fuel with
  | O => []
  | S fuel => if i <? to then i :: for_up fuel (i + step) to step else []
  end.

(** The values [i] takes in [for (let i = from; i > to; i += step)]. *)
Fixpoint for_down (fuel : nat) (i to step : Z) : list Z :=
  match fuel with
  | O => []
  | S fuel => if to <? i then i :: for_down fuel (i + step) to step else []
  end.

(** A part of a slice that must be an integral number. *)
Definition integral (v : Value) : Outcome Z :=
  match v with
  | VNumber (NInt z) => Ok z
  | _ => Throw (Unmodelled "slice part that is not an integral number")
  end.

(** The body of the ['[:]'] overload of [Array], on an array of [length]
    elements read by [item]; it returns the result and the slice object as
    the body leaves it. *)
Definition array_slice (length : Z) (item : Z → Value) (slices : list Slice)
  : Outcome (list Value * Slice) :=
  match slices with
  | [slice] =>
      if is_double (s_step slice) then Throw (Unmodelled "step that is a double")
      else if bool_decide (s_step slice = VInt 0) then
        Throw (Error "Slice step cannot be zero")
      else
        let step_value :=
          if is_nullish (s_step slice) then VInt 1 else s_step slice in
        let* step := integral step_value in
        if 0 <? step then
          let* start :=
            if bool_decide (s_start slice = VUndefined) then Ok 0
            else let* i := integral (s_start slice) in Ok (normalizeIndex i length) in
          let* stop :=
            if bool_decide (s_end slice = VUndefined) then Ok length
            else let* i := integral (s_end slice) in Ok (normalizeIndex i length) in
          Ok (item <$> for_up (Z.to_nat (stop - start)) start stop step,
              {| s_start := VInt start; s_end := VInt stop; s_step := VInt step |})
        else
          let* start :=
            if bool_decide (s_start slice = VUndefined) then Ok (length - 1)
            else let* i := integral (s_start slice) in Ok (normalizeIndex i length) in
          let* stop :=
            if bool_decide (s_end slice = VUndefined) then Ok (-1)
            else let* i := integral (s_end slice) in Ok (normalizeIndex i length) in
          Ok (item <$> for_down (Z.to_nat (start - stop)) start stop step,
              {| s_start := VInt start; s_end := VInt stop; s_step := VInt step |})
  | _ => Throw (Error "Multi slice is not supported")
  end.

(** [this[i]] on the elements of an array whose prototypes define no index:
    [undefined] outside the bounds. *)
Definition item_of (xs : list Value) (i : Z) : Value :=
  if i <? 0 then VUndefined else default VUndefined (xs !! Z.to_nat i).

(** [s.repeat(n)] *)
Fixpoint repeat_string (n : nat) (s : string) : string :=
  match n with
  | O => EmptyString
  | S n => s +:+ repeat_string n s
  end.

Definition arg (i : nat) (args : list Value) : Value :=
  default VUndefined (args !! i).

Definition array_elements (h : Heap) (v : Value) : Outcome (list Value) :=
  match v with
  | VObject l =>
      match elements (cell h l) with
      | Some xs => Ok xs
      | None => Throw (Unmodelled "iteration of an object that is not an array")
      end
  | VUndefined | VNull => Throw (TypeError "undefined is not iterable")
  | _ => Throw (Unmodelled "iteration of a primitive")
  end.

Fixpoint assoc_set {K V} `{EqDecision K} (k : K) (v : V) (l : list (K * V))
  : list (K * V) :=
  match l with
  | [] => [(k, v)]
  | (k', v') :: rest =>
      if decide (k' = k) then (k, v) :: rest else (k', v') :: assoc_set k v rest
  end.

(** [o[k] = v] on an ordinary object. *)
Definition set_property (l : loc) (k : PropertyKey) (v : Value) : Run World unit :=
  λ w, let o := cell (heap w) l in
       store l {| proto := proto o; props := assoc_set k v (props o);
                  callable := callable o; elements := elements o |} w.

Definition read_slice (h : Heap) (v : Value) : Outcome Slice :=
  let* a := get_property h v (VString "start") in
  let* b := get_property h v (VString "end") in
  let* c := get_property h v (VString "step") in
  Ok {| s_start := a; s_end := b; s_step := c |}.

Fixpoint read_slices (h : Heap) (vs : list Value) : Outcome (list Slice) :=
  match vs with
  | [] => Ok []
  | v :: rest =>
      let* s := read_slice h v in
      let* ss := read_slices h rest in
      Ok (s :: ss)
  end.

(** The closures of [overloadDefaults], on heap values. *)
Definition run_default (d : DefaultOverload) (this : Value) (args : list Value)
  : Run World Value :=
  match d with
  | ArrayConcat =>
      do h <- reads heap;
      do xs <- lift (array_elements h (arg 0 args));
      do ys <- lift (array_elements h (arg 1 args));
      new_array (xs ++ ys)
  | ArrayIndex =>
      do h <- reads heap;
      if negb (bool_decide (typeof h (arg 0 args) = "number")) then
        throw (Error "Index of Array must be a number")
      else
        do index <- lift (integral (arg 0 args));
        do len <- lift (let* n := get_property h this (VString "length") in integral n);
        lift (get_property h this (VInt (normalizeIndex index len)))
  | ArraySlice =>
      do h <- reads heap;
      do xs <- lift (array_elements h this);
      do vs <- lift (array_elements h (arg 0 args));
      do slices <- lift (match vs with
                         | [_] => read_slices h vs
                         | _ => Ok ((λ _, {| s_start := VUndefined; s_end := VUndefined;
                                             s_step := VUndefined |}) <$> vs)
                         end);
      do r <- lift (array_slice (Z.of_nat (length xs)) (item_of xs) slices);
      do _ <- match vs with
              | VObject l :: _ =>
                  do _ <- set_property l (KString "step") (s_step r.2);
                  do _ <- set_property l (KString "start") (s_start r.2);
                  set_property l (KString "end") (s_end r.2)
              | _ => ret tt
              end;
      new_array r.1
  | StringRepeat =>
      match arg 0 args, arg 1 args with
      | VString s, VNumber (NInt n) =>
          if n <? 0 then throw (RangeError "Invalid count value")
          else ret (VString (repeat_string (Z.to_nat n) s))
      | _, _ => throw (Unmodelled "repeat on other values")
      end
  | SetUnion | SetDifference => throw (Unmodelled "Set objects")
  end.

(* ================================================================= *)
(** ** Calling functions *)

Section Host.

(** The functions of the host program: [host_call id this args]. *)
Variable host_call : nat → Value → list Value → Run World Value.

Fixpoint run_code (c : Code) (this : Value) (args : list Value) : Run World Value :=
  match c with
  | HostCode id => host_call id this args
  | DefaultCode d => run_default d this args
  | AdapterCode operationFn => run_code operationFn VUndefined (this :: args)
  end.

(** [f.call(this, ...args)] *)
Definition call_function (f this : Value) (args : list Value) : Run World Value :=
  λ w, match f with
       | VObject l =>
           match callable (cell (heap w) l) with
           | Some info => run_code (fn_code info) this args w
           | None => (Throw (TypeError "not a function"), w)
           end
       | _ => (Throw (TypeError "not a function"), w)
       end.

End Host.

(* ================================================================= *)
(** ** The engine (Rop.ts) *)

(** An operation given to [overload] or used as a key of a definition
    object: a name or a symbol. *)
Inductive OperationRef :=
| ByName (name : string)
| BySymbol (s : JsSymbol).

(** [Operations.symbol(op)]; [None] is [null]. *)
Definition Operations_symbol (op : OperationRef) : option JsSymbol :=
  match op with
  | ByName name => Operations.symbolOf name
  | BySymbol s => Some s
  end.

Module Rop.

Definition this (rop : nat) : Run World RopObject :=
  λ w, match engines w !! rop with
       | Some r => (Ok r, w)
       | None => (Throw (Unmodelled "engine that was never constructed"), w)
       end.

Definition update (rop : nat) (f : RopObject → RopObject) : Run World unit :=
  do r <- this rop;
  modify (λ w, with_engines (<[rop := f r]> (engines w)) w).

(** [new Rop()] *)
Definition constructor : Run World nat :=
  λ w, let rop := fresh (dom (engines w)) in
       (Ok rop,
        with_engines (<[rop := {| overloadings := ∅; bindings := ∅ |}]> (engines w)) w).

Definition set_binding (key : string) (value : Value) (r : RopObject) : RopObject :=
  {| overloadings := overloadings r; bindings := <[key := value]> (bindings r) |}.

(** [bind(key, value)] *)
Definition bind (rop : nat) (key : string) (value : Value) : Run World nat :=
  do _ <- update rop (set_binding key value);
  ret rop.

(** [bind(bindings)], for the entries of a map or of an object, in their
    order. *)
Fixpoint bindAll (rop : nat) (entries : list (string * Value)) : Run World nat :=
  match entries with
  | [] => ret rop
  | (key, value) :: rest =>
      do _ <- update rop (set_binding key value);
      bindAll rop rest
  end.

Fixpoint unbind (rop : nat) (keys : list string) : Run World nat :=
  match keys with
  | [] => ret rop
  | k :: rest =>
      do _ <- update rop (λ r, {| overloadings := overloadings r;
                                  bindings := delete k (bindings r) |});
      unbind rop rest
  end.

Definition set_class_overloads (prototype : Value) (m : gmap JsSymbol Value)
    (r : RopObject) : RopObject :=
  {| overloadings := <[prototype := m]> (overloadings r); bindings := bindings r |}.

Definition class_overloads (prototype : Value) (r : RopObject) : gmap JsSymbol Value :=
  default ∅ (overloadings r !! prototype).

Definition code_of (h : Heap) (f : Value) : Code :=
  match f with
  | VObject l =>
      match callable (cell h l) with
      | Some info => fn_code info
      | None => HostCode 0
      end
  | _ => HostCode 0
  end.

(** The text of the function that [setOverload] wraps around an arrow
    function. *)
Definition adapter_text : string :=
  "function (...args) { return operationFn(this, ...args); }".

(** [setOverload(prototype, symbol, operationFn)] *)
Definition setOverload (rop : nat) (prototype : Value) (symbol : JsSymbol)
    (operationFn : Value) : Run World unit :=
  do r <- this rop;
  do _ <- (if bool_decide (is_Some (overloadings r !! prototype)) then ret tt
           else update rop (set_class_overloads prototype ∅));
  do h <- reads heap;
  do t <- lift (detectFunctionType h operationFn);
  do stored <-
    match t with
    | normal | method => ret operationFn
    | arrow => new_function (AdapterCode (code_of h operationFn)) true adapter_text
    end;
  update rop (λ r, set_class_overloads prototype
                     (<[symbol := stored]> (class_overloads prototype r)) r).

(** [overload(clazz, op, operationFn)] *)
Definition overload (rop : nat) (clazz : Value) (op : OperationRef)
    (operationFn : Value) : Run World nat :=
  do h <- reads heap;
  do prototype <- lift (get_property h clazz (VString "prototype"));
  if bool_decide (prototype = VUndefined) then throw (TypeError "clazz must be a class")
  else
    match Operations_symbol op with
    | None => throw (TypeError "Unknown operation")
    | Some symbol =>
        do _ <- setOverload rop prototype symbol operationFn;
        ret rop
    end.

(** The loop of [overloads] over [Reflect.ownKeys(def)]. *)
Fixpoint overloads_loop (rop : nat) (prototype : Value)
    (def : list (OperationRef * Value)) : Run World unit :=
  match def with
  | [] => ret tt
  | (key, operationFn) :: rest =>
      match Operations_symbol key with
      | None => overloads_loop rop prototype rest
      | Some symbol =>
          do h <- reads heap;
          if negb (bool_decide (typeof h operationFn = "function")) then
            throw (TypeError "Expected operation function to be a function")
          else
            do _ <- setOverload rop prototype symbol operationFn;
            overloads_loop rop prototype rest
      end
  end.

(** [overloads(clazz, def)]; [def] lists the own keys of the definition
    object with their values. *)
Definition overloads (rop : nat) (clazz : Value) (def : list (OperationRef * Value))
  : Run World nat :=
  do h <- reads heap;
  do prototype <- lift (get_property h clazz (VString "prototype"));
  if bool_decide (prototype = VUndefined) then throw (TypeError "clazz must be a class")
  else
    do _ <- overloads_loop rop prototype def;
    ret rop.

(** The entry of the overload table for the key [p] and [symbol]:
    [classOverloads !== undefined && classOverloads.has(symbol)]. *)
Definition registered (table : gmap Value (gmap JsSymbol Value)) (p : Value)
    (symbol : JsSymbol) : option Value :=
  (table !! p) ≫= (λ classOverloads, classOverloads !! symbol).

(** The function [p[symbol]], when
    [typeof p === 'object' && symbol in p && typeof p[symbol] === 'function']. *)
Definition declared (h : Heap) (p : Value) (symbol : JsSymbol) : option Value :=
  match p with
  | VObject l =>
      if bool_decide (typeof h p = "object") then
        match find_property (chain_fuel h) h l (KSymbol symbol) with
        | Some fn => if bool_decide (typeof h fn = "function") then Some fn else None
        | None => None
        end
      else None
  | _ => None
  end.

(** The loop of [getOverloadFromPrototypeChain]; [null] is [VNull]. *)
Fixpoint walk (fuel : nat) (table : gmap Value (gmap JsSymbol Value)) (h : Heap)
    (p : Value) (symbol : JsSymbol) : Outcome Value :=
  match fuel with
  | O => Throw OutOfFuel
  | S fuel =>
      if bool_decide (p = VNull) then Ok VNull
      else
        match registered table p symbol with
        | Some fn => Ok (if is_nullish fn then VNull else fn)
        | None =>
            match declared h p symbol with
            | Some fn => Ok fn
            | None =>
                let* p' := getPrototypeOf h p in
                walk fuel table h p' symbol
            end
        end
  end.

Definition getOverloadFromPrototypeChain (rop : nat) (prototype : Value)
    (symbol : JsSymbol) : Run World Value :=
  do r <- this rop;
  do h <- reads heap;
  lift (walk (2 + chain_fuel h) (overloadings r) h prototype symbol).

Definition getOverloadOnClass (rop : nat) (clazz : Value) (symbol : JsSymbol)
  : Run World Value :=
  do h <- reads heap;
  do prototype <- lift (get_property h clazz (VString "prototype"));
  getOverloadFromPrototypeChain rop prototype symbol.

Definition getOverloadOnInstance (rop : nat) (inst : Value) (symbol : JsSymbol)
  : Run World Value :=
  getOverloadFromPrototypeChain rop inst symbol.

(** The object given to [bind] by [bindDefaults]. *)
Definition default_bindings : list (string * Value) :=
  [ ("true", VBoolean true); ("false", VBoolean false); ("null", VNull);
    ("undefined", VUndefined); ("Infinity", VNumber (NInfinity false));
    ("NaN", VNumber NNaN); ("Object", VObject Realm.Object);
    ("Number", VObject Realm.Number); ("BigInt", VObject Realm.BigInt);
    ("String", VObject Realm.String); ("Boolean", VObject Realm.Boolean);
    ("Array", VObject Realm.Array); ("Date", VObject Realm.Date);
    ("Symbol", VObject Realm.Symbol); ("JSON", VObject Realm.JSON);
    ("Math", VObject Realm.Math) ].

Definition bindDefaults (rop : nat) : Run World nat := bindAll rop default_bindings.

(** [Object.getOwnPropertyNames(o)] with the value of each name. *)
Definition own_named_properties (o : Obj) : list (string * Value) :=
  omap (λ '(k, v), match k with KString s => Some (s, v) | KSymbol _ => None end)
       (props o).

Definition bindMaths (rop : nat) : Run World nat :=
  do h <- reads heap;
  bindAll rop (own_named_properties (cell h Realm.Math)).

(** The texts of the closures of [overloadDefaults], as written in Rop.ts
    without the type annotations and the line breaks. *)
Module DefaultText.
Definition concat : string := "(self, other) => [...self, ...other]".
Definition index : string :=
  "'[i]'(index) { if (typeof index !== 'number') { throw new Error('Index of Array must be a number'); } return this[normalizeIndex(index, this.length)]; }".
Definition slice : string :=
  "'[:]'(slices) { if (slices.length !== 1) { throw new Error('Multi slice is not supported'); } const slice = slices[0]; if (slice.step === 0) { throw new Error('Slice step cannot be zero'); } else { slice.step ??= 1; const result = []; if (slice.step > 0) { slice.start = slice.start === undefined ? 0 : normalizeIndex(slice.start, this.length); slice.end = slice.end === undefined ? this.length : normalizeIndex(slice.end, this.length); for (let i = slice.start; i < slice.end; i += slice.step) { result.push(this[i]); } } else { slice.start = slice.start === undefined ? this.length - 1 : normalizeIndex(slice.start, this.length); slice.end = slice.end === undefined ? -1 : normalizeIndex(slice.end, this.length); for (let i = slice.start; i > slice.end; i += slice.step) { result.push(this[i]); } } return result; } }".
Definition repeat : string := "(self, n) => self.repeat(n)".
Definition union : string := "(self, b) => new Set([...self, ...b])".
Definition difference : string :=
  "(self, b) => new Set([...self].filter((x) => !b.has(x)))".
End DefaultText.

Definition overloadDefaults (rop : nat) : Run World nat :=
  do concat <- new_function (DefaultCode ArrayConcat) false DefaultText.concat;
  do index <- new_function (DefaultCode ArrayIndex) false DefaultText.index;
  do slice <- new_function (DefaultCode ArraySlice) false DefaultText.slice;
  do _ <- overloads rop (VObject Realm.Array)
            [(ByName "+", concat); (ByName "[i]", index); (ByName "[:]", slice)];
  do repeat <- new_function (DefaultCode StringRepeat) false DefaultText.repeat;
  do _ <- overloads rop (VObject Realm.String) [(ByName "*", repeat)];
  do union <- new_function (DefaultCode SetUnion) false DefaultText.union;
  do difference <- new_function (DefaultCode SetDifference) false DefaultText.difference;
  do _ <- overloads rop (VObject Realm.Set_)
            [(ByName "+", union); (ByName "-", difference)];
  ret rop.

(** The getter [Rop.INST]. *)
Definition INST : Run World nat :=
  do i <- reads instance;
  match i with
  | Some rop => ret rop
  | None =>
      do rop <- constructor;
      do _ <- bindDefaults rop;
      do _ <- bindMaths rop;
      do _ <- overloadDefaults rop;
      do _ <- modify (with_instance (Some rop));
      ret rop
  end.

(** [Rop.resetDefaultInstance()] *)
Definition resetDefaultInstance : Run World unit :=
  modify (with_instance None).

End Rop.

(* ================================================================= *)
(** ** Evaluater (evaluater/Evaluater.ts) *)

(** What the evaluator invokes, recorded as it happens: a function called
    with a receiver and arguments, or the native closure of an operator. *)
Inductive Event :=
| Called (f : Value) (this : Value) (args : list Value)
| Native (op : OperationName) (self other : Value).

(** The state an evaluation runs in: the world, and the record of the
    invocations made so far (the record is not visible to the host). *)
Record Machine := {
  world : World;
  trace : list Event
}.

Definition in_world {A} (m : Run World A) : Run Machine A :=
  λ s, let (r, w) := m (world s) in (r, {| world := w; trace := trace s |}).

Definition record (e : Event) : Run Machine unit :=
  modify (λ s, {| world := world s; trace := trace s ++ [e] |}).

(** [mapM f l]: [l.map(f)] for an [f] with effects, left to right. *)
Definition mapM {S A B} (f : A → Run S B) : list A → Run S (list B) :=
  fix go (l : list A) : Run S (list B) :=
    match l with
    | [] => ret []
    | x :: rest =>
        do y <- f x;
        do ys <- go rest;
        ret (y :: ys)
    end.

Module Evaluater.
Section Evaluater.

Variable host_call : nat → Value → list Value → Run World Value.

(** The engine [this.rop]. *)
Variable rop : nat.

(** [f.call(this, ...args)], recorded. *)
Definition invoke (f this : Value) (args : list Value) : Run Machine Value :=
  do _ <- record (Called f this args);
  in_world (call_function host_call f this args).

(** [meta.native(self, other)], recorded. *)
Definition native (op : OperationName) (self other : Value) : Run Machine Value :=
  do _ <- record (Native op self other);
  lift (meta_native (Operations.meta op) self other).

Definition is_function (v : Value) : Run Machine bool :=
  reads (λ s, bool_decide (typeof (heap (world s)) v = "function")).

Definition evaluateValueNode (token : Token) : Run Machine Value :=
  match token with
  | EmbeddedToken value => ret value
  | ConstantToken _ value => ret value
  | _ => throw (Error "Unknown value token type")
  end.

Definition evaluateIdentifierNode (name : string) : Run Machine Value :=
  do r <- in_world (Rop.this rop);
  match bindings r !! name with
  | None => throw (Error ("Unknown identifier: " +:+ name))
  | Some v => ret v
  end.

Section Nodes.

(** [this.evaluateNode] *)
Variable evaluateNode : AstNode → Run Machine Value.

Definition evaluateUnaryNode (operation : UnaryOperationName) (operand : AstNode)
  : Run Machine Value :=
  do operandValue <- evaluateNode operand;
  let meta := Operations.meta (OpUnary operation) in
  if negb (bool_decide (meta_type meta = unary)) then throw (Error "Invalid node")
  else
    do overload <- in_world (Rop.getOverloadOnInstance rop operandValue (meta_symbol meta));
    do callable <- is_function overload;
    if callable then invoke overload operandValue []
    else native (OpUnary operation) operandValue VUndefined.

Definition evaluateBinaryNode (left_ : AstNode) (operation : BinaryOperationName)
    (right_ : AstNode) : Run Machine Value :=
  do leftValue <- evaluateNode left_;
  do rightValue <- evaluateNode right_;
  let meta := Operations.meta (OpBinary operation) in
  if negb (bool_decide (meta_type meta = binary)) then throw (Error "Invalid node")
  else
    do leftOverload <- in_world (Rop.getOverloadOnInstance rop leftValue (meta_symbol meta));
    do callable <- is_function leftOverload;
    if callable then invoke leftOverload leftValue [rightValue]
    else
      do rightOverload <-
        in_world (Rop.getOverloadOnInstance rop rightValue (meta_symbol meta));
      do callable <- is_function rightOverload;
      if callable then invoke rightOverload rightValue [leftValue]
      else native (OpBinary operation) leftValue rightValue.

Definition evaluateAccessPropertyNode (left_ : AstNode) (name : string)
  : Run Machine Value :=
  do leftValue <- evaluateNode left_;
  do h <- reads (λ s, heap (world s));
  lift (get_property h leftValue (VString name)).

Definition evaluateInvokeNode (target : AstNode) (args : list AstNode)
  : Run Machine Value :=
  do target <- evaluateNode target;
  do args <- mapM evaluateNode args;
  do callable <- is_function target;
  if negb callable then throw (Error "Cannot invoke non-function")
  else invoke target VUndefined args.

Definition evaluateIndexingNode (target index : AstNode) : Run Machine Value :=
  do target <- evaluateNode target;
  do fn <- in_world (Rop.getOverloadOnInstance rop target (Operations.symbol OpIndexing));
  do callable <- is_function fn;
  if callable then
    do i <- evaluateNode index;
    invoke fn target [i]
  else
    do i <- evaluateNode index;
    do h <- reads (λ s, heap (world s));
    lift (get_property h target i).

Definition calculateSlice (ns : NodeSlice AstNode) : Run Machine Slice :=
  let part (n : option AstNode) : Run Machine Value :=
    match n with
    | Some n => evaluateNode n
    | None => ret VUndefined
    end in
  do a <- part (start ns);
  do b <- part (end_ ns);
  do c <- part (step ns);
  ret {| s_start := a; s_end := b; s_step := c |}.

(** The object [{ start, end, step }] that [calculateSlice] returns. *)
Definition slice_object (s : Slice) : Run World Value :=
  new_object [(KString "start", s_start s); (KString "end", s_end s);
              (KString "step", s_step s)].

Definition evaluateSlicingNode (target : AstNode) (slices : list (NodeSlice AstNode))
  : Run Machine Value :=
  do target <- evaluateNode target;
  do fn <- in_world (Rop.getOverloadOnInstance rop target (Operations.symbol OpSlicing));
  do callable <- is_function fn;
  if callable then
    do objects <- mapM (λ ns, do s <- calculateSlice ns; in_world (slice_object s)) slices;
    do array <- in_world (new_array objects);
    invoke fn target [array]
  else
    match slices with
    | [slice] =>
        if bool_decide (is_Some (end_ slice)) || bool_decide (is_Some (step slice)) then
          throw (Error "Target does not support slicing with end or step")
        else
          do s <- calculateSlice slice;
          do h <- reads (λ s, heap (world s));
          lift (get_property h target (s_start s))
    | _ => throw (Error "Target does not support slicing")
    end.

End Nodes.

Fixpoint evaluateNode (node : AstNode) : Run Machine Value :=
  match node with
  | ValueNode token => evaluateValueNode token
  | IdentifierNode name => evaluateIdentifierNode name
  | UnaryNode operation operand => evaluateUnaryNode evaluateNode operation operand
  | BinaryNode left_ operation right_ =>
      evaluateBinaryNode evaluateNode left_ operation right_
  | AccessPropertyNode left_ name => evaluateAccessPropertyNode evaluateNode left_ name
  | InvokeNode target args => evaluateInvokeNode evaluateNode target args
  | IndexingNode target index => evaluateIndexingNode evaluateNode target index
  | SlicingNode target slices => evaluateSlicingNode evaluateNode target slices
  end.

(** [new Evaluater(ast, rop).evaluate()] *)
Definition evaluate (ast : AstNode) : Run Machine Value := evaluateNode ast.

End Evaluater.
End Evaluater.

(* ================================================================= *)
(** ** The pipeline (Rop.o) *)

Section Pipeline.

Variables ID_Start ID_Continue : ascii → bool.
Variable host_call : nat → Value → list Value → Run World Value.

(** [rop.o(strs, ...args)] *)
Definition Rop_o (rop : nat) (strs : TokenizerInput) : Run Machine Value :=
  do tokens <- lift (Tokenizer_tokenize ID_Start ID_Continue strs);
  do ast <- lift (AstParser.parse tokens);
  Evaluater.evaluate host_call rop ast.

End Pipeline.

(* ================================================================= *)
(** ** A realm and a host program to run the engine in *)

Module Sample.

Definition plain (p : option loc) (ps : list (PropertyKey * Value)) : Obj :=
  {| proto := p; props := ps; callable := None; elements := None |}.

Definition function_object (text : string) (id : nat)
    (ps : list (PropertyKey * Value)) : Obj :=
  {| proto := Some Realm.FunctionPrototype; props := ps;
     callable := Some {| fn_code := HostCode id; fn_text := text |};
     elements := None |}.

(** The text of a function of the host itself. *)
Definition native_text (name : string) : string :=
  "function " +:+ name +:+ "() { [native code] }".

Definition class_object (name : string) (id : nat) (prototype : loc) : Obj :=
  function_object (native_text name) id [(KString "prototype", VObject prototype)].

(** Locations of the host program's own objects. *)
Definition max_fn : loc := 20%nat.
Definition counter : loc := 21%nat.
Definition tick_fn : loc := 22%nat.
Definition this_fn : loc := 23%nat.
Definition holder : loc := 24%nat.
Definition array8 : loc := 25%nat.
Definition Vec2 : loc := 26%nat.
Definition Vec2_prototype : loc := 27%nat.
Definition declared_plus : loc := 28%nat.
Definition registered_plus : loc := 29%nat.
Definition vec : loc := 30%nat.

(** The intrinsic objects, [Math.max], and five objects of the program: a
    counter object; the function [tick], which adds one to [counter.hits] and
    returns [true]; the function [receiver], which returns its receiver; the
    object [{ m: receiver, undefined: 42 }]; and the array [[1, ..., 8]].
    Then a class [Vec2] that declares the operation [+] on itself, as the
    method [declared_plus] of its prototype under the symbol of [+]; a
    second function [registered_plus], to be registered on an engine; and an
    instance [vec] of the class. *)
Definition realm : Heap :=
  list_to_map
    [ (Realm.ObjectPrototype, plain None []);
      (Realm.FunctionPrototype,
        {| proto := Some Realm.ObjectPrototype; props := [];
           callable := Some {| fn_code := HostCode 0; fn_text := native_text "" |};
           elements := None |});
      (Realm.ArrayPrototype,
        {| proto := Some Realm.ObjectPrototype; props := []; callable := None;
           elements := Some [] |});
      (Realm.StringPrototype, plain (Some Realm.ObjectPrototype) []);
      (Realm.NumberPrototype, plain (Some Realm.ObjectPrototype) []);
      (Realm.BooleanPrototype, plain (Some Realm.ObjectPrototype) []);
      (Realm.BigIntPrototype, plain (Some Realm.ObjectPrototype) []);
      (Realm.SymbolPrototype, plain (Some Realm.ObjectPrototype) []);
      (Realm.SetPrototype, plain (Some Realm.ObjectPrototype) []);
      (Realm.Object, class_object "Object" 0 Realm.ObjectPrototype);
      (Realm.Number, class_object "Number" 0 Realm.NumberPrototype);
      (Realm.BigInt, class_object "BigInt" 0 Realm.BigIntPrototype);
      (Realm.String, class_object "String" 0 Realm.StringPrototype);
      (Realm.Boolean, class_object "Boolean" 0 Realm.BooleanPrototype);
      (Realm.Array, class_object "Array" 0 Realm.ArrayPrototype);
      (Realm.Date, function_object (native_text "Date") 0 []);
      (Realm.Symbol, class_object "Symbol" 0 Realm.SymbolPrototype);
      (Realm.JSON, plain (Some Realm.ObjectPrototype) []);
      (Realm.Math, plain (Some Realm.ObjectPrototype) [(KString "max", VObject max_fn)]);
      (Realm.Set_, class_object "Set" 0 Realm.SetPrototype);
      (max_fn, function_object (native_text "max") 1 []);
      (counter, plain (Some Realm.ObjectPrototype) [(KString "hits", VInt 0)]);
      (tick_fn, function_object "tick() { counter.hits += 1; return true; }" 2 []);
      (this_fn, function_object "m() { return this; }" 3 []);
      (holder, plain (Some Realm.ObjectPrototype)
                 [(KString "m", VObject this_fn); (KString "undefined", VInt 42)]);
      (array8,
        {| proto := Some Realm.ArrayPrototype; props := []; callable := None;
           elements := Some (VInt <$> [1; 2; 3; 4; 5; 6; 7; 8]) |});
      (Vec2,
        function_object "class Vec2 { [Rop.op('+')](other) { return 'declared on the class'; } }"
          0 [(KString "prototype", VObject Vec2_prototype)]);
      (Vec2_prototype,
        plain (Some Realm.ObjectPrototype)
          [(KString "constructor", VObject Vec2);
           (KSymbol (SymbolOf (OpBinary B_add)), VObject declared_plus)]);
      (declared_plus,
        function_object "[Rop.op('+')](other) { return 'declared on the class'; }" 4 []);
      (registered_plus,
        function_object "plus(other) { return 'registered on the engine'; }" 5 []);
      (vec, plain (Some Vec2_prototype) [(KString "x", VInt 2); (KString "y", VInt 3)]) ].

Definition max_of (args : list Value) : Outcome Value :=
  foldr (λ v acc,
           let* m := acc in
           match v, m with
           | VNumber (NInt a), VNumber (NInt b) => Ok (VInt (Z.max a b))
           | VNumber (NInt a), VNumber (NInfinity true) => Ok (VInt a)
           | _, _ => Throw (Unmodelled "Math.max on other values")
           end)
        (Ok (VNumber (NInfinity true))) args.

(** The code of the host functions, by identifier. *)
Definition host_call (id : nat) (this : Value) (args : list Value) : Run World Value :=
  match id with
  | 1%nat => lift (max_of args)
  | 2%nat =>
      do h <- reads heap;
      do n <- lift (let* v := get_property h (VObject counter) (VString "hits") in
                    integral v);
      do _ <- set_property counter (KString "hits") (VInt (n + 1));
      ret (VBoolean true)
  | 3%nat => ret this
  | 4%nat => ret (VString "declared on the class")
  | 5%nat => ret (VString "registered on the engine")
  | _ => ret VUndefined
  end.

Definition world0 : World := {| heap := realm; engines := ∅; instance := None |}.

Definition machine (w : World) : Machine := {| world := w; trace := [] |}.

(** The tokens of a plain source text. *)
Definition tokens (s : string) : Outcome (list Token) :=
  Tokenizer_tokenize ascii_ID_Start ascii_ID_Continue (PlainString s).

(** Parse a source text. *)
Definition ast (s : string) : Outcome AstNode :=
  let* ts := tokens s in AstParser.parse ts.

(** [setup(new Rop()).bind(entries).o(source)] in the world [w]. *)
Definition run_after (setup : nat → Run World nat) (w : World)
    (entries : list (string * Value)) (s : string) : Outcome Value * Machine :=
  (do rop <- in_world Rop.constructor;
   do _ <- in_world (setup rop);
   do _ <- in_world (Rop.bindAll rop entries);
   Rop_o ascii_ID_Start ascii_ID_Continue host_call rop (PlainString s)) (machine w).

(** [new Rop().bind(entries).o(source)] in the world [w]. *)
Definition run (w : World) (entries : list (string * Value)) (s : string)
  : Outcome Value * Machine :=
  run_after ret w entries s.

(** [new Rop().overloadDefaults().bind(entries).o(source)] in the world [w];
    an array that results is given by its elements. *)
Definition run_with_defaults (w : World) (entries : list (string * Value)) (s : string)
  : Outcome (list Value) :=
  let r :=
    (do rop <- in_world Rop.constructor;
     do _ <- in_world (Rop.overloadDefaults rop);
     do _ <- in_world (Rop.bindAll rop entries);
     Rop_o ascii_ID_Start ascii_ID_Continue host_call rop (PlainString s)) (machine w) in
  let* v := r.1 in array_elements (heap (world r.2)) v.

(** [Rop.INST.o(source)] in the world [w]. *)
Definition run_default_instance (w : World) (s : string) : Outcome Value * Machine :=
  (do rop <- in_world Rop.INST;
   Rop_o ascii_ID_Start ascii_ID_Continue host_call rop (PlainString s)) (machine w).

End Sample.

(* ================================================================= *)
(** ** Auxiliary notions used to state the properties *)

(** The tokens of the fragments with one embedded token after each. *)
Fixpoint interleave (fragments : list (list Token)) (args : list Value) : list Token :=
  match fragments, args with
  | ts :: fragments', v :: args' => ts ++ EmbeddedToken v :: interleave fragments' args'
  | _, _ => []
  end.

(** The prototype chain of the object at [l]: [l], its prototype, and so on
    up to the object that has none. *)
Inductive proto_chain (h : Heap) : loc → list loc → Prop :=
| chain_root l :
    proto (cell h l) = None → proto_chain h l [l]
| chain_link l l' ls :
    proto (cell h l) = Some l' → proto_chain h l' ls → proto_chain h l (l :: ls).

(** Overload resolution as a rule on the levels of a chain: at each level
    the entry of the overload table first, then a callable property found
    from that object (its own or one it inherits), then the next level; no
    overload, [null], when the levels are exhausted. *)
Fixpoint resolve (table : gmap Value (gmap JsSymbol Value)) (h : Heap)
    (symbol : JsSymbol) (levels : list loc) : Value :=
  match levels with
  | [] => VNull
  | l :: rest =>
      match Rop.registered table (VObject l) symbol with
      | Some fn => if is_nullish fn then VNull else fn
      | None =>
          match Rop.declared h (VObject l) symbol with
          | Some fn => fn
          | None => resolve table h symbol rest
          end
      end
  end.



(** Two worlds agree on an engine of each: the heaps are the same and the
    two engines are in the same state. *)
Definition agree (rop rop' : nat) (w w' : World) : Prop :=
  heap w = heap w' ∧ engines w !! rop = engines w' !! rop'.

(** Two outcomes are the same up to a relation on the results. *)
Definition same_outcome {A} (Q : A → A → Prop) (o o' : Outcome A) : Prop :=
  match o, o' with
  | Ok a, Ok a' => Q a a'
  | Throw e, Throw e' => e = e'
  | _, _ => False
  end.

(** Two computations do the same to worlds that agree on their engines. *)
Definition alike {A} (Q : A → A → Prop) (rop rop' : nat) (m m' : Run World A) : Prop :=
  ∀ w w', agree rop rop' w w' →
          same_outcome Q (m w).1 (m' w').1 ∧ agree rop rop' (m w).2 (m' w').2.

(** A computation leaves alone every engine but [rop], and the static
    field [Rop.instance]. *)
Definition confined {A} (rop : nat) (m : Run World A) : Prop :=
  ∀ w, (∀ e, e ≠ rop → engines (m w).2 !! e = engines w !! e)
       ∧ instance (m w).2 = instance w.

(** The world of a process that has the heap [h] and has created no
    engine yet. *)
Definition pristine (h : Heap) : World :=
  {| heap := h; engines := ∅; instance := None |}.

(** The result is the engine the method was called on. *)
Definition this_engine (rop rop' : nat) (a a' : nat) : Prop := a = rop ∧ a' = rop'.

(** What the getter [Rop.INST] runs on the engine it has constructed. *)
Definition install_defaults (rop : nat) : Run World nat :=
  do _ <- Rop.bindDefaults rop;
  do _ <- Rop.bindMaths rop;
  Rop.overloadDefaults rop.

(** The classes that [overloadDefaults] extends are there: [Array],
    [String] and [Set] own a [prototype] that is an object. *)
Definition realm_ready (h : Heap) : Prop :=
  Forall (λ c, ∃ p, own_property (cell h c) (KString "prototype") = Some (VObject p))
         [Realm.Array; Realm.String; Realm.Set_].

(** [v] is a function object of the heap that [detectFunctionType]
    classifies as [t]. *)
Definition function_of_type (h : Heap) (v : Value) (t : FunctionType) : Prop :=
  ∃ l, v = VObject l ∧ is_Some (h !! l)
       ∧ typeof h v = "function" ∧ detectFunctionType h v = Ok t.

(** A computation that, started in a world where [P] holds, returns
    normally, with a result and in a world where [Q] holds. *)
Definition returns {A} (P : World → Prop) (m : Run World A) (Q : A → World → Prop) : Prop :=
  ∀ w, P w → ∃ a w', m w = (Ok a, w') ∧ Q a w'.

(** Engine [rop] exists, the realm is ready, and the values [fs] are
    functions of the given types. *)
Definition ready (rop : nat) (fs : list (Value * FunctionType)) (w : World) : Prop :=
  realm_ready (heap w) ∧ is_Some (engines w !! rop)
  ∧ Forall (λ '(v, t), function_of_type (heap w) v t) fs.

(** A token that [parseAtom] turns into a node by itself. *)
Inductive Atom :=
| AConstant (literal : string) (value : Value)
| AEmbedded (value : Value)
| AIdentifier (name : string).

Definition atom_token (a : Atom) : Token :=
  match a with
  | AConstant literal value => ConstantToken literal value
  | AEmbedded value => EmbeddedToken value
  | AIdentifier name => IdentifierToken name
  end.

Definition atom_node (a : Atom) : AstNode :=
  match a with
  | AConstant literal value => ValueNode (ConstantToken literal value)
  | AEmbedded value => ValueNode (EmbeddedToken value)
  | AIdentifier name => IdentifierNode name
  end.

(** The operator token of a binary operation, and its precedence. *)
Definition operator_token (op : BinaryOperationName) : Token :=
  OperatorToken (meta_literal (Operations.meta (OpBinary op))).

Definition precedence_of (op : BinaryOperationName) : nat :=
  meta_precedence (Operations.meta (OpBinary op)).

(** Does a colon or a comma stand in a bracket before it closes, outside
    the parentheses and brackets nested in it?  [depth] counts the nested
    ones that are open; [ts] starts after the opening bracket. *)
Fixpoint separated (depth : nat) (ts : list Token) : bool :=
  match ts with
  | [] => false
  | PunctuationToken l :: rest =>
      if bool_decide (l = "(") || bool_decide (l = "[") then separated (S depth) rest
      else if bool_decide (l = ")") || bool_decide (l = "]") then
        match depth with
        | O => false
        | S depth => separated depth rest
        end
      else if bool_decide (l = ",") || bool_decide (l = ":") then
        match depth with
        | O => true
        | S _ => separated depth rest
        end
      else separated depth rest
  | _ :: rest => separated depth rest
  end.

(** The dimension of a plain index, and the one in which nothing is
    defined. *)
Definition only_start (index : AstNode) : NodeSlice AstNode :=
  {| start := Some index; end_ := None; step := None |}.

Definition empty_slice : NodeSlice AstNode :=
  {| start := None; end_ := None; step := None |}.

(** The state of the subscript loop when it starts. *)
Definition no_subscript : AstParser.Subscript :=
  {| AstParser.sub_slices := []; AstParser.isSlicing := false;
     AstParser.elementCount := 0 |}.

(** Two positions of the token cursor between which the brackets are
    balanced and no colon or comma stands outside them; and two positions
    between which one bracket more is closed than opened. *)
Definition passes (ts ts' : list Token) : Prop := ∀ d, separated d ts = separated d ts'.
Definition closes (ts ts' : list Token) : Prop :=
  ∀ d, separated (S d) ts = separated d ts'.

(** The parts of a dimension in which no colon has been read, and the
    dimension they give. *)
Definition plain_parts (slice : list (option AstNode)) (hasExpression : bool) : Prop :=
  if hasExpression then ∃ e, slice = [Some e] else slice = [].
Definition plain_slice (r : option (NodeSlice AstNode)) : Prop :=
  r = None ∨ ∃ index, r = Some (only_start index).

(** What one run of the inner loop of a subscript has done. *)
Definition slice_scanned (slice : list (option AstNode)) (colons : nat)
    (hasExpression flag : bool) (ts : list Token)
    (r : option (NodeSlice AstNode)) (flag' : bool) (ts' : list Token) : Prop :=
  AstParser.peekPunctuation "," ts' || AstParser.peekPunctuation "]" ts' = true
  ∧ (∀ d, separated (S d) ts = separated (S d) ts')
  ∧ ((flag' = true ∧ separated 0 ts = true)
     ∨ (flag' = flag ∧ separated 0 ts = separated 0 ts'
        ∧ (colons = 0%nat → plain_parts slice hasExpression → plain_slice r))).

(** What the outer loop of a subscript has done. *)
Definition subscript_scanned (sub : AstParser.Subscript) (ts : list Token)
    (sub' : AstParser.Subscript) (ts' : list Token) : Prop :=
  closes ts ts'
  ∧ AstParser.isSlicing sub' = AstParser.isSlicing sub || separated 0 ts
  ∧ (AstParser.isSlicing sub' = false →
     ∃ r, plain_slice r
          ∧ AstParser.sub_slices sub' = AstParser.sub_slices sub ++ option_list r
          ∧ AstParser.elementCount sub' =
              (AstParser.elementCount sub + length (option_list r))%nat).

(** The operator token of a unary operation. *)
Definition unary_token (u : UnaryOperationName) : Token :=
  OperatorToken (meta_literal (Operations.meta (OpUnary u))).

(** The braces: punctuation for the tokenizer, nothing for the parser. *)
Definition is_brace (t : Token) : bool :=
  match t with
  | PunctuationToken l => bool_decide (l = "{") || bool_decide (l = "}")
  | _ => false
  end.

Definition braces (ts : list Token) : nat := length (filter (λ t, is_brace t = true) ts).


(** What a regular expression of the tokenizer matches is a piece at the
    start of the text, and never the empty one. *)
Definition matches_prefix (re : string → option string) : Prop :=
  ∀ s m, re s = Some m → (1 ≤ String.length m)%nat ∧ ∃ r, s = m +:+ r.

(** The text that a list of tokens spells. *)
Definition spell (ts : list Token) : string :=
  foldr (λ t s, token_literal t +:+ s) EmptyString ts.

Definition is_whitespace (t : Token) : bool :=
  match t with WhitespaceToken _ => true | _ => false end.

(** The characters that the tokenizer makes punctuation tokens of. *)
Definition punctuation_literals : list string :=
  ["("; ")"; "["; "]"; "{"; "}"; ","; ":"; "."].

(** What a token that the tokenizer makes of a piece of text looks like.
    The value of a constant token is that of its literal: of a string
    literal when the literal opens with a quote, and of a number literal
    otherwise. *)
Definition token_shape (t : Token) : Prop :=
  match t with
  | WhitespaceToken l => re_whitespace l = Some l
  | OperatorToken l =>
      is_Some (Operations.unaryFromLiteral l) ∨ is_Some (Operations.binaryFromLiteral l)
  | PunctuationToken l => l ∈ punctuation_literals
  | ConstantToken l v =>
      match l with
      | String q _ =>
          if bool_decide (q = squote) then v = string_value squote l
          else if bool_decide (q = dquote) then v = string_value dquote l
          else number_value l = Ok v
      | EmptyString => False
      end
  | IdentifierToken l => l ≠ EmptyString
  | EmbeddedToken _ => False
  end.

(** A text without a backslash, and one that has neither a backslash nor
    the character [q]. *)
Definition no_backslash (s : string) : bool :=
  all_chars (λ c, negb (bool_decide (c = backslash))) s.

Definition plain_body (q : ascii) (s : string) : bool :=
  all_chars (λ c, negb (bool_decide (c = q)) && negb (bool_decide (c = backslash))) s.

(** What evaluating the identifier [name] gives on an engine in the state
    [r]. *)
Definition identifier_value (r : RopObject) (name : string) : Outcome Value :=
  match bindings r !! name with
  | Some v => Ok v
  | None => Throw (Error ("Unknown identifier: " +:+ name))
  end.


(** A text of white space only; the empty text is one. *)
Definition blank (s : string) : bool := all_chars is_space s.

(* ================================================================= *)
(** ** TokenWalker (utils/TokenWalker.ts)

    The class that [AstParser] extends.  The position is a host number; it
    is given here for the integers, which is what the parser passes.  An
    array read at an index that is not one of its indices is [undefined],
    which [?? null] turns into [null] ([None] here). *)

Module TokenWalker.

Record TokenWalker := { tokens : list Token; position : Z }.

(** [array[i]] *)
Definition item (ts : list Token) (i : Z) : option Token :=
  if i <? 0 then None else ts !! Z.to_nat i.

Definition size (w : TokenWalker) : Z := Z.of_nat (length (tokens w)).

Definition isFinished (w : TokenWalker) : bool := size w <=? position w.

Definition hasRemaining (w : TokenWalker) : bool := position w <? size w.

(** [this.tokens.slice(this.position)]: a negative start counts from the
    end, and the start is clamped to the array. *)
Definition getRemaining (w : TokenWalker) : list Token :=
  let start := if position w <? 0 then Z.max (size w + position w) 0
               else Z.min (position w) (size w) in
  skipn (Z.to_nat start) (tokens w).

Definition peek (w : TokenWalker) (offset : Z) : option Token :=
  let index := position w + offset in
  if (0 <=? index) && (index <? size w) then item (tokens w) index else None.

(** [next()] *)
Definition next (w : TokenWalker) : option Token * TokenWalker :=
  if position w <? size w then
    (item (tokens w) (position w),
     {| tokens := tokens w; position := position w + 1 |})
  else (None, w).

(** The loop [for (let i = 0; i < count; i++)] of [next(count)], with the
    number of rounds that are left. *)
Fixpoint next_loop (rounds : nat) (w : TokenWalker) (result : list Token)
  : list Token * TokenWalker :=
  match rounds with
  | O => (result, w)
  | S rounds =>
      if position w <? size w then
        let token := item (tokens w) (position w) in
        let w' := {| tokens := tokens w; position := position w + 1 |} in
        next_loop rounds w' (match token with
                             | Some t => result ++ [t]
                             | None => result
                             end)
      else (result, w)
  end.

(** [next(count)] *)
Definition next_count (w : TokenWalker) (count : Z)
  : option (list Token) * TokenWalker :=
  let (result, w') := next_loop (Z.to_nat count) w [] in
  (match result with [] => None | _ => Some result end, w').

Definition consume (w : TokenWalker) (count : Z) : TokenWalker :=
  {| tokens := tokens w; position := Z.min (position w + count) (size w) |}.

Definition skip (w : TokenWalker) (count : Z) : TokenWalker :=
  {| tokens := tokens w; position := Z.min (position w + count) (size w) |}.

(** The position is one of the array, or its end. *)
Definition within (w : TokenWalker) : Prop := 0 ≤ position w ≤ size w.

End TokenWalker.

(** Two worlds with the same engines, each with the bindings and the
    overload table it had, and the same default instance. *)
Definition same_engines (w w' : World) : Prop :=
  engines w' = engines w ∧ instance w' = instance w.

(** A computation whose final state is related to its initial state,
    whether it returns or throws. *)
Definition keeps {S A} (R : S → S → Prop) (m : Run S A) : Prop :=
  ∀ s, R s (m s).2.

(** The two kinds of brackets that the parser reads. *)
Inductive Bracket := Round | Square.

(** Reading the brackets of a token list from left to right, with the
    brackets that are open, the innermost first: [None] when a closing
    bracket does not close the innermost open one. *)
Fixpoint nesting (open : list Bracket) (ts : list Token) : option (list Bracket) :=
  match ts with
  | [] => Some open
  | PunctuationToken l :: rest =>
      if bool_decide (l = "(") then nesting (Round :: open) rest
      else if bool_decide (l = "[") then nesting (Square :: open) rest
      else if bool_decide (l = ")") then
        match open with
        | Round :: open' => nesting open' rest
        | _ => None
        end
      else if bool_decide (l = "]") then
        match open with
        | Square :: open' => nesting open' rest
        | _ => None
        end
      else nesting open rest
  | _ :: rest => nesting open rest
  end.

(** What may follow an operand: a member access, an invocation (here with
    one argument) or a subscript (here an index), the tokens of each and the
    node it makes of the operand. *)
Inductive Postfix :=
| PMember (name : string)
| PCall (argument : Atom)
| PIndex (index : Atom).

Definition postfix_tokens (p : Postfix) : list Token :=
  match p with
  | PMember name => [PunctuationToken "."; IdentifierToken name]
  | PCall argument => [PunctuationToken "("; atom_token argument; PunctuationToken ")"]
  | PIndex index => [PunctuationToken "["; atom_token index; PunctuationToken "]"]
  end.

Definition postfix_node (target : AstNode) (p : Postfix) : AstNode :=
  match p with
  | PMember name => AccessPropertyNode target name
  | PCall argument => InvokeNode target [atom_node argument]
  | PIndex index => IndexingNode target (atom_node index)
  end.

(** Tokenizing a plain text and parsing its tokens. *)
Definition read (ID_Start ID_Continue : ascii → bool) (s : string) : Outcome AstNode :=
  let* tokens := Tokenizer_tokenize ID_Start ID_Continue (PlainString s) in
  AstParser.parse tokens.

(* ================================================================= *)
(** * Properties *)

(* ================================================================= *)
(** ** Tokenizer *)

Example tokenize_plain :
  Sample.tokens "arr[1:-2:2] >= 'a' ** 3.5e2 + 12n" =
  Ok [IdentifierToken "arr"; PunctuationToken "["; ConstantToken "1" (VInt 1);
      PunctuationToken ":"; OperatorToken "-"; ConstantToken "2" (VInt 2);
      PunctuationToken ":"; ConstantToken "2" (VInt 2); PunctuationToken "]";
      OperatorToken ">="; ConstantToken "'a'" (VString "a");
      OperatorToken "**"; ConstantToken "3.5e2" (VInt 350);
      OperatorToken "+"; ConstantToken "12n" (VBigInt 12)].
Proof. vm_compute. reflexivity. Qed.

(** The class object has no member called [interpolation]. *)
Lemma TokenFactory_has_no_interpolation :
  get_static TokenFactory_statics "interpolation" = None.
Proof. reflexivity. Qed.

Section TokenizerFacts.

Variables ID_Start ID_Continue : ascii → bool.
Variable factory : list (string * StaticMethod).

Local Abbreviation tokenize_args := (Tokenizer.tokenize_args ID_Start ID_Continue factory).
Local Abbreviation instance_tokenize := (Tokenizer.instance_tokenize ID_Start ID_Continue factory).
Local Abbreviation tokenize := (Tokenizer.tokenize ID_Start ID_Continue factory).

(** With a class object that lacks [interpolation], the first round of the
    loop over the embedded values throws: the error of the first fragment,
    or the [TypeError] of the call. *)
Lemma tokenize_args_throws raw i arg rest tokens :
  get_static factory "interpolation" = None →
  ∃ e, tokenize_args raw i (arg :: rest) tokens = Throw e.
Proof.
  intros Hmissing. simpl.
  destruct (raw !! i) as [s|]; simpl; [|eauto].
  destruct (instance_tokenize s) as [ts|e]; simpl; [|eauto].
  unfold call_static. rewrite Hmissing. simpl. eauto.
Qed.

(** With a class object that answers [interpolation] with the constructor
    of embedded tokens, the loop yields the tokens of the fragments with one
    embedded token after each, carrying the value unchanged. *)
Lemma tokenize_args_interleaves raw args : ∀ i fragments tokens,
  get_static factory "interpolation" = Some (OfValue TokenFactory.embeddedValue) →
  length fragments = length args →
  (∀ k ts, fragments !! k = Some ts →
           ∃ s, raw !! (i + k)%nat = Some s ∧ instance_tokenize s = Ok ts) →
  tokenize_args raw i args tokens = Ok (tokens ++ interleave fragments args).
Proof.
  induction args as [|v args IH]; intros i fragments tokens Hm Hlen Hfr.
  - destruct fragments; [|done]. simpl. by rewrite app_nil_r.
  - destruct fragments as [|ts fragments]; [done|]. simpl.
    destruct (Hfr 0%nat ts eq_refl) as (s & Hs & Hts).
    rewrite Nat.add_0_r in Hs. rewrite Hs. simpl. rewrite Hts. simpl.
    unfold call_static. rewrite Hm. simpl.
    rewrite (IH (S i) fragments); [| done | by simplify_eq/= |].
    + by rewrite <- !app_assoc.
    + intros k ts' Hk. destruct (Hfr (S k) ts' Hk) as (s' & Hs' & Hts').
      exists s'. split; [|done].
      by replace (S i + k)%nat with (i + S k)%nat by lia.
Qed.

End TokenizerFacts.

(** Tokenizing a template that embeds a value never succeeds. *)
Lemma tokenize_with_embedded_value_throws ID_Start ID_Continue raw arg args :
  ∃ e, Tokenizer_tokenize ID_Start ID_Continue (Template raw (arg :: args)) = Throw e.
Proof.
  unfold Tokenizer_tokenize, Tokenizer.tokenize.
  destruct (tokenize_args_throws ID_Start ID_Continue TokenFactory_statics
              raw 0 arg args [] TokenFactory_has_no_interpolation) as [e He].
  rewrite He. simpl. eauto.
Qed.

(** C1 (the code departs from the claim).  The tagged template with the
    two empty fragments around the one embedded value 2, the input of the
    first tokenizer test, does not tokenize to the embedded token carrying
    2: the static [tokenize] calls [TokenFactory.interpolation], a member the
    class [TokenFactory] does not declare, and the call throws a
    [TypeError]. *)
Theorem C1_embedded_value_is_not_tokenized :
  Tokenizer_tokenize ascii_ID_Start ascii_ID_Continue
    (Template [EmptyString; EmptyString] [VInt 2])
  = Throw (TypeError "interpolation is not a function")
  ∧ Ok [TokenFactory.embeddedValue (VInt 2)]
    ≠ Tokenizer_tokenize ascii_ID_Start ascii_ID_Continue
        (Template [EmptyString; EmptyString] [VInt 2]).
Proof. split; [vm_compute; reflexivity | vm_compute; discriminate]. Qed.

(* ================================================================= *)
(** ** Evaluation of binary nodes *)

Arguments Operations.meta : simpl never.

(** The embedded-value node of a value. *)
Local Abbreviation embedded v := (ValueNode (EmbeddedToken v)).

Section EvaluaterFacts.

Variable host_call : nat → Value → list Value → Run World Value.
Variable rop : nat.

Local Abbreviation evaluateNode := (Evaluater.evaluateNode host_call rop).
Local Abbreviation lookup := (Rop.getOverloadOnInstance rop).

(** Overload lookup reads the world and leaves it as it is. *)
Lemma getOverloadOnInstance_reads v symbol w :
  (lookup v symbol w).2 = w.
Proof.
  unfold Rop.getOverloadOnInstance, Rop.getOverloadFromPrototypeChain,
    Rop.this, bind, reads, lift.
  by destruct (engines w !! rop).
Qed.

Lemma getOverloadOnInstance_eq v symbol w :
  lookup v symbol w = ((lookup v symbol w).1, w).
Proof.
  rewrite <- (getOverloadOnInstance_reads v symbol w) at 3.
  by destruct (lookup v symbol w).
Qed.

(** A binary node is evaluated strictly: the left operand, then the right
    operand in the state the left one leaves, then the operation on the two
    values. *)
Lemma evaluateBinaryNode_strict left_ op right_ s :
  evaluateNode (BinaryNode left_ op right_) s =
  match evaluateNode left_ s with
  | (Throw e, s1) => (Throw e, s1)
  | (Ok leftValue, s1) =>
      match evaluateNode right_ s1 with
      | (Throw e, s2) => (Throw e, s2)
      | (Ok rightValue, s2) =>
          evaluateNode (BinaryNode (embedded leftValue) op (embedded rightValue)) s2
      end
  end.
Proof.
  simpl. unfold Evaluater.evaluateBinaryNode at 1, bind at 1.
  destruct (evaluateNode left_ s) as [[leftValue|e] s1]; [|done].
  unfold bind at 1.
  by destruct (evaluateNode right_ s1) as [[rightValue|e] s2].
Qed.

(** The operation on two values: the overload found from the left value,
    else the overload found from the right value with the operands swapped,
    else the native closure; whichever is taken is invoked once, and that is
    all the evaluation records. *)
Lemma evaluateBinaryNode_dispatch op leftValue rightValue s :
  let symbol := Operations.symbol (OpBinary op) in
  let w := world s in
  let h := heap w in
  let finish (e : Event) (r : Outcome Value * World) :=
    (r.1, {| world := r.2; trace := trace s ++ [e] |}) in
  evaluateNode (BinaryNode (embedded leftValue) op (embedded rightValue)) s =
  match (lookup leftValue symbol w).1 with
  | Throw e => (Throw e, s)
  | Ok leftOverload =>
      if bool_decide (typeof h leftOverload = "function") then
        finish (Called leftOverload leftValue [rightValue])
               (call_function host_call leftOverload leftValue [rightValue] w)
      else
        match (lookup rightValue symbol w).1 with
        | Throw e => (Throw e, s)
        | Ok rightOverload =>
            if bool_decide (typeof h rightOverload = "function") then
              finish (Called rightOverload rightValue [leftValue])
                     (call_function host_call rightOverload rightValue [leftValue] w)
            else
              finish (Native (OpBinary op) leftValue rightValue)
                     (native_binary op leftValue rightValue, w)
        end
  end.
Proof.
  intros symbol w h finish. destruct s as [w0 t]. subst w h finish.
  cbn [Evaluater.evaluateNode world trace].
  assert (Hbin : meta_type (Operations.meta (OpBinary op)) = binary) by by destruct op.
  assert (Hnat : meta_native (Operations.meta (OpBinary op)) = native_binary op)
    by by destruct op.
  assert (Hsym : meta_symbol (Operations.meta (OpBinary op)) = symbol) by done.
  unfold Evaluater.evaluateBinaryNode, Evaluater.native.
  rewrite Hbin, Hsym, Hnat. simpl negb. cbv iota.
  unfold bind, ret, in_world, Evaluater.is_function, reads, Evaluater.invoke,
    record, modify, lift, bind. simpl.
  rewrite (getOverloadOnInstance_eq leftValue symbol w0).
  destruct (lookup leftValue symbol w0).1 as [leftOverload|e]; [|done].
  simpl. case_bool_decide.
  - unfold in_world. simpl. by destruct (call_function _ _ _ _ _).
  - cbn [world trace]. rewrite (getOverloadOnInstance_eq rightValue symbol w0).
    destruct (lookup rightValue symbol w0).1 as [rightOverload|e]; [|done].
    simpl. case_bool_decide; [|done].
    unfold in_world. simpl. by destruct (call_function _ _ _ _ _).
Qed.

End EvaluaterFacts.

(** C2 (counterexample).  In [false && f()] and in [true || f()] the left
    operand is falsy, respectively truthy, and the right operand is evaluated
    all the same: the function bound to [f] is called (it is the first
    invocation recorded, before the native closure of the operator), and its
    side effect on the counter object is there afterwards. *)
Lemma C2_right_operand_is_evaluated :
  let bindings := [("false", VBoolean false); ("true", VBoolean true);
                   ("f", VObject Sample.tick_fn)] in
  let hits (r : Outcome Value * Machine) :=
    get_property (heap (world r.2)) (VObject Sample.counter) (VString "hits") in
  let conj_ := Sample.run Sample.world0 bindings "false && f()" in
  let disj := Sample.run Sample.world0 bindings "true || f()" in
  ToBoolean (VBoolean false) = Ok false
  ∧ conj_.1 = Ok (VBoolean false)
  ∧ trace conj_.2 = [Called (VObject Sample.tick_fn) VUndefined [];
                     Native (OpBinary B_land) (VBoolean false) (VBoolean true)]
  ∧ hits conj_ = Ok (VInt 1)
  ∧ ToBoolean (VBoolean true) = Ok true
  ∧ disj.1 = Ok (VBoolean true)
  ∧ trace disj.2 = [Called (VObject Sample.tick_fn) VUndefined [];
                    Native (OpBinary B_lor) (VBoolean true) (VBoolean true)]
  ∧ hits disj = Ok (VInt 1).
Proof. vm_compute. repeat split; reflexivity. Qed.

(** C2 (amended).  A binary node, [&&] and [||] included, evaluates both
    operands, the left one and then the right one, whatever the left value
    is: an exception of the right operand is the outcome of the node, and
    otherwise the operation is applied to the two values in the state the
    right operand leaves.  The native closures of [&&] and [||] then select:
    [&&] yields the left value when it is falsy and the right value
    otherwise, [||] the left value when it is truthy and the right value
    otherwise. *)
Theorem C2_logical_operators_evaluate_both_operands
    host_call rop left_ op right_ s leftValue s1 r s2 :
  Evaluater.evaluateNode host_call rop left_ s = (Ok leftValue, s1) →
  Evaluater.evaluateNode host_call rop right_ s1 = (r, s2) →
  Evaluater.evaluateNode host_call rop (BinaryNode left_ op right_) s =
    match r with
    | Throw e => (Throw e, s2)
    | Ok rightValue =>
        Evaluater.evaluateNode host_call rop
          (BinaryNode (embedded leftValue) op (embedded rightValue)) s2
    end
  ∧ (∀ rightValue,
       meta_native (Operations.meta (OpBinary B_land)) leftValue rightValue =
         (let* b := ToBoolean leftValue in Ok (if b then rightValue else leftValue))
       ∧ meta_native (Operations.meta (OpBinary B_lor)) leftValue rightValue =
         (let* b := ToBoolean leftValue in Ok (if b then leftValue else rightValue))).
Proof.
  intros Hleft Hright. split; [|done].
  rewrite evaluateBinaryNode_strict, Hleft, Hright. by destruct r.
Qed.

Lemma C2_logical_operators_witness :
  let host_call := Sample.host_call in
  let s := (Sample.run Sample.world0
              [("false", VBoolean false); ("f", VObject Sample.tick_fn)] "0").2 in
  let left_ := IdentifierNode "false" in
  let right_ := InvokeNode (IdentifierNode "f") [] in
  let s2 := (Evaluater.evaluateNode host_call 0 right_ s).2 in
  Evaluater.evaluateNode host_call 0 left_ s = (Ok (VBoolean false), s)
  ∧ Evaluater.evaluateNode host_call 0 right_ s = (Ok (VBoolean true), s2)
  ∧ Evaluater.evaluateNode host_call 0 (BinaryNode left_ B_land right_) s =
      Evaluater.evaluateNode host_call 0
        (BinaryNode (embedded (VBoolean false)) B_land (embedded (VBoolean true))) s2.
Proof.
  intros host_call s left_ right_ s2.
  assert (Hleft : Evaluater.evaluateNode host_call 0 left_ s = (Ok (VBoolean false), s))
    by (vm_compute; reflexivity).
  assert (Hright : Evaluater.evaluateNode host_call 0 right_ s = (Ok (VBoolean true), s2))
    by (vm_compute; reflexivity).
  split; [exact Hleft|]. split; [exact Hright|].
  exact (proj1 (C2_logical_operators_evaluate_both_operands
                  host_call 0 left_ B_land right_ s _ s _ s2 Hleft Hright)).
Defined.

(** C3 (the code departs from the claim).  With [undefined] as an operand,
    none of the three alternatives is invoked: the lookup of an overload
    throws the [TypeError] of [Object.getPrototypeOf(undefined)], on the left
    operand in [undefined === 1] and on the right operand in
    [1 === undefined], and nothing is recorded; the native closure, had it
    been invoked with the two values, returns [false]. *)
Theorem C3_undefined_operand_reaches_no_alternative :
  let left_undefined := Sample.run_default_instance Sample.world0 "undefined === 1" in
  let right_undefined := Sample.run_default_instance Sample.world0 "1 === undefined" in
  left_undefined.1 = Throw (TypeError "Cannot convert undefined or null to object")
  ∧ trace left_undefined.2 = []
  ∧ right_undefined.1 = Throw (TypeError "Cannot convert undefined or null to object")
  ∧ trace right_undefined.2 = []
  ∧ meta_native (Operations.meta (OpBinary B_seq)) VUndefined (VInt 1) = Ok (VBoolean false)
  ∧ meta_native (Operations.meta (OpBinary B_seq)) (VInt 1) VUndefined = Ok (VBoolean false).
Proof. vm_compute. repeat split; reflexivity. Qed.

(* ================================================================= *)
(** ** Invocation *)

(** Arguments are evaluated from left to right, each in the state the
    previous one leaves; the first exception ends the evaluation. *)
Lemma mapM_cons {S A B} (f : A → Run S B) x rest s :
  mapM f (x :: rest) s =
  match f x s with
  | (Throw e, s1) => (Throw e, s1)
  | (Ok y, s1) =>
      match mapM f rest s1 with
      | (Throw e, s2) => (Throw e, s2)
      | (Ok ys, s2) => (Ok (y :: ys), s2)
      end
  end.
Proof.
  simpl. unfold bind at 1. destruct (f x s) as [[y|e] s1]; [|done].
  unfold bind. by destruct (mapM f rest s1) as [[ys|e] s2].
Qed.

(** C10.  An Invoke node evaluates the callee, then the arguments in order,
    and calls the callee with the evaluated arguments and no receiver:
    [this] is [undefined] in the call, also when the callee node is a
    property access [obj.m], whose object is not passed on.  The call is the
    one invocation the node records. *)
Theorem C10_invoke_calls_without_receiver
    host_call rop target args s f s1 values s2 :
  Evaluater.evaluateNode host_call rop target s = (Ok f, s1) →
  mapM (Evaluater.evaluateNode host_call rop) args s1 = (Ok values, s2) →
  typeof (heap (world s2)) f = "function" →
  Evaluater.evaluateNode host_call rop (InvokeNode target args) s =
    ((call_function host_call f VUndefined values (world s2)).1,
     {| world := (call_function host_call f VUndefined values (world s2)).2;
        trace := trace s2 ++ [Called f VUndefined values] |}).
Proof.
  intros Htarget Hargs Hfn. simpl. unfold Evaluater.evaluateInvokeNode.
  unfold bind at 1. rewrite Htarget. unfold bind at 1. rewrite Hargs.
  unfold bind, Evaluater.is_function, reads. simpl.
  rewrite bool_decide_eq_true_2 by done. simpl.
  unfold Evaluater.invoke, bind, record, modify, in_world. simpl.
  by destruct (call_function _ _ _ _ _).
Qed.

(** In [obj.m(7)], where [obj.m] is the function that returns its
    receiver, the call returns [undefined], not [obj]. *)
Lemma C10_invoke_witness :
  let host_call := Sample.host_call in
  let s := (Sample.run Sample.world0 [("obj", VObject Sample.holder)] "0").2 in
  let target := AccessPropertyNode (IdentifierNode "obj") "m" in
  let args := [ValueNode (ConstantToken "7" (VInt 7))] in
  let f := VObject Sample.this_fn in
  Evaluater.evaluateNode host_call 0 target s = (Ok f, s)
  ∧ mapM (Evaluater.evaluateNode host_call 0) args s = (Ok [VInt 7], s)
  ∧ typeof (heap (world s)) f = "function"
  ∧ Evaluater.evaluateNode host_call 0 (InvokeNode target args) s =
      (Ok VUndefined,
       {| world := world s; trace := trace s ++ [Called f VUndefined [VInt 7]] |}).
Proof.
  intros host_call s target args f.
  assert (H1 : Evaluater.evaluateNode host_call 0 target s = (Ok f, s))
    by (vm_compute; reflexivity).
  assert (H2 : mapM (Evaluater.evaluateNode host_call 0) args s = (Ok [VInt 7], s))
    by (vm_compute; reflexivity).
  assert (H3 : typeof (heap (world s)) f = "function") by (vm_compute; reflexivity).
  split; [exact H1|]. split; [exact H2|]. split; [exact H3|].
  rewrite (C10_invoke_calls_without_receiver host_call 0 target args s f s [VInt 7] s
             H1 H2 H3).
  vm_compute. reflexivity.
Defined.

(* ================================================================= *)
(** ** Slicing a target that has no overload *)

(** C5 (counterexample).  [obj[:]], on the plain object
    [{ m: receiver, undefined: 42 }] that has no overload for the slicing
    tag, parses to a Slicing node with one dimension in which nothing is
    defined, and its evaluation does not fail: it reads [obj[undefined]] and
    returns 42. *)
Lemma C5_empty_dimension_is_accepted :
  Sample.ast "obj[:]" =
    Ok (SlicingNode (IdentifierNode "obj")
          [{| start := None; end_ := None; step := None |}])
  ∧ (Sample.run Sample.world0 [("obj", VObject Sample.holder)] "obj[:]").1 = Ok (VInt 42)
  ∧ (Rop.getOverloadOnInstance 0 (VObject Sample.holder) (Operations.symbol OpSlicing)
       (world (Sample.run Sample.world0 [("obj", VObject Sample.holder)] "0").2)).1
    = Ok VNull.
Proof. vm_compute. repeat split; reflexivity. Qed.

(** C5 (amended).  When the evaluated target has no overload for the slicing
    tag, a Slicing node is evaluated as follows.  With a number of
    dimensions other than one it fails with "Target does not support
    slicing".  With one dimension in which [end] or [step] is defined it
    fails with "Target does not support slicing with end or step".  With one
    dimension in which neither is defined it degenerates to the single
    property access [target[start]], where an absent [start] reads as
    [undefined]; it succeeds exactly when the evaluation of [start] and
    that access do. *)
Theorem C5_slicing_without_overload host_call rop target slices s t s1 fn :
  Evaluater.evaluateNode host_call rop target s = (Ok t, s1) →
  (Rop.getOverloadOnInstance rop t (Operations.symbol OpSlicing) (world s1)).1 = Ok fn →
  typeof (heap (world s1)) fn ≠ "function" →
  Evaluater.evaluateNode host_call rop (SlicingNode target slices) s =
    match slices with
    | [slice] =>
        match end_ slice, step slice with
        | None, None =>
            match start slice with
            | None => (get_property (heap (world s1)) t VUndefined, s1)
            | Some node =>
                match Evaluater.evaluateNode host_call rop node s1 with
                | (Ok v, s2) => (get_property (heap (world s2)) t v, s2)
                | (Throw e, s2) => (Throw e, s2)
                end
            end
        | _, _ => (Throw (Error "Target does not support slicing with end or step"), s1)
        end
    | _ => (Throw (Error "Target does not support slicing"), s1)
    end.
Proof.
  intros Htarget Hlookup Hfn. simpl. unfold Evaluater.evaluateSlicingNode.
  unfold bind at 1. rewrite Htarget. unfold bind at 1, in_world at 1.
  rewrite getOverloadOnInstance_eq, Hlookup.
  destruct s1 as [w1 t1]. simpl in *.
  unfold bind at 1, Evaluater.is_function, reads. simpl.
  rewrite bool_decide_eq_false_2 by done. simpl.
  destruct slices as [|slice [|? ?]]; [done| |done].
  destruct slice as [[node|] [e|] [st|]]; simpl; try done.
  - unfold Evaluater.calculateSlice, bind, ret, lift. simpl.
    by destruct (Evaluater.evaluateNode host_call rop node _) as [[v|err] s2].
Qed.

Lemma C5_slicing_without_overload_witness :
  let host_call := Sample.host_call in
  let s := (Sample.run Sample.world0 [("obj", VObject Sample.holder)] "0").2 in
  let target := IdentifierNode "obj" in
  let one := ValueNode (ConstantToken "'m'" (VString "m")) in
  let t := VObject Sample.holder in
  Evaluater.evaluateNode host_call 0 target s = (Ok t, s)
  ∧ (Rop.getOverloadOnInstance 0 t (Operations.symbol OpSlicing) (world s)).1 = Ok VNull
  ∧ typeof (heap (world s)) VNull ≠ "function"
  ∧ Evaluater.evaluateNode host_call 0
      (SlicingNode target [{| start := Some one; end_ := None; step := None |}]) s
    = (Ok (VObject Sample.this_fn), s)
  ∧ Evaluater.evaluateNode host_call 0
      (SlicingNode target [{| start := Some one; end_ := Some one; step := None |}]) s
    = (Throw (Error "Target does not support slicing with end or step"), s)
  ∧ Evaluater.evaluateNode host_call 0 (SlicingNode target []) s
    = (Throw (Error "Target does not support slicing"), s).
Proof.
  intros host_call s target one t.
  assert (H1 : Evaluater.evaluateNode host_call 0 target s = (Ok t, s))
    by (vm_compute; reflexivity).
  assert (H2 : (Rop.getOverloadOnInstance 0 t (Operations.symbol OpSlicing)
                  (world s)).1 = Ok VNull) by (vm_compute; reflexivity).
  assert (H3 : typeof (heap (world s)) VNull ≠ "function") by (vm_compute; discriminate).
  split; [exact H1|]. split; [exact H2|]. split; [exact H3|].
  rewrite !(C5_slicing_without_overload host_call 0 target _ s t s VNull H1 H2 H3).
  vm_compute. repeat split; reflexivity.
Defined.

(* ================================================================= *)
(** ** The default slice overload of arrays *)





(** *** The closure that [overloadDefaults] installs for ['[:]'] *)










(** The slices of the test suite, through the whole pipeline. *)
Example slice_scenarios :
  let arr := [("arr", VObject Sample.array8)] in
  Sample.run_with_defaults Sample.world0 arr "arr[::-1]"
    = Ok (VInt <$> [8; 7; 6; 5; 4; 3; 2; 1])
  ∧ Sample.run_with_defaults Sample.world0 arr "arr[1:-2:2]" = Ok (VInt <$> [2; 4; 6])
  ∧ Sample.run_with_defaults Sample.world0 arr "arr[5::-1]"
    = Ok (VInt <$> [6; 5; 4; 3; 2; 1])
  ∧ Sample.run_with_defaults Sample.world0 arr "arr[:-1:-1]" = Ok []
  ∧ Sample.run_with_defaults Sample.world0 arr "arr[-2:]" = Ok (VInt <$> [7; 8])
  ∧ Sample.run_with_defaults Sample.world0 arr "arr[::0]"
    = Throw (Error "Slice step cannot be zero")
  ∧ Sample.run_with_defaults Sample.world0 arr "arr[:, :]"
    = Throw (Error "Multi slice is not supported").
Proof. vm_compute. repeat split; reflexivity. Qed.

(* ================================================================= *)
(** ** Overload resolution *)

Section Chains.

Variable h : Heap.

Lemma proto_chain_deterministic l ls ls' :
  proto_chain h l ls → proto_chain h l ls' → ls = ls'.
Proof.
  intros Hc. revert ls'. induction Hc as [l Hl|l l' ls Hl Hc IH]; intros ls' Hc'.
  - inversion Hc'; subst; [done|congruence].
  - inversion Hc' as [? Hl'|? l'' ls'' Hl' Hc'']; subst; [congruence|].
    assert (l' = l'') as <- by congruence. f_equal. by apply IH.
Qed.

(** Every object on a chain has its own chain, a suffix of the former. *)
Lemma proto_chain_suffix l ls l' :
  proto_chain h l ls → l' ∈ ls →
  ∃ ls', proto_chain h l' ls' ∧ (length ls' ≤ length ls)%nat.
Proof.
  intros Hc. induction Hc as [l Hl|l l1 ls Hl Hc IH]; intros Hin.
  - apply list_elem_of_singleton in Hin as ->. exists [l]. split; [by constructor|done].
  - apply elem_of_cons in Hin as [->|Hin].
    + exists (l :: ls). split; [by econstructor|done].
    + destruct (IH Hin) as (ls' & Hc' & Hlen). exists ls'. split; [done|simpl; lia].
Qed.

(** A chain visits no object twice. *)
Lemma proto_chain_NoDup l ls : proto_chain h l ls → NoDup ls.
Proof.
  induction 1 as [l Hl|l l' ls Hl Hc IH].
  - apply NoDup_singleton.
  - constructor; [|done]. intros Hin.
    destruct (proto_chain_suffix l' ls l Hc Hin) as (ls' & Hc' & Hlen).
    assert (ls' = l :: ls) as -> by (eapply proto_chain_deterministic; [done|by econstructor]).
    simpl in Hlen. lia.
Qed.

(** All objects of a chain but the last have a cell in the heap. *)
Lemma proto_chain_in_heap l ls :
  proto_chain h l ls → ∀ l', l' ∈ removelast ls → l' ∈ dom h.
Proof.
  induction 1 as [l Hl|l l' ls Hl Hc IH]; intros l0 Hin.
  - simpl in Hin. by apply elem_of_nil in Hin.
  - assert (ls ≠ []) by (inversion Hc; done).
    destruct ls as [|x ls]; [done|]. simpl in Hin.
    apply elem_of_cons in Hin as [->|Hin].
    + apply elem_of_dom. unfold cell in Hl.
      destruct (h !! l) eqn:E; [eauto|]. simpl in Hl. done.
    + by apply IH.
Qed.

(** No chain is longer than the fuel of the lookups. *)
Lemma proto_chain_length l ls :
  proto_chain h l ls → (length ls ≤ chain_fuel h)%nat.
Proof.
  intros Hc. unfold chain_fuel.
  assert (Hne : ls ≠ []) by (inversion Hc; done).
  assert (Hlen : length ls = S (length (removelast ls))).
  { pose proof (app_removelast_last 0%nat Hne) as E.
    apply (f_equal length) in E. rewrite length_app in E. simpl in E.
    rewrite Nat.add_1_r in E. exact E. }
  rewrite Hlen. apply le_n_S.
  assert (Hnd : NoDup (removelast ls)).
  { pose proof (proto_chain_NoDup l ls Hc) as Hnd.
    rewrite (app_removelast_last 0%nat Hne) in Hnd. by apply NoDup_app in Hnd as [? _]. }
  rewrite <- (size_list_to_set (C := gset loc) _ Hnd).
  rewrite <- (size_dom (D := gset loc) h).
  apply subseteq_size. intros x Hx. apply elem_of_list_to_set in Hx.
  by eapply proto_chain_in_heap.
Qed.

Variable table : gmap Value (gmap JsSymbol Value).
Variable symbol : JsSymbol.

(** The walk from an object, given enough fuel, follows the rule [resolve]
    on the chain of the object. *)
Lemma walk_resolves l ls :
  proto_chain h l ls → ∀ fuel, (length ls < fuel)%nat →
  Rop.walk fuel table h (VObject l) symbol = Ok (resolve table h symbol ls).
Proof.
  induction 1 as [l Hl|l l' ls Hl Hc IH]; intros [|fuel] Hfuel; simpl in Hfuel; try lia.
  - cbn [Rop.walk resolve]. rewrite bool_decide_eq_false_2 by done.
    destruct (Rop.registered table (VObject l) symbol); [done|].
    destruct (Rop.declared h (VObject l) symbol); [done|].
    cbn [getPrototypeOf]. rewrite Hl. cbn [of_proto obind].
    destruct fuel; [lia|]. done.
  - cbn [Rop.walk resolve]. rewrite bool_decide_eq_false_2 by done.
    destruct (Rop.registered table (VObject l) symbol); [done|].
    destruct (Rop.declared h (VObject l) symbol); [done|].
    cbn [getPrototypeOf]. rewrite Hl. cbn [of_proto obind].
    apply IH. lia.
Qed.

(** The level of a primitive: the entry of the table under the primitive
    itself; failing that the walk goes on from its prototype object. *)
Lemma walk_primitive v fuel :
  match v with VObject _ | VNull => False | _ => True end →
  Rop.walk (S fuel) table h v symbol =
    match Rop.registered table v symbol with
    | Some fn => Ok (if is_nullish fn then VNull else fn)
    | None => let* p := getPrototypeOf h v in Rop.walk fuel table h p symbol
    end.
Proof.
  intros Hv. cbn [Rop.walk]. rewrite bool_decide_eq_false_2 by by destruct v.
  destruct (Rop.registered table v symbol); [done|]. by destruct v.
Qed.

End Chains.

(** C4 (counterexample).  The class [Vec2] declares [+] on its prototype,
    and the engine has another function registered for [Vec2] and [+].  For
    the instance [vec], whose nearest prototype is [Vec2.prototype], the
    resolution returns the method the instance inherits from
    [Vec2.prototype], not the entry of the engine's table for
    [Vec2.prototype]; [vec + vec] runs the inherited method. *)
Lemma C4_inherited_property_wins_over_table_entry :
  let plus := Operations.symbol (OpBinary B_add) in
  let register rop :=
    Rop.overload rop (VObject Sample.Vec2) (ByName "+") (VObject Sample.registered_plus) in
  let run := Sample.run_after register Sample.world0 [("v", VObject Sample.vec)] "v + v" in
  let w := world run.2 in
  proto (cell (heap w) Sample.vec) = Some Sample.Vec2_prototype
  ∧ own_property (cell (heap w) Sample.vec) (KSymbol plus) = None
  ∧ own_property (cell (heap w) Sample.Vec2_prototype) (KSymbol plus)
    = Some (VObject Sample.declared_plus)
  ∧ (overloadings <$> engines w !! 0%nat) ≫=
      (λ table, Rop.registered table (VObject Sample.Vec2_prototype) plus)
    = Some (VObject Sample.registered_plus)
  ∧ (Rop.getOverloadOnInstance 0 (VObject Sample.vec) plus w).1
    = Ok (VObject Sample.declared_plus)
  ∧ run.1 = Ok (VString "declared on the class")
  ∧ trace run.2 = [Called (VObject Sample.declared_plus) (VObject Sample.vec)
                     [VObject Sample.vec]].
Proof. vm_compute. repeat split; reflexivity. Qed.

(** C4 (amended).  To resolve the overload of an operation tag for a value,
    the engine examines the value itself and then the objects of its
    prototype chain, from the nearest upward.  At each level it first takes
    the entry of its overload table for that level and the tag; failing
    that, when the level is an object (not a function), it takes the
    property the object has under the tag, be it the object's own or
    inherited from a higher prototype, provided the property is callable;
    failing that, it goes on with the next level.  When the chain ends
    without a hit the result is no overload ([null]).  A primitive value is
    a level too, at which the table alone is consulted, under the primitive
    itself as the key; the walk goes on from the prototype object of its
    type.  [null] has no level at all.  Hence a callable property that an
    object inherits from a higher prototype wins over an entry of the table
    registered on that higher prototype. *)
Theorem C4_overload_resolution rop w r symbol l ls :
  engines w !! rop = Some r →
  proto_chain (heap w) l ls →
  let table := overloadings r in
  let h := heap w in
  Rop.getOverloadOnInstance rop (VObject l) symbol w
    = (Ok (resolve table h symbol ls), w)
  ∧ (∀ v, match v with VObject _ | VNull | VUndefined => False | _ => True end →
          getPrototypeOf h v = Ok (VObject l) →
          Rop.getOverloadOnInstance rop v symbol w
          = (Ok (match Rop.registered table v symbol with
                 | Some fn => if is_nullish fn then VNull else fn
                 | None => resolve table h symbol ls
                 end), w))
  ∧ Rop.getOverloadOnInstance rop VNull symbol w = (Ok VNull, w)
  ∧ (∀ l' rest fn,
       ls = l :: l' :: rest →
       typeof h (VObject l) = "object" →
       Rop.registered table (VObject l) symbol = None →
       own_property (cell h l) (KSymbol symbol) = None →
       own_property (cell h l') (KSymbol symbol) = Some fn →
       typeof h fn = "function" →
       resolve table h symbol ls = fn).
Proof.
  intros Hrop Hchain table h.
  pose proof (proto_chain_length h l ls Hchain) as Hlen.
  assert (Hrun : ∀ v, Rop.getOverloadOnInstance rop v symbol w
                      = (Rop.walk (2 + chain_fuel h) table h v symbol, w)).
  { intros v. unfold Rop.getOverloadOnInstance, Rop.getOverloadFromPrototypeChain,
      Rop.this, bind, reads, lift. by rewrite Hrop. }
  split; [|split; [|split]].
  - rewrite Hrun. f_equal. apply walk_resolves; [done|]. simpl. lia.
  - intros v Hv Hproto. rewrite Hrun. f_equal.
    change (2 + chain_fuel h)%nat with (S (S (chain_fuel h))).
    rewrite walk_primitive by by destruct v.
    destruct (Rop.registered table v symbol); [done|].
    rewrite Hproto. cbn [obind]. apply walk_resolves; [done|]. lia.
  - by rewrite Hrun.
  - subst h table.
    intros l' rest fn -> Hobject Hregistered Hown Hinherited Hfn.
    inversion Hchain as [|? l'' ? Hproto Hchain']; subst.
    assert (l'' = l') as -> by (inversion Hchain'; done).
    cbn [resolve]. rewrite Hregistered.
    unfold Rop.declared. rewrite bool_decide_eq_true_2 by done.
    unfold chain_fuel in *. simpl in Hlen.
    destruct (size (heap w)) as [|n] eqn:Hsize; [lia|].
    cbn [find_property]. rewrite Hown, Hproto. cbn [find_property].
    rewrite Hinherited. by rewrite bool_decide_eq_true_2.
Qed.

Lemma C4_overload_resolution_witness :
  let plus := Operations.symbol (OpBinary B_add) in
  let register rop :=
    Rop.overload rop (VObject Sample.Vec2) (ByName "+") (VObject Sample.registered_plus) in
  let w := world (Sample.run_after register Sample.world0 [] "0").2 in
  let ls := [Sample.vec; Sample.Vec2_prototype; Realm.ObjectPrototype] in
  let seven := 40%nat in
  let h7 := <[seven := Sample.plain (Some Realm.ObjectPrototype)
                         [(KString "prototype", VInt 7)]]> Sample.realm in
  let w7 := (Rop.overload 0 (VObject seven) (ByName "+") (VObject Sample.registered_plus)
               (Rop.constructor (with_heap h7 Sample.world0)).2).2 in
  (∃ r, engines w !! 0%nat = Some r
        ∧ proto_chain (heap w) Sample.vec ls
        ∧ Rop.getOverloadOnInstance 0 (VObject Sample.vec) plus w
          = (Ok (resolve (overloadings r) (heap w) plus ls), w)
        ∧ resolve (overloadings r) (heap w) plus ls = VObject Sample.declared_plus)
  ∧ (∃ r, engines w7 !! 0%nat = Some r
          ∧ Rop.registered (overloadings r) (VInt 7) plus
            = Some (VObject Sample.registered_plus)
          ∧ Rop.getOverloadOnInstance 0 (VInt 7) plus w7
            = (Ok (VObject Sample.registered_plus), w7)
          ∧ Rop.getOverloadOnInstance 0 (VInt 8) plus w7 = (Ok VNull, w7)).
Proof.
  intros plus register w ls seven h7 w7. split.
  - destruct (engines w !! 0%nat) as [r|] eqn:Hr; [|by vm_compute in Hr].
    assert (Hchain : proto_chain (heap w) Sample.vec ls).
    { apply chain_link with (l' := Sample.Vec2_prototype); [by vm_compute|].
      apply chain_link with (l' := Realm.ObjectPrototype); [by vm_compute|].
      apply chain_root. by vm_compute. }
    exists r. split; [done|]. split; [done|].
    destruct (C4_overload_resolution 0 w r plus Sample.vec ls Hr Hchain)
      as (Hobject & _ & _ & Hinherited).
    split; [exact Hobject|].
    apply (Hinherited Sample.Vec2_prototype [Realm.ObjectPrototype]).
    + done.
    + by vm_compute.
    + vm_compute in Hr. injection Hr as <-. by vm_compute.
    + by vm_compute.
    + by vm_compute.
    + by vm_compute.
  - destruct (engines w7 !! 0%nat) as [r|] eqn:Hr; [|by vm_compute in Hr].
    assert (Hchain : proto_chain (heap w7) Realm.NumberPrototype
                       [Realm.NumberPrototype; Realm.ObjectPrototype]).
    { apply chain_link with (l' := Realm.ObjectPrototype); [by vm_compute|].
      apply chain_root. by vm_compute. }
    destruct (C4_overload_resolution 0 w7 r plus Realm.NumberPrototype _ Hr Hchain)
      as (_ & Hprimitive & _).
    assert (H7 : Rop.registered (overloadings r) (VInt 7) plus
                 = Some (VObject Sample.registered_plus)).
    { vm_compute in Hr. injection Hr as <-. by vm_compute. }
    assert (H8 : Rop.registered (overloadings r) (VInt 8) plus = None).
    { vm_compute in Hr. injection Hr as <-. by vm_compute. }
    exists r. split; [done|]. split; [exact H7|]. split.
    + rewrite (Hprimitive (VInt 7) I eq_refl), H7. reflexivity.
    + rewrite (Hprimitive (VInt 8) I eq_refl), H8. f_equal. f_equal.
      vm_compute in Hr. injection Hr as <-. by vm_compute.
Defined.

(* ================================================================= *)
(** ** The default instance *)

Section Confinement.

Context {A B : Type}.

Lemma alike_ret Q rop rop' (a a' : A) : Q a a' → alike Q rop rop' (ret a) (ret a').
Proof. by intros HQ w w' Hagree. Qed.

Lemma alike_throw Q rop rop' e : alike (A := A) Q rop rop' (throw e) (throw e).
Proof. by intros w w' Hagree. Qed.

Lemma alike_bind (Q : A → A → Prop) (Q' : B → B → Prop) rop rop' m m' k k' :
  alike Q rop rop' m m' →
  (∀ a a', Q a a' → alike Q' rop rop' (k a) (k' a')) →
  alike Q' rop rop' (bind m k) (bind m' k').
Proof.
  intros Hm Hk w w' Hagree. unfold bind.
  destruct (Hm w w' Hagree) as [Hout Hagree'].
  destruct (m w) as [[a|e] w1], (m' w') as [[a'|e'] w1']; simpl in *; try done.
  by apply Hk.
Qed.

Lemma confined_ret rop (a : A) : confined rop (ret a).
Proof. by intros w. Qed.

Lemma confined_throw rop e : confined (A := A) rop (throw e).
Proof. by intros w. Qed.

Lemma confined_bind rop (m : Run World A) (k : A → Run World B) :
  confined rop m → (∀ a, confined rop (k a)) → confined rop (bind m k).
Proof.
  intros Hm Hk w. unfold bind. destruct (Hm w) as [Hengines Hinstance].
  destruct (m w) as [[a|e] w1]; simpl in *; [|done].
  destruct (Hk a w1) as [Hengines' Hinstance']. split.
  - intros e He. by rewrite Hengines', Hengines.
  - by rewrite Hinstance'.
Qed.

End Confinement.

(** The computations on the heap alone. *)
Lemma alike_lift {A} rop rop' (o : Outcome A) : alike eq rop rop' (lift o) (lift o).
Proof. intros w w' Hagree. split; [|done]. by destruct o. Qed.

Lemma alike_reads_heap rop rop' : alike eq rop rop' (reads heap) (reads heap).
Proof. intros w w' Hagree. split; [|done]. apply Hagree. Qed.

Lemma alike_allocate rop rop' o : alike eq rop rop' (allocate o) (allocate o).
Proof.
  intros w w' [Hheap Hengine]. unfold allocate, alloc. simpl. rewrite Hheap.
  split; [done|]. by split.
Qed.

Lemma alike_new_object rop rop' ps : alike eq rop rop' (new_object ps) (new_object ps).
Proof.
  unfold new_object. apply (alike_bind eq); [apply alike_allocate|].
  intros l ? <-. by apply alike_ret.
Qed.

Lemma alike_new_function rop rop' c owns text :
  alike eq rop rop' (new_function c owns text) (new_function c owns text).
Proof.
  unfold new_function. destruct owns.
  - apply (alike_bind eq); [apply alike_new_object|]. intros p ? <-.
    apply (alike_bind eq); [apply alike_allocate|]. intros l ? <-. by apply alike_ret.
  - apply (alike_bind eq); [apply alike_allocate|]. intros l ? <-. by apply alike_ret.
Qed.

Lemma confined_lift {A} rop (o : Outcome A) : confined rop (lift o).
Proof. by intros w. Qed.

Lemma confined_reads_heap rop : confined rop (reads heap).
Proof. by intros w. Qed.

Lemma confined_allocate rop o : confined rop (allocate o).
Proof. by intros w. Qed.

Lemma confined_new_object rop ps : confined rop (new_object ps).
Proof.
  unfold new_object. apply confined_bind; [apply confined_allocate|].
  intros l. apply confined_ret.
Qed.

Lemma confined_new_function rop c owns text : confined rop (new_function c owns text).
Proof.
  unfold new_function. destruct owns.
  - apply confined_bind; [apply confined_new_object|]. intros p.
    apply confined_bind; [apply confined_allocate|]. intros l. apply confined_ret.
  - apply confined_bind; [apply confined_allocate|]. intros l. apply confined_ret.
Qed.

(** Access to the fields of the engine. *)
Lemma alike_this rop rop' : alike eq rop rop' (Rop.this rop) (Rop.this rop').
Proof.
  intros w w' [Hheap Hengine]. unfold Rop.this. rewrite Hengine.
  destruct (engines w' !! rop') eqn:E; simpl; (split; [done|]; split; [done|congruence]).
Qed.

Lemma alike_update rop rop' f : alike eq rop rop' (Rop.update rop f) (Rop.update rop' f).
Proof.
  intros w w' [Hheap Hengine]. unfold Rop.update, Rop.this, bind, modify.
  rewrite Hengine. destruct (engines w' !! rop') as [r|] eqn:E; simpl.
  - split; [done|]. split; [done|]. simpl. by rewrite !lookup_insert_eq.
  - split; [done|]. split; [done|congruence].
Qed.

Lemma confined_this rop : confined rop (Rop.this rop).
Proof. intros w. unfold Rop.this. by destruct (engines w !! rop). Qed.

Lemma confined_update rop f : confined rop (Rop.update rop f).
Proof.
  intros w. unfold Rop.update, Rop.this, bind, modify.
  destruct (engines w !! rop) as [r|]; simpl; [|done].
  split; [|done]. intros e He. by rewrite lookup_insert_ne.
Qed.

Lemma alike_bindAll rop rop' entries :
  alike (this_engine rop rop') rop rop' (Rop.bindAll rop entries) (Rop.bindAll rop' entries).
Proof.
  induction entries as [|[key value] entries IH]; simpl.
  - by apply alike_ret.
  - apply (alike_bind eq); [apply alike_update|]. by intros _ _ _.
Qed.

Lemma confined_bindAll rop entries : confined rop (Rop.bindAll rop entries).
Proof.
  induction entries as [|[key value] entries IH]; simpl.
  - apply confined_ret.
  - apply confined_bind; [apply confined_update|]. by intros _.
Qed.

Lemma alike_setOverload rop rop' prototype symbol operationFn :
  alike eq rop rop' (Rop.setOverload rop prototype symbol operationFn)
                    (Rop.setOverload rop' prototype symbol operationFn).
Proof.
  unfold Rop.setOverload.
  apply (alike_bind eq); [apply alike_this|]. intros r ? <-.
  apply (alike_bind eq).
  { case_bool_decide; [by apply alike_ret | apply alike_update]. }
  intros _ _ _. apply (alike_bind eq); [apply alike_reads_heap|]. intros h ? <-.
  apply (alike_bind eq); [apply alike_lift|]. intros t ? <-.
  apply (alike_bind eq).
  { destruct t; [by apply alike_ret | apply alike_new_function | by apply alike_ret]. }
  intros stored ? <-. apply alike_update.
Qed.

Lemma confined_setOverload rop prototype symbol operationFn :
  confined rop (Rop.setOverload rop prototype symbol operationFn).
Proof.
  unfold Rop.setOverload.
  apply confined_bind; [apply confined_this|]. intros r.
  apply confined_bind.
  { case_bool_decide; [apply confined_ret | apply confined_update]. }
  intros _. apply confined_bind; [apply confined_reads_heap|]. intros h.
  apply confined_bind; [apply confined_lift|]. intros t.
  apply confined_bind.
  { destruct t; [apply confined_ret | apply confined_new_function | apply confined_ret]. }
  intros stored. apply confined_update.
Qed.

Lemma alike_overloads_loop rop rop' prototype def :
  alike eq rop rop' (Rop.overloads_loop rop prototype def)
                    (Rop.overloads_loop rop' prototype def).
Proof.
  induction def as [|[key operationFn] def IH]; simpl.
  - by apply alike_ret.
  - destruct (Operations_symbol key) as [symbol|]; [|done].
    apply (alike_bind eq); [apply alike_reads_heap|]. intros h ? <-.
    destruct (negb _); [apply alike_throw|].
    apply (alike_bind eq); [apply alike_setOverload|]. by intros _ _ _.
Qed.

Lemma confined_overloads_loop rop prototype def :
  confined rop (Rop.overloads_loop rop prototype def).
Proof.
  induction def as [|[key operationFn] def IH]; simpl.
  - apply confined_ret.
  - destruct (Operations_symbol key) as [symbol|]; [|done].
    apply confined_bind; [apply confined_reads_heap|]. intros h.
    destruct (negb _); [apply confined_throw|].
    apply confined_bind; [apply confined_setOverload|]. by intros _.
Qed.

Lemma alike_overloads rop rop' clazz def :
  alike (this_engine rop rop') rop rop' (Rop.overloads rop clazz def)
                                        (Rop.overloads rop' clazz def).
Proof.
  unfold Rop.overloads.
  apply (alike_bind eq); [apply alike_reads_heap|]. intros h ? <-.
  apply (alike_bind eq); [apply alike_lift|]. intros prototype ? <-.
  case_bool_decide; [apply alike_throw|].
  apply (alike_bind eq); [apply alike_overloads_loop|]. intros _ _ _. by apply alike_ret.
Qed.

Lemma confined_overloads rop clazz def : confined rop (Rop.overloads rop clazz def).
Proof.
  unfold Rop.overloads.
  apply confined_bind; [apply confined_reads_heap|]. intros h.
  apply confined_bind; [apply confined_lift|]. intros prototype.
  case_bool_decide; [apply confined_throw|].
  apply confined_bind; [apply confined_overloads_loop|]. intros _. apply confined_ret.
Qed.

Lemma alike_overloadDefaults rop rop' :
  alike (this_engine rop rop') rop rop' (Rop.overloadDefaults rop) (Rop.overloadDefaults rop').
Proof.
  unfold Rop.overloadDefaults.
  apply (alike_bind eq); [apply alike_new_function|]. intros concat ? <-.
  apply (alike_bind eq); [apply alike_new_function|]. intros index ? <-.
  apply (alike_bind eq); [apply alike_new_function|]. intros slice ? <-.
  apply (alike_bind (this_engine rop rop')); [apply alike_overloads|]. intros _ _ _.
  apply (alike_bind eq); [apply alike_new_function|]. intros repeat_ ? <-.
  apply (alike_bind (this_engine rop rop')); [apply alike_overloads|]. intros _ _ _.
  apply (alike_bind eq); [apply alike_new_function|]. intros union ? <-.
  apply (alike_bind eq); [apply alike_new_function|]. intros difference ? <-.
  apply (alike_bind (this_engine rop rop')); [apply alike_overloads|]. intros _ _ _.
  by apply alike_ret.
Qed.

Lemma confined_overloadDefaults rop : confined rop (Rop.overloadDefaults rop).
Proof.
  unfold Rop.overloadDefaults.
  repeat first
    [ apply confined_ret
    | apply confined_bind; [first [apply confined_new_function | apply confined_overloads]|];
      intros ? ].
Qed.

Lemma alike_install_defaults rop rop' :
  alike (this_engine rop rop') rop rop' (install_defaults rop) (install_defaults rop').
Proof.
  unfold install_defaults, Rop.bindDefaults, Rop.bindMaths.
  apply (alike_bind (this_engine rop rop')); [apply alike_bindAll|]. intros _ _ _.
  apply (alike_bind (this_engine rop rop')).
  { apply (alike_bind eq); [apply alike_reads_heap|]. intros h ? <-. apply alike_bindAll. }
  intros _ _ _. apply alike_overloadDefaults.
Qed.

Lemma confined_install_defaults rop : confined rop (install_defaults rop).
Proof.
  unfold install_defaults, Rop.bindDefaults, Rop.bindMaths.
  apply confined_bind; [apply confined_bindAll|]. intros _.
  apply confined_bind.
  { apply confined_bind; [apply confined_reads_heap|]. intros h. apply confined_bindAll. }
  intros _. apply confined_overloadDefaults.
Qed.

(** The getter, when the static field is empty. *)
Lemma INST_constructs w :
  instance w = None →
  Rop.INST w =
    let rop := fresh (dom (engines w)) in
    let r := install_defaults rop
               (with_engines (<[rop := {| overloadings := ∅; bindings := ∅ |}]> (engines w)) w) in
    match r.1 with
    | Ok _ => (Ok rop, with_instance (Some rop) r.2)
    | Throw e => (Throw e, r.2)
    end.
Proof.
  intros Hnone. unfold Rop.INST, bind at 1, reads. rewrite Hnone.
  unfold bind at 1, Rop.constructor. simpl.
  unfold install_defaults, bind.
  repeat match goal with
         | |- context [let (_, _) := ?m in _] => destruct m as [[?|?] ?]; simpl; try done
         | |- context [match ?m with (_, _) => _ end] => destruct m as [[?|?] ?]; simpl; try done
         end.
Qed.

(** *** The getter returns normally in a realm that is ready *)

Lemma returns_bind {A B} P (m : Run World A) Q (k : A → Run World B) R :
  returns P m Q → (∀ a, returns (Q a) (k a) R) → returns P (bind m k) R.
Proof.
  intros Hm Hk w HP. destruct (Hm w HP) as (a & w1 & Hrun & HQ).
  destruct (Hk a w1 HQ) as (b & w2 & Hrun' & HR).
  exists b, w2. unfold bind. by rewrite Hrun.
Qed.

Lemma returns_weaken {A} (P P' : World → Prop) (m : Run World A) (Q Q' : A → World → Prop) :
  returns P m Q → (∀ w, P' w → P w) → (∀ a w, Q a w → Q' a w) → returns P' m Q'.
Proof.
  intros Hm HP HQ w HP'. destruct (Hm w (HP w HP')) as (a & w' & Hrun & HQa).
  exists a, w'. split; [done|]. by apply HQ.
Qed.

Lemma returns_ret {A} (P : World → Prop) (a : A) (Q : A → World → Prop) :
  (∀ w, P w → Q a w) → returns P (ret a) Q.
Proof. intros HPQ w HP. exists a, w. split; [done|]. by apply HPQ. Qed.

(** A heap that has grown has the cells it had. *)
Lemma cell_grown (h h' : Heap) l : h ⊆ h' → is_Some (h !! l) → cell h' l = cell h l.
Proof.
  intros Hsub [o Ho]. pose proof (lookup_weaken _ _ _ _ Ho Hsub) as Ho'.
  unfold cell. by rewrite Ho', Ho.
Qed.

Lemma own_property_in_heap (h : Heap) l k v :
  own_property (cell h l) k = Some v → is_Some (h !! l).
Proof.
  unfold cell. destruct (h !! l) as [o|]; [by eauto|]. simpl.
  unfold own_property. simpl. done.
Qed.

Lemma realm_ready_grown (h h' : Heap) : h ⊆ h' → realm_ready h → realm_ready h'.
Proof.
  intros Hsub Hready. unfold realm_ready in *.
  eapply Forall_impl; [exact Hready|]. intros c [p Hp]. simpl.
  exists p. rewrite (cell_grown h h'); [done|done|]. by eapply own_property_in_heap.
Qed.

Lemma function_of_type_grown (h h' : Heap) v t :
  h ⊆ h' → function_of_type h v t → function_of_type h' v t.
Proof.
  intros Hsub (l & -> & Hin & Htypeof & Hdetect). exists l.
  split; [done|]. split.
  { destruct Hin as [o Ho]. exists o. by eapply lookup_weaken. }
  unfold typeof, detectFunctionType in *. by rewrite (cell_grown h h').
Qed.

Lemma ready_grown rop fs (w w' : World) :
  heap w ⊆ heap w' → engines w' = engines w → ready rop fs w → ready rop fs w'.
Proof.
  intros Hsub Hengines (Hrealm & Hrop & Hfs). split; [|split].
  - by eapply realm_ready_grown.
  - by rewrite Hengines.
  - eapply Forall_impl; [done|]. intros [v t]. by apply function_of_type_grown.
Qed.

Lemma alloc_grows o (h : Heap) : h ⊆ (alloc o h).2 ∧ (alloc o h).2 !! (alloc o h).1 = Some o.
Proof.
  unfold alloc. simpl. split; [|by rewrite lookup_insert_eq].
  apply insert_subseteq. apply not_elem_of_dom. apply is_fresh.
Qed.

Lemma returns_allocate rop fs o :
  returns (ready rop fs) (allocate o) (λ l w', ready rop fs w' ∧ heap w' !! l = Some o).
Proof.
  intros w Hready. destruct (alloc_grows o (heap w)) as [Hsub Hcell].
  exists (alloc o (heap w)).1, (with_heap (alloc o (heap w)).2 w).
  split; [by unfold allocate; destruct (alloc o (heap w))|].
  split; [|done]. by eapply ready_grown.
Qed.

Lemma returns_new_object rop fs ps :
  returns (ready rop fs) (new_object ps) (λ _ w', ready rop fs w').
Proof.
  unfold new_object. eapply returns_bind; [apply returns_allocate|].
  intros l. apply returns_ret. by intros w [Hready _].
Qed.

Lemma returns_new_function rop fs c (owns : bool) (text : string) :
  let t : FunctionType :=
    if owns then normal else if arrow_text text then arrow else method in
  returns (ready rop fs) (new_function c owns text)
          (λ v w', ready rop ((v, t) :: fs) w').
Proof.
  intros t.
  assert (Hfn : ∀ l o (w : World),
    ready rop fs w → heap w !! l = Some o →
    typeof (heap w) (VObject l) = "function" →
    detectFunctionType (heap w) (VObject l) = Ok t →
    ready rop ((VObject l, t) :: fs) w).
  { intros l o w (Hrealm & Hrop & Hfs) Hcell Htypeof Hdetect.
    split; [done|]. split; [done|]. constructor; [|done]. exists l. by eauto 10. }
  unfold new_function. subst t. destruct owns.
  - eapply returns_bind; [apply returns_new_object|]. intros p.
    eapply returns_bind; [apply returns_allocate|]. intros l.
    apply returns_ret. intros w [Hready Hcell]. eapply Hfn; [done|done| |].
    + unfold typeof, cell. by rewrite Hcell.
    + unfold detectFunctionType, cell. by rewrite Hcell.
  - eapply returns_bind; [apply returns_allocate|]. intros l.
    apply returns_ret. intros w [Hready Hcell]. eapply Hfn; [done|done| |].
    + unfold typeof, cell. by rewrite Hcell.
    + unfold detectFunctionType, cell. rewrite Hcell. simpl.
      by destruct (arrow_text text).
Qed.

Lemma returns_this rop fs :
  returns (ready rop fs) (Rop.this rop) (λ _ w', ready rop fs w').
Proof.
  intros w Hready. destruct Hready as (Hrealm & [r Hr] & Hfs).
  exists r, w. unfold Rop.this. rewrite Hr. split; [done|]. by repeat split; eauto.
Qed.

Lemma returns_update rop fs f :
  returns (ready rop fs) (Rop.update rop f) (λ _ w', ready rop fs w').
Proof.
  intros w Hready. destruct Hready as (Hrealm & [r Hr] & Hfs).
  eexists tt, _. unfold Rop.update, Rop.this, bind, modify. rewrite Hr. simpl.
  split; [done|]. split; [done|]. split; [|done]. simpl.
  rewrite lookup_insert_eq. by eauto.
Qed.

Lemma returns_bindAll rop fs entries :
  returns (ready rop fs) (Rop.bindAll rop entries) (λ _ w', ready rop fs w').
Proof.
  induction entries as [|[key value] entries IH]; simpl.
  - by apply returns_ret.
  - eapply returns_bind; [apply returns_update|]. by intros ?.
Qed.

Lemma returns_reads_heap {A} (P : World → Prop) (k : Heap → Run World A) Q :
  (∀ h, returns (λ w, P w ∧ heap w = h) (k h) Q) → returns P (bind (reads heap) k) Q.
Proof. intros Hk w HP. unfold bind, reads. by apply (Hk (heap w)). Qed.

Lemma ready_function rop fs w fn t :
  ready rop fs w → (fn, t) ∈ fs → function_of_type (heap w) fn t.
Proof.
  intros (_ & _ & Hfs) Hin. rewrite Forall_forall in Hfs. by apply (Hfs (fn, t)).
Qed.

Lemma returns_setOverload rop fs p symbol fn t :
  (fn, t) ∈ fs →
  returns (ready rop fs) (Rop.setOverload rop (VObject p) symbol fn)
          (λ _ w', ready rop fs w').
Proof.
  intros Hin. unfold Rop.setOverload.
  eapply returns_bind; [apply returns_this|]. intros r.
  eapply (returns_bind _ _ (λ _ w, ready rop fs w)).
  { case_bool_decide; [by apply returns_ret | apply returns_update]. }
  intros ?. apply returns_reads_heap. intros h.
  eapply (returns_bind _ _ (λ t' w, ready rop fs w ∧ t' = t)).
  { intros w [Hready <-]. exists t, w.
    destruct (ready_function rop fs w fn t Hready Hin) as (l & -> & _ & _ & Hdetect).
    unfold lift. by rewrite Hdetect. }
  intros t'. eapply (returns_bind _ _ (λ _ w, ready rop fs w)).
  { destruct t'.
    - apply returns_ret. by intros w [Hready _].
    - eapply returns_weaken; [apply (returns_new_function rop fs) | by intros w [? _] |].
      cbv zeta.
      intros v w (Hrealm & Hrop & Hfs). split; [done|]. split; [done|].
      by inversion Hfs.
    - apply returns_ret. by intros w [Hready _]. }
  intros stored. apply returns_update.
Qed.

Lemma returns_overloads_loop rop fs p def :
  Forall (λ '(key, fn), ∃ t, (fn, t) ∈ fs) def →
  returns (ready rop fs) (Rop.overloads_loop rop (VObject p) def) (λ _ w', ready rop fs w').
Proof.
  induction def as [|[key fn] def IH]; intros Hdef; simpl.
  - by apply returns_ret.
  - apply Forall_cons in Hdef as [[t Hin] Hdef'].
    destruct (Operations_symbol key) as [symbol|]; [|by apply IH].
    apply returns_reads_heap. intros h.
    intros w [Hready <-].
    destruct (ready_function rop fs w fn t Hready Hin) as (l & -> & _ & Htypeof & _).
    rewrite bool_decide_eq_true_2 by done. simpl.
    revert w Hready Htypeof.
    assert (Hrest : returns (ready rop fs)
              (bind (Rop.setOverload rop (VObject p) symbol (VObject l))
                    (λ _, Rop.overloads_loop rop (VObject p) def))
              (λ _ w', ready rop fs w')).
    { eapply returns_bind; [by eapply returns_setOverload|]. intros ?. by apply IH. }
    intros w Hready _. by apply Hrest.
Qed.

Lemma returns_overloads rop fs c def :
  c ∈ [Realm.Array; Realm.String; Realm.Set_] →
  Forall (λ '(key, fn), ∃ t, (fn, t) ∈ fs) def →
  returns (ready rop fs) (Rop.overloads rop (VObject c) def) (λ _ w', ready rop fs w').
Proof.
  intros Hc Hdef. unfold Rop.overloads.
  apply returns_reads_heap. intros h.
  eapply (returns_bind _ _ (λ prototype w, ready rop fs w ∧ ∃ p, prototype = VObject p)).
  { intros w [Hready <-]. pose proof Hready as (Hrealm & _ & _).
    unfold realm_ready in Hrealm. rewrite Forall_forall in Hrealm.
    destruct (Hrealm c Hc) as [p Hp].
    exists (VObject p), w. split; [|by eauto].
    unfold lift, get_property, get_by_key, chain_fuel. simpl. by rewrite Hp. }
  intros prototype. intros w [Hready [p ->]].
  rewrite bool_decide_eq_false_2 by done.
  assert (Hrest : returns (ready rop fs)
            (bind (Rop.overloads_loop rop (VObject p) def) (λ _, ret rop))
            (λ _ w', ready rop fs w')).
  { eapply returns_bind; [by apply returns_overloads_loop|]. intros ?. by apply returns_ret. }
  by apply Hrest.
Qed.

Lemma returns_overloadDefaults rop :
  returns (ready rop []) (Rop.overloadDefaults rop) (λ _ w', is_Some (engines w' !! rop)).
Proof.
  unfold Rop.overloadDefaults.
  eapply returns_bind; [apply returns_new_function|]. intros concat.
  eapply returns_bind; [apply returns_new_function|]. intros index.
  eapply returns_bind; [apply returns_new_function|]. intros slice.
  eapply returns_bind.
  { apply returns_overloads; [set_solver|].
    repeat (apply Forall_cons_2;
            [simpl; first [exists arrow; set_solver | exists method; set_solver]|]).
    apply Forall_nil_2. }
  intros ?.
  eapply returns_bind; [apply returns_new_function|]. intros repeat_.
  eapply returns_bind.
  { apply returns_overloads; [set_solver|].
    repeat (apply Forall_cons_2;
            [simpl; first [exists arrow; set_solver | exists method; set_solver]|]).
    apply Forall_nil_2. }
  intros ?.
  eapply returns_bind; [apply returns_new_function|]. intros union.
  eapply returns_bind; [apply returns_new_function|]. intros difference.
  eapply returns_bind.
  { apply returns_overloads; [set_solver|].
    repeat (apply Forall_cons_2;
            [simpl; first [exists arrow; set_solver | exists method; set_solver]|]).
    apply Forall_nil_2. }
  intros ?. apply returns_ret. by intros w (_ & Hrop & _).
Qed.

Lemma returns_install_defaults rop :
  returns (ready rop []) (install_defaults rop) (λ _ w', is_Some (engines w' !! rop)).
Proof.
  unfold install_defaults, Rop.bindDefaults, Rop.bindMaths.
  eapply returns_bind; [apply returns_bindAll|]. intros ?.
  eapply returns_bind.
  { apply returns_reads_heap. intros h.
    eapply returns_weaken; [apply (returns_bindAll rop []) | by intros w [? _] | done]. }
  intros ?. apply returns_overloadDefaults.
Qed.

(** C9.  Resetting the default instance only empties the static field.
    In a realm that is ready, the next access constructs a new engine: one
    that did not exist before, and that is in the state, with the heap in
    the state, that the first access of a process with the same heap and no
    engine at all produces, so that it holds the default bindings and
    overloads and nothing that was added to the former instance.  Every
    other engine, the user-created ones and the former instance, has its
    binding table and its overload table unchanged by the reset and by that
    access. *)
Theorem C9_reset_default_instance w :
  realm_ready (heap w) →
  let w1 := (Rop.resetDefaultInstance w).2 in
  (Rop.resetDefaultInstance w).1 = Ok tt
  ∧ heap w1 = heap w ∧ engines w1 = engines w ∧ instance w1 = None
  ∧ ∃ rop w2 rop0 w0 r,
      Rop.INST w1 = (Ok rop, w2)
      ∧ Rop.INST (pristine (heap w)) = (Ok rop0, w0)
      ∧ engines w !! rop = None
      ∧ instance w2 = Some rop
      ∧ engines w2 !! rop = Some r
      ∧ engines w0 !! rop0 = Some r
      ∧ heap w2 = heap w0
      ∧ (∀ e, e ≠ rop → engines w2 !! e = engines w !! e).
Proof.
  intros Hrealm w1. do 4 (split; [done|]).
  set (rop := fresh (dom (engines w))).
  set (rop0 := fresh (dom (engines (pristine (heap w))))).
  set (empty := {| overloadings := ∅; bindings := ∅ |}).
  set (start := with_engines (<[rop := empty]> (engines w1)) w1).
  set (start0 := with_engines (<[rop0 := empty]> (engines (pristine (heap w))))
                   (pristine (heap w))).
  assert (Hfresh : engines w !! rop = None).
  { apply not_elem_of_dom. apply is_fresh. }
  assert (Hagree : agree rop rop0 start start0).
  { split; [done|]. simpl. by rewrite !lookup_insert_eq. }
  assert (Hready0 : ready rop0 [] start0).
  { split; [done|]. split; [|done]. simpl. rewrite lookup_insert_eq. by eauto. }
  destruct (returns_install_defaults rop0 start0 Hready0) as (a0 & w0 & Hrun0 & [r Hr]).
  destruct (alike_install_defaults rop rop0 start start0 Hagree) as [Hsame [Hheap Hengine]].
  destruct (confined_install_defaults rop start) as [Hframe Hinstance].
  rewrite Hrun0 in Hsame, Hheap, Hengine. simpl in Hsame, Hheap, Hengine.
  exists rop, (with_instance (Some rop) (install_defaults rop start).2),
         rop0, (with_instance (Some rop0) w0), r.
  split; [|split; [|split; [|split; [|split; [|split; [|split]]]]]].
  - assert (Hinst : Rop.INST w1 =
              match (install_defaults rop start).1 with
              | Ok _ => (Ok rop, with_instance (Some rop) (install_defaults rop start).2)
              | Throw e => (Throw e, (install_defaults rop start).2)
              end) by exact (INST_constructs w1 eq_refl).
    rewrite Hinst.
    by destruct (install_defaults rop start).1 eqn:E.
  - assert (Hinst : Rop.INST (pristine (heap w)) =
              match (install_defaults rop0 start0).1 with
              | Ok _ => (Ok rop0, with_instance (Some rop0) (install_defaults rop0 start0).2)
              | Throw e => (Throw e, (install_defaults rop0 start0).2)
              end) by exact (INST_constructs (pristine (heap w)) eq_refl).
    rewrite Hinst. by rewrite Hrun0.
  - done.
  - done.
  - simpl. by rewrite Hengine.
  - done.
  - done.
  - intros e He. simpl. rewrite (Hframe e He). simpl. by rewrite lookup_insert_ne.
Qed.

(** The world after [Rop.INST.bind({ name: 'rop' })] and
    [new Rop().bind({ a: 1 })]. *)
Lemma C9_reset_default_instance_witness :
  let w := ((do inst <- Rop.INST;
             do _ <- Rop.bind inst "name" (VString "rop");
             do user <- Rop.constructor;
             Rop.bind user "a" (VInt 1)) Sample.world0).2 in
  let w1 := (Rop.resetDefaultInstance w).2 in
  realm_ready (heap w)
  ∧ instance w = Some 0%nat
  ∧ (bindings <$> engines w !! 0%nat) ≫= (λ b, b !! "name") = Some (VString "rop")
  ∧ ∃ rop w2 r,
      Rop.INST w1 = (Ok rop, w2)
      ∧ rop = 2%nat
      ∧ engines w2 !! rop = Some r
      ∧ bindings r !! "name" = None
      ∧ bindings r !! "true" = Some (VBoolean true)
      ∧ bindings r !! "max" = Some (VObject Sample.max_fn)
      ∧ engines w2 !! 0%nat = engines w !! 0%nat
      ∧ engines w2 !! 1%nat = engines w !! 1%nat.
Proof.
  intros w w1. subst w1.
  assert (Hrealm : realm_ready (heap w)).
  { repeat (apply Forall_cons_2; [eexists; vm_compute; reflexivity|]). apply Forall_nil_2. }
  split; [exact Hrealm|]. split; [by vm_compute|]. split; [by vm_compute|].
  destruct (C9_reset_default_instance w Hrealm)
    as (_ & _ & _ & _ & rop & w2 & rop0 & w0 & r & Hinst & Hfirst & Hnew & _ & Hr & Hr0 & _ & Hframe).
  assert (Hrop : rop = 2%nat).
  { assert (Hid : (Rop.INST (Rop.resetDefaultInstance w).2).1 = Ok 2%nat)
      by (vm_compute; reflexivity).
    rewrite Hinst in Hid. by injection Hid. }
  assert (H0 : (Rop.INST (pristine (heap w))).1 = Ok rop0) by by rewrite Hfirst.
  assert (Hr0' : engines (Rop.INST (pristine (heap w))).2 !! 0%nat = Some r).
  { assert (rop0 = 0%nat) as <-.
    { assert (Hid : (Rop.INST (pristine (heap w))).1 = Ok 0%nat) by (vm_compute; reflexivity).
      rewrite Hfirst in Hid. by injection Hid. }
    by rewrite Hfirst. }
  exists rop, w2, r. split; [done|]. split; [done|]. split; [done|].
  assert (Hb : ∀ k, bindings r !! k
                    = (bindings <$> engines (Rop.INST (pristine (heap w))).2 !! 0%nat)
                        ≫= (λ b, b !! k)).
  { intros k. by rewrite Hr0'. }
  split; [rewrite Hb; by vm_compute|].
  split; [rewrite Hb; by vm_compute|].
  split; [rewrite Hb; by vm_compute|].
  split; apply Hframe; lia.
Defined.

(* ================================================================= *)
(** ** Precedence climbing *)

Lemma binaryFromLiteral_literal op :
  Operations.binaryFromLiteral (meta_literal (Operations.meta (OpBinary op))) = Some op.
Proof. destruct op; vm_compute; reflexivity. Qed.

Lemma meta_type_binary op : meta_type (Operations.meta (OpBinary op)) = binary.
Proof. by destruct op. Qed.

(** The step of the loop on a binary operator: left alone when its
    precedence is below the minimum, otherwise consumed, followed by the
    right operand parsed at the precedence of the operator (for the power
    operator) or one above it (for the others). *)
Lemma parseOperators_operator fuel precedence left_ op rest :
  AstParser.parseOperators (S fuel) precedence left_ (operator_token op :: rest) =
  if (precedence_of op <? precedence)%nat then Ok (left_, operator_token op :: rest)
  else
    let* (right_, ts) :=
      AstParser.parseExpression fuel
        (if bool_decide (op = B_pow) then precedence_of op else precedence_of op + 1)%nat
        rest in
    AstParser.parseOperators fuel precedence (BinaryNode left_ op right_) ts.
Proof.
  unfold operator_token, precedence_of.
  cbn [AstParser.parseOperators AstParser.skipWhitespace].
  rewrite binaryFromLiteral_literal, meta_type_binary. simpl negb. cbv iota.
  reflexivity.
Qed.

Lemma parseExpression_atom fuel precedence a rest :
  AstParser.parseExpression (S (S fuel)) precedence (atom_token a :: rest) =
  AstParser.parseOperators (S fuel) precedence (atom_node a) rest.
Proof. by destruct a. Qed.

Lemma parseOperators_end fuel precedence left_ :
  AstParser.parseOperators (S fuel) precedence left_ [] = Ok (left_, []).
Proof. done. Qed.

Lemma skipWhitespace_atom a rest :
  AstParser.skipWhitespace (atom_token a :: rest) = atom_token a :: rest.
Proof. by destruct a. Qed.

Lemma binds_first op1 op2 :
  (precedence_of op2 <?
     (if bool_decide (op1 = B_pow) then precedence_of op1 else precedence_of op1 + 1))%nat
  = negb ((precedence_of op1 <? precedence_of op2)%nat
          || bool_decide (op1 = B_pow) && bool_decide (op2 = B_pow)).
Proof. destruct op1, op2; vm_compute; reflexivity. Qed.

Lemma climb fuel a op1 b op2 c :
  AstParser.parseExpression (10 + fuel) 0 
    [atom_token a; operator_token op1; atom_token b; operator_token op2; atom_token c] =
  Ok (if (precedence_of op1 <? precedence_of op2)%nat
         || bool_decide (op1 = B_pow) && bool_decide (op2 = B_pow)
      then BinaryNode (atom_node a) op1 (BinaryNode (atom_node b) op2 (atom_node c))
      else BinaryNode (BinaryNode (atom_node a) op1 (atom_node b)) op2 (atom_node c), []).
Proof.
  change (10 + fuel)%nat with (S (S (S (S (S (S (S (S (S (S fuel)))))))))).
  rewrite parseExpression_atom, parseOperators_operator.
  replace (precedence_of op1 <? 0)%nat with false by by destruct op1.
  rewrite parseExpression_atom, parseOperators_operator.
  rewrite binds_first.
  destruct ((precedence_of op1 <? precedence_of op2)%nat
            || bool_decide (op1 = B_pow) && bool_decide (op2 = B_pow)); simpl negb; cbv iota.
  - rewrite parseExpression_atom, parseOperators_end. cbn [obind].
    rewrite parseOperators_end. cbn [obind]. by rewrite parseOperators_end.
  - cbn [obind]. rewrite parseOperators_operator.
    replace (precedence_of op2 <? 0)%nat with false by by destruct op2.
    rewrite parseExpression_atom, parseOperators_end. cbn [obind].
    by rewrite parseOperators_end.
Qed.

Lemma three_operands a op1 b op2 c :
  AstParser.parse [atom_token a; operator_token op1; atom_token b;
                   operator_token op2; atom_token c] =
  Ok (if (precedence_of op1 <? precedence_of op2)%nat
         || bool_decide (op1 = B_pow) && bool_decide (op2 = B_pow)
      then BinaryNode (atom_node a) op1 (BinaryNode (atom_node b) op2 (atom_node c))
      else BinaryNode (BinaryNode (atom_node a) op1 (atom_node b)) op2 (atom_node c)).
Proof.
  unfold AstParser.parse. rewrite skipWhitespace_atom.
  change (AstParser.enough _) with (10 + 14)%nat.
  rewrite climb. reflexivity.
Qed.

(** C8: the loop leaves a binary operator alone when its precedence is below
    the current minimum and consumes it otherwise; the right operand is then
    parsed at the precedence of the operator for the power operator, and one
    above it for every other binary operator.  Of two operators in a row the
    second therefore binds first exactly when its precedence is higher or
    both are the power operator; [2 ** 3 ** 2] parses as [2 ** (3 ** 2)]
    and evaluates to 512, [(2 ** 3) ** 2] evaluates to 64. *)
Theorem C8_precedence_climbing :
  (∀ fuel precedence left_ op rest,
     AstParser.parseOperators (S fuel) precedence left_ (operator_token op :: rest) =
     if (precedence_of op <? precedence)%nat then Ok (left_, operator_token op :: rest)
     else
       let* (right_, ts) :=
         AstParser.parseExpression fuel
           (if bool_decide (op = B_pow) then precedence_of op else precedence_of op + 1)%nat
           rest in
       AstParser.parseOperators fuel precedence (BinaryNode left_ op right_) ts)
  ∧ (∀ a op1 b op2 c,
       AstParser.parse [atom_token a; operator_token op1; atom_token b;
                        operator_token op2; atom_token c] =
       Ok (if (precedence_of op1 <? precedence_of op2)%nat
              || bool_decide (op1 = B_pow) && bool_decide (op2 = B_pow)
           then BinaryNode (atom_node a) op1 (BinaryNode (atom_node b) op2 (atom_node c))
           else BinaryNode (BinaryNode (atom_node a) op1 (atom_node b)) op2 (atom_node c)))
  ∧ (let two := ValueNode (ConstantToken "2" (VInt 2)) in
     let three := ValueNode (ConstantToken "3" (VInt 3)) in
     Sample.ast "2 ** 3 ** 2" = Ok (BinaryNode two B_pow (BinaryNode three B_pow two))
     ∧ Sample.ast "(2 ** 3) ** 2" = Ok (BinaryNode (BinaryNode two B_pow three) B_pow two))
  ∧ (Sample.run Sample.world0 [] "2 ** 3 ** 2").1 = Ok (VInt 512)
  ∧ (Sample.run Sample.world0 [] "(2 ** 3) ** 2").1 = Ok (VInt 64).
Proof.
  split; [exact parseOperators_operator|].
  split; [exact three_operands|].
  vm_compute. repeat split; reflexivity.
Qed.

(* ================================================================= *)
(** ** Subscripts: indexing and slicing *)

Import AstParser.

Lemma separated_skipWhitespace d ts : separated d (skipWhitespace ts) = separated d ts.
Proof. induction ts as [|[] ts IH]; simpl; auto. Qed.

Lemma tryConsumePunctuation_Some p ts ts' :
  tryConsumePunctuation p ts = Some ts' → ts = PunctuationToken p :: ts'.
Proof.
  destruct ts as [|[] ts]; try done. simpl. case_bool_decide; naive_solver.
Qed.

Lemma peekPunctuation_true p ts :
  peekPunctuation p ts = true → ∃ ts', ts = PunctuationToken p :: ts'.
Proof.
  destruct ts as [|[] ts]; try done. simpl. intros ?%bool_decide_eq_true. naive_solver.
Qed.

Ltac bind_ok H :=
  match type of H with
  | obind ?c _ = Ok _ =>
      let E := fresh "E" in
      destruct c as [[? ?]|?] eqn:E; [cbn [obind] in H | discriminate H]
  end.

Section Brackets.

Variable fuel : nat.
Hypothesis IHatom : ∀ ts n ts', parseAtom fuel ts = Ok (n, ts') → passes ts ts'.
Hypothesis IHexp : ∀ p ts n ts', parseExpression fuel p ts = Ok (n, ts') → passes ts ts'.
Hypothesis IHops : ∀ p l ts n ts', parseOperators fuel p l ts = Ok (n, ts') → passes ts ts'.
Hypothesis IHargs : ∀ args ts r ts', parseArguments fuel args ts = Ok (r, ts') → closes ts ts'.

Lemma parseAtom_passes ts n ts' : parseAtom (S fuel) ts = Ok (n, ts') → passes ts ts'.
Proof.
  intros H d. cbn [parseAtom] in H. rewrite <- (separated_skipWhitespace d ts).
  destruct (skipWhitespace ts) as [|token rest]; [done|].
  destruct token as [| | | | |]; try discriminate H.
  all: try by (injection H as <- <-).
  - destruct (Operations.unaryFromLiteral literal); [|done].
    destruct (negb _); [done|]. bind_ok H. injection H as <- <-.
    apply IHexp in E. apply (E d).
  - case_bool_decide; [subst literal|done]. bind_ok H.
    destruct (tryConsumePunctuation ")" _) as [ts2|] eqn:E'; [|done].
    injection H as -> ->.
    apply tryConsumePunctuation_Some in E'. apply IHexp in E.
    change (separated (S d) rest = separated d ts').
    by rewrite (E (S d)), <- separated_skipWhitespace, E'.
Qed.

Lemma parseExpression_passes p ts n ts' :
  parseExpression (S fuel) p ts = Ok (n, ts') → passes ts ts'.
Proof.
  intros H d. cbn [parseExpression] in H. bind_ok H.
  apply IHatom in E. apply IHops in H. by rewrite (E d).
Qed.

Lemma parseArguments_closes args ts r ts' :
  parseArguments (S fuel) args ts = Ok (r, ts') → closes ts ts'.
Proof.
  intros H d. cbn [parseArguments] in H. cbv zeta in H.
  rewrite <- (separated_skipWhitespace (S d) ts).
  destruct (tryConsumePunctuation ")" (skipWhitespace ts)) as [ts1|] eqn:E1.
  - injection H as <- <-. apply tryConsumePunctuation_Some in E1. by rewrite E1.
  - bind_ok H. apply IHexp in E. apply IHargs in H.
    rewrite (E (S d)), <- separated_skipWhitespace, <- (H d).
    destruct (tryConsumePunctuation "," _) as [ts2|] eqn:E2; [|done].
    apply tryConsumePunctuation_Some in E2. by rewrite E2.
Qed.

Hypothesis IHslice :
  ∀ slice colons hasExpression flag ts r flag' ts',
    parseSlice fuel slice colons hasExpression flag ts = Ok (r, flag', ts') →
    slice_scanned slice colons hasExpression flag ts r flag' ts'.

Lemma parseSlice_separated slice colons hasExpression flag ts r flag' ts' :
  parseSlice (S fuel) slice colons hasExpression flag ts = Ok (r, flag', ts') →
  slice_scanned slice colons hasExpression flag ts r flag' ts'.
Proof.
  intros H. cbn [parseSlice] in H. unfold slice_scanned.
  destruct (peekPunctuation "," ts || peekPunctuation "]" ts) eqn:Hend.
  { assert (ts = ts' ∧ flag = flag') as [<- <-]
      by (destruct (hasExpression || _); by injection H).
    split; [done|]. split; [done|]. right. split; [done|]. split; [done|].
    intros -> Hs. destruct hasExpression; simpl in H.
    - destruct Hs as [e ->]. right. exists e. by injection H as <-.
    - left. by injection H as <-. }
  destruct (peekPunctuation ":" ts) eqn:Hcolon.
  - apply peekPunctuation_true in Hcolon as [rest ->]. simpl tail in H.
    apply IHslice in H as (Hpeek & Hin & Hflag).
    split; [done|]. split; [intros d; apply (Hin d)|].
    left. split; [|done]. by destruct Hflag as [[-> _]|[-> _]].
  - bind_ok H. apply IHexp in E. apply IHslice in H as (Hpeek & Hin & Hflag).
    split; [done|]. split; [intros d; by rewrite (E (S d))|].
    destruct Hflag as [[-> Hsep]|(-> & Hsep & Hplain)].
    + left. by rewrite (E 0%nat).
    + right. split; [done|]. split; [by rewrite (E 0%nat)|].
      intros -> Hs. apply Hplain; [done|].
      destruct hasExpression; [destruct Hs as [e ->]|rewrite Hs]; by eexists.
Qed.
Hypothesis IHsub :
  ∀ sub ts sub' ts',
    parseSubscript fuel sub ts = Ok (sub', ts') → subscript_scanned sub ts sub' ts'.

Lemma parseOperators_passes p l ts n ts' :
  parseOperators (S fuel) p l ts = Ok (n, ts') → passes ts ts'.
Proof.
  intros H d. cbn [parseOperators] in H. cbv zeta in H.
  rewrite <- (separated_skipWhitespace d ts).
  destruct (skipWhitespace ts) as [|token rest]; [by injection H as <- <-|].
  destruct token as [| | | | |]; try by injection H as <- <-.
  - destruct (Operations.binaryFromLiteral literal); [|done].
    destruct (negb _); [done|]. destruct (_ <? _)%nat; [by injection H as <- <-|].
    bind_ok H. apply IHexp in E. apply IHops in H.
    change (separated d rest = separated d ts'). rewrite (E d). apply (H d).
  - case_bool_decide; [subst literal|].
    { destruct (skipWhitespace rest) as [|[] ts1] eqn:E1; try done.
      apply IHops in H. change (separated d rest = separated d ts').
      rewrite <- (separated_skipWhitespace d rest), E1. apply (H d). }
    case_bool_decide; [subst literal|].
    { bind_ok H. apply IHargs in E. apply IHops in H.
      change (separated (S d) rest = separated d ts'). rewrite (E d). apply (H d). }
    case_bool_decide; [subst literal|by injection H as <- <-].
    destruct (peekPunctuation "]" _); [done|]. bind_ok H.
    case_bool_decide; [done|]. apply IHsub in E as [E _]. apply IHops in H.
    change (separated (S d) rest = separated d ts').
    rewrite <- (separated_skipWhitespace (S d) rest), (E d). apply (H d).
Qed.

Lemma parseSubscript_scanned sub ts sub' ts' :
  parseSubscript (S fuel) sub ts = Ok (sub', ts') → subscript_scanned sub ts sub' ts'.
Proof.
  intros H. cbn [parseSubscript] in H. cbv zeta in H.
  destruct (parseSlice fuel [] 0 false (isSlicing sub) (skipWhitespace ts))
    as [[[r flag'] ts1]|] eqn:E; [cbn [obind] in H|done].
  apply IHslice in E as (Hpeek & Hin & Hflag).
  assert (Hsep : flag' = true ∧ separated 0 ts = true
                 ∨ flag' = isSlicing sub ∧ separated 0 ts = separated 0 ts1
                   ∧ plain_slice r).
  { rewrite <- (separated_skipWhitespace 0 ts).
    destruct Hflag as [?|(? & ? & Hr)]; [by left|right].
    repeat split; [done..|]. by apply Hr. }
  clear Hflag.
  apply orb_true_iff in Hpeek as [[ts2 ->]%peekPunctuation_true
                                 |[ts2 ->]%peekPunctuation_true].
  - change (parseSubscript fuel
              {| sub_slices := sub_slices
                   match r with
                   | Some slice =>
                       {| sub_slices := sub_slices sub ++ [slice]; isSlicing := flag';
                          elementCount := S (elementCount sub) |}
                   | None =>
                       {| sub_slices := sub_slices sub; isSlicing := flag';
                          elementCount := elementCount sub |}
                   end;
                 isSlicing := true;
                 elementCount := elementCount
                   match r with
                   | Some slice =>
                       {| sub_slices := sub_slices sub ++ [slice]; isSlicing := flag';
                          elementCount := S (elementCount sub) |}
                   | None =>
                       {| sub_slices := sub_slices sub; isSlicing := flag';
                          elementCount := elementCount sub |}
                   end |} ts2 = Ok (sub', ts')) in H.
    apply IHsub in H as (Hclose & Hs & _). cbn [isSlicing orb] in Hs.
    split; [|split].
    + intros d. rewrite <- (separated_skipWhitespace (S d) ts), (Hin d). apply (Hclose d).
    + rewrite Hs. destruct Hsep as [[_ ->]|(_ & -> & _)]; by rewrite orb_true_r.
    + by rewrite Hs.
  - change (Ok (match r with
                | Some slice =>
                    {| sub_slices := sub_slices sub ++ [slice]; isSlicing := flag';
                       elementCount := S (elementCount sub) |}
                | None =>
                    {| sub_slices := sub_slices sub; isSlicing := flag';
                       elementCount := elementCount sub |}
                end, ts2) = Ok (sub', ts')) in H.
    injection H as <- <-.
    assert (Hs : isSlicing match r with
                           | Some slice =>
                               {| sub_slices := sub_slices sub ++ [slice];
                                  isSlicing := flag';
                                  elementCount := S (elementCount sub) |}
                           | None =>
                               {| sub_slices := sub_slices sub; isSlicing := flag';
                                  elementCount := elementCount sub |}
                           end = flag') by by destruct r.
    split; [|split].
    + intros d. by rewrite <- (separated_skipWhitespace (S d) ts), (Hin d).
    + rewrite Hs.
      destruct Hsep as [[-> ->]|(-> & -> & _)]; by rewrite ?orb_true_r, ?orb_false_r.
    + rewrite Hs. intros ->. destruct Hsep as [[? _]|(_ & _ & Hr)]; [done|].
      exists r. split; [done|]. destruct r; simpl.
      * split; [done|]. by rewrite Nat.add_1_r.
      * by rewrite app_nil_r, Nat.add_0_r.
Qed.

End Brackets.

Lemma parser_brackets fuel :
  (∀ ts n ts', parseAtom fuel ts = Ok (n, ts') → passes ts ts')
  ∧ (∀ p ts n ts', parseExpression fuel p ts = Ok (n, ts') → passes ts ts')
  ∧ (∀ p l ts n ts', parseOperators fuel p l ts = Ok (n, ts') → passes ts ts')
  ∧ (∀ args ts r ts', parseArguments fuel args ts = Ok (r, ts') → closes ts ts')
  ∧ (∀ slice colons hasExpression flag ts r flag' ts',
       parseSlice fuel slice colons hasExpression flag ts = Ok (r, flag', ts') →
       slice_scanned slice colons hasExpression flag ts r flag' ts')
  ∧ (∀ sub ts sub' ts',
       parseSubscript fuel sub ts = Ok (sub', ts') → subscript_scanned sub ts sub' ts').
Proof.
  induction fuel as [|fuel (IHatom & IHexp & IHops & IHargs & IHslice & IHsub)].
  { repeat split; intros; discriminate. }
  split; [intros *; by apply parseAtom_passes|].
  split; [intros *; by apply parseExpression_passes|].
  split; [intros *; by apply parseOperators_passes|].
  split; [intros *; by apply parseArguments_closes|].
  split; [intros *; by apply parseSlice_separated|].
  intros *; by apply parseSubscript_scanned.
Qed.

(** *** Termination of the parser

    Every call that returns has consumed tokens, so a fuel of four calls per
    token is never used up. *)

Lemma length_skipWhitespace ts : (length (skipWhitespace ts) ≤ length ts)%nat.
Proof. induction ts as [|[] ts IH]; simpl; lia. Qed.

Section Consumed.

Variable fuel : nat.
Hypothesis IHatom :
  ∀ ts n ts', parseAtom fuel ts = Ok (n, ts') → (length ts' < length ts)%nat.
Hypothesis IHexp :
  ∀ p ts n ts', parseExpression fuel p ts = Ok (n, ts') → (length ts' < length ts)%nat.
Hypothesis IHops :
  ∀ p l ts n ts', parseOperators fuel p l ts = Ok (n, ts') → (length ts' ≤ length ts)%nat.
Hypothesis IHargs :
  ∀ args ts r ts', parseArguments fuel args ts = Ok (r, ts') → (length ts' < length ts)%nat.
Hypothesis IHslice :
  ∀ slice colons hasExpression flag ts r ts',
    parseSlice fuel slice colons hasExpression flag ts = Ok (r, ts') →
    (length ts' ≤ length ts)%nat.
Hypothesis IHsub :
  ∀ sub ts sub' ts', parseSubscript fuel sub ts = Ok (sub', ts') →
    (length ts' < length ts)%nat.

Lemma parseAtom_consumes ts n ts' :
  parseAtom (S fuel) ts = Ok (n, ts') → (length ts' < length ts)%nat.
Proof.
  intros H. cbn [parseAtom] in H. pose proof (length_skipWhitespace ts) as Hws.
  destruct (skipWhitespace ts) as [|token rest]; [done|]. simpl in Hws.
  destruct token as [| | | | |]; try discriminate H.
  all: try (injection H as <- <-; lia).
  - destruct (Operations.unaryFromLiteral literal); [|done].
    destruct (negb _); [done|]. bind_ok H. injection H as <- <-.
    apply IHexp in E. lia.
  - case_bool_decide; [subst literal|done]. bind_ok H.
    destruct (tryConsumePunctuation ")" _) as [ts2|] eqn:E'; [|done].
    injection H as -> ->.
    apply tryConsumePunctuation_Some in E'. apply IHexp in E.
    pose proof (length_skipWhitespace l) as Hl. rewrite E' in Hl. simpl in Hl. lia.
Qed.

Lemma parseExpression_consumes p ts n ts' :
  parseExpression (S fuel) p ts = Ok (n, ts') → (length ts' < length ts)%nat.
Proof.
  intros H. cbn [parseExpression] in H. bind_ok H.
  apply IHatom in E. apply IHops in H. lia.
Qed.

Lemma parseOperators_consumes p l ts n ts' :
  parseOperators (S fuel) p l ts = Ok (n, ts') → (length ts' ≤ length ts)%nat.
Proof.
  intros H. cbn [parseOperators] in H. cbv zeta in H.
  pose proof (length_skipWhitespace ts) as Hws.
  destruct (skipWhitespace ts) as [|token rest]; [by injection H as <- <-|].
  simpl in Hws.
  destruct token as [| | | | |]; try (injection H as <- <-; simpl; lia).
  - destruct (Operations.binaryFromLiteral literal); [|done].
    destruct (negb _); [done|].
    destruct (_ <? _)%nat; [injection H as <- <-; simpl; lia|].
    bind_ok H. apply IHexp in E. apply IHops in H. lia.
  - case_bool_decide; [subst literal|].
    { pose proof (length_skipWhitespace rest) as Hr.
      destruct (skipWhitespace rest) as [|[] ts1] eqn:E1; try done.
      apply IHops in H. simpl in Hr. lia. }
    case_bool_decide; [subst literal|].
    { bind_ok H. apply IHargs in E. apply IHops in H. lia. }
    case_bool_decide; [subst literal|injection H as <- <-; simpl; lia].
    destruct (peekPunctuation "]" _); [done|]. bind_ok H.
    case_bool_decide; [done|]. apply IHsub in E. apply IHops in H.
    pose proof (length_skipWhitespace rest). lia.
Qed.

Lemma parseArguments_consumes args ts r ts' :
  parseArguments (S fuel) args ts = Ok (r, ts') → (length ts' < length ts)%nat.
Proof.
  intros H. cbn [parseArguments] in H. cbv zeta in H.
  pose proof (length_skipWhitespace ts) as Hws.
  destruct (tryConsumePunctuation ")" (skipWhitespace ts)) as [ts1|] eqn:E1.
  - injection H as <- <-. apply tryConsumePunctuation_Some in E1.
    rewrite E1 in Hws. simpl in Hws. lia.
  - bind_ok H. apply IHexp in E. apply IHargs in H.
    pose proof (length_skipWhitespace l) as Hl.
    destruct (tryConsumePunctuation "," _) as [ts2|] eqn:E2; simpl in H; [|lia].
    apply tryConsumePunctuation_Some in E2. rewrite E2 in Hl. simpl in Hl. lia.
Qed.

Lemma parseSlice_consumes slice colons hasExpression flag ts r ts' :
  parseSlice (S fuel) slice colons hasExpression flag ts = Ok (r, ts') →
  (length ts' ≤ length ts)%nat.
Proof.
  intros H. cbn [parseSlice] in H.
  destruct (peekPunctuation "," ts || peekPunctuation "]" ts).
  { destruct (hasExpression || _); by injection H as <- <-. }
  destruct (peekPunctuation ":" ts) eqn:Hcolon.
  - apply peekPunctuation_true in Hcolon as [rest ->]. simpl tail in H.
    apply IHslice in H. simpl. lia.
  - bind_ok H. apply IHexp in E. apply IHslice in H. lia.
Qed.

Lemma parseSubscript_consumes sub ts sub' ts' :
  parseSubscript (S fuel) sub ts = Ok (sub', ts') → (length ts' < length ts)%nat.
Proof.
  intros H. cbn [parseSubscript] in H. cbv zeta in H.
  pose proof (length_skipWhitespace ts) as Hws.
  destruct (parseSlice fuel [] 0 false (isSlicing sub) (skipWhitespace ts))
    as [[[r flag'] ts1]|] eqn:E; [cbn [obind] in H|done].
  apply IHslice in E. pose proof (length_skipWhitespace ts1) as Hws1.
  destruct (tryConsumePunctuation "," (skipWhitespace ts1)) as [ts2|] eqn:E2.
  { apply tryConsumePunctuation_Some in E2. rewrite E2 in Hws1. simpl in Hws1.
    apply IHsub in H. lia. }
  destruct (tryConsumePunctuation "]" (skipWhitespace ts1)) as [ts2|] eqn:E3.
  { apply tryConsumePunctuation_Some in E3. rewrite E3 in Hws1. simpl in Hws1.
    injection H as <- <-. lia. }
  apply IHsub in H. lia.
Qed.

End Consumed.

Lemma parser_consumes fuel :
  (∀ ts n ts', parseAtom fuel ts = Ok (n, ts') → (length ts' < length ts)%nat)
  ∧ (∀ p ts n ts',
       parseExpression fuel p ts = Ok (n, ts') → (length ts' < length ts)%nat)
  ∧ (∀ p l ts n ts',
       parseOperators fuel p l ts = Ok (n, ts') → (length ts' ≤ length ts)%nat)
  ∧ (∀ args ts r ts',
       parseArguments fuel args ts = Ok (r, ts') → (length ts' < length ts)%nat)
  ∧ (∀ slice colons hasExpression flag ts r ts',
       parseSlice fuel slice colons hasExpression flag ts = Ok (r, ts') →
       (length ts' ≤ length ts)%nat)
  ∧ (∀ sub ts sub' ts',
       parseSubscript fuel sub ts = Ok (sub', ts') → (length ts' < length ts)%nat).
Proof.
  induction fuel as [|fuel (IHatom & IHexp & IHops & IHargs & IHslice & IHsub)].
  { repeat split; intros; discriminate. }
  split; [intros *; by apply parseAtom_consumes|].
  split; [intros *; by apply parseExpression_consumes|].
  split; [intros *; by apply parseOperators_consumes|].
  split; [intros *; by apply parseArguments_consumes|].
  split; [intros *; by apply parseSlice_consumes|].
  intros *; by apply parseSubscript_consumes.
Qed.

Ltac bind_fuel IH :=
  match goal with
  | |- obind ?c _ ≠ Throw OutOfFuel =>
      let E := fresh "E" in
      destruct c as [[? ?]|?] eqn:E; cbn [obind];
      [|intros [= ->]; revert E; apply IH; simpl in *; lia]
  end.

Section Fuel.

Variable fuel : nat.
Hypothesis IHatom :
  ∀ ts, (4 * length ts + 1 ≤ fuel)%nat → parseAtom fuel ts ≠ Throw OutOfFuel.
Hypothesis IHexp :
  ∀ p ts, (4 * length ts + 2 ≤ fuel)%nat → parseExpression fuel p ts ≠ Throw OutOfFuel.
Hypothesis IHops :
  ∀ p l ts, (4 * length ts + 1 ≤ fuel)%nat → parseOperators fuel p l ts ≠ Throw OutOfFuel.
Hypothesis IHargs :
  ∀ args ts, (4 * length ts + 3 ≤ fuel)%nat → parseArguments fuel args ts ≠ Throw OutOfFuel.
Hypothesis IHslice :
  ∀ slice colons hasExpression flag ts,
    (4 * length ts + 3 ≤ fuel)%nat →
    parseSlice fuel slice colons hasExpression flag ts ≠ Throw OutOfFuel.
Hypothesis IHsub :
  ∀ sub ts, (4 * length ts + 4 ≤ fuel)%nat → parseSubscript fuel sub ts ≠ Throw OutOfFuel.

Lemma parseAtom_fuel ts :
  (4 * length ts + 1 ≤ S fuel)%nat → parseAtom (S fuel) ts ≠ Throw OutOfFuel.
Proof.
  intros Hf. cbn [parseAtom]. pose proof (length_skipWhitespace ts) as Hws.
  destruct (skipWhitespace ts) as [|token rest]; [done|]. simpl in Hws.
  destruct token as [| | | | |]; try done.
  - destruct (Operations.unaryFromLiteral literal); [|done].
    destruct (negb _); [done|]. by bind_fuel IHexp.
  - case_bool_decide; [subst literal|done]. bind_fuel IHexp.
    by destruct (tryConsumePunctuation ")" _).
Qed.

Lemma parseExpression_fuel p ts :
  (4 * length ts + 2 ≤ S fuel)%nat → parseExpression (S fuel) p ts ≠ Throw OutOfFuel.
Proof.
  intros Hf. cbn [parseExpression]. bind_fuel IHatom.
  apply (proj1 (parser_consumes fuel)) in E. apply IHops. lia.
Qed.

Lemma parseOperators_fuel p l ts :
  (4 * length ts + 1 ≤ S fuel)%nat → parseOperators (S fuel) p l ts ≠ Throw OutOfFuel.
Proof.
  intros Hf. cbn [parseOperators]. cbv zeta.
  pose proof (length_skipWhitespace ts) as Hws.
  destruct (parser_consumes fuel) as (_ & Hexp & _ & Hargs & _ & Hsub).
  destruct (skipWhitespace ts) as [|token rest]; [done|]. simpl in Hws.
  destruct token as [| | | | |]; try done.
  - destruct (Operations.binaryFromLiteral literal); [|done].
    destruct (negb _); [done|]. destruct (_ <? _)%nat; [done|].
    bind_fuel IHexp. apply Hexp in E. apply IHops. lia.
  - case_bool_decide; [subst literal|].
    { pose proof (length_skipWhitespace rest) as Hr.
      destruct (skipWhitespace rest) as [|[] ts1] eqn:E1; try done.
      apply IHops. simpl in Hr. lia. }
    case_bool_decide; [subst literal|].
    { bind_fuel IHargs. apply Hargs in E. apply IHops. lia. }
    case_bool_decide; [subst literal|done].
    destruct (peekPunctuation "]" _); [done|].
    pose proof (length_skipWhitespace rest) as Hr.
    bind_fuel IHsub. case_bool_decide; [done|]. apply Hsub in E. apply IHops. lia.
Qed.

Lemma parseArguments_fuel args ts :
  (4 * length ts + 3 ≤ S fuel)%nat → parseArguments (S fuel) args ts ≠ Throw OutOfFuel.
Proof.
  intros Hf. cbn [parseArguments]. cbv zeta.
  pose proof (length_skipWhitespace ts) as Hws.
  destruct (parser_consumes fuel) as (_ & Hexp & _).
  destruct (tryConsumePunctuation ")" (skipWhitespace ts)) as [ts1|]; [done|].
  bind_fuel IHexp. apply Hexp in E. apply IHargs.
  pose proof (length_skipWhitespace l) as Hl.
  destruct (tryConsumePunctuation "," _) as [ts2|] eqn:E2; simpl; [|lia].
  apply tryConsumePunctuation_Some in E2. rewrite E2 in Hl. simpl in Hl. lia.
Qed.

Lemma parseSlice_fuel slice colons hasExpression flag ts :
  (4 * length ts + 3 ≤ S fuel)%nat →
  parseSlice (S fuel) slice colons hasExpression flag ts ≠ Throw OutOfFuel.
Proof.
  intros Hf. cbn [parseSlice].
  destruct (parser_consumes fuel) as (_ & Hexp & _).
  destruct (peekPunctuation "," ts || peekPunctuation "]" ts).
  { by destruct (hasExpression || _). }
  destruct (peekPunctuation ":" ts) eqn:Hcolon.
  - apply peekPunctuation_true in Hcolon as [rest ->]. simpl tail.
    apply IHslice. simpl in Hf. lia.
  - bind_fuel IHexp. apply Hexp in E. apply IHslice. lia.
Qed.

Lemma parseSubscript_fuel sub ts :
  (4 * length ts + 4 ≤ S fuel)%nat → parseSubscript (S fuel) sub ts ≠ Throw OutOfFuel.
Proof.
  intros Hf. cbn [parseSubscript]. cbv zeta.
  pose proof (length_skipWhitespace ts) as Hws.
  destruct (parser_consumes fuel) as (_ & _ & _ & _ & Hslice & _).
  destruct (parser_brackets fuel) as (_ & _ & _ & _ & Hpeek & _).
  destruct (parseSlice fuel [] 0 false (isSlicing sub) (skipWhitespace ts))
    as [[[r flag'] ts1]|e] eqn:E; cbn [obind];
    [|intros [= ->]; revert E; apply IHslice; lia].
  apply Hpeek in E as E'. destruct E' as [E' _]. apply Hslice in E.
  apply orb_true_iff in E' as [[ts2 ->]%peekPunctuation_true
                              |[ts2 ->]%peekPunctuation_true].
  - change (parseSubscript fuel
              {| sub_slices := sub_slices
                   match r with
                   | Some slice =>
                       {| sub_slices := sub_slices sub ++ [slice]; isSlicing := flag';
                          elementCount := S (elementCount sub) |}
                   | None =>
                       {| sub_slices := sub_slices sub; isSlicing := flag';
                          elementCount := elementCount sub |}
                   end;
                 isSlicing := true;
                 elementCount := elementCount
                   match r with
                   | Some slice =>
                       {| sub_slices := sub_slices sub ++ [slice]; isSlicing := flag';
                          elementCount := S (elementCount sub) |}
                   | None =>
                       {| sub_slices := sub_slices sub; isSlicing := flag';
                          elementCount := elementCount sub |}
                   end |} ts2 ≠ Throw OutOfFuel).
    apply IHsub. simpl in E. lia.
  - done.
Qed.

End Fuel.

Lemma parser_fuel fuel :
  (∀ ts, (4 * length ts + 1 ≤ fuel)%nat → parseAtom fuel ts ≠ Throw OutOfFuel)
  ∧ (∀ p ts,
       (4 * length ts + 2 ≤ fuel)%nat → parseExpression fuel p ts ≠ Throw OutOfFuel)
  ∧ (∀ p l ts,
       (4 * length ts + 1 ≤ fuel)%nat → parseOperators fuel p l ts ≠ Throw OutOfFuel)
  ∧ (∀ args ts,
       (4 * length ts + 3 ≤ fuel)%nat → parseArguments fuel args ts ≠ Throw OutOfFuel)
  ∧ (∀ slice colons hasExpression flag ts,
       (4 * length ts + 3 ≤ fuel)%nat →
       parseSlice fuel slice colons hasExpression flag ts ≠ Throw OutOfFuel)
  ∧ (∀ sub ts,
       (4 * length ts + 4 ≤ fuel)%nat → parseSubscript fuel sub ts ≠ Throw OutOfFuel).
Proof.
  induction fuel as [|fuel (IHatom & IHexp & IHops & IHargs & IHslice & IHsub)].
  { repeat split; intros; lia. }
  split; [intros *; by apply parseAtom_fuel|].
  split; [intros *; by apply parseExpression_fuel|].
  split; [intros *; by apply parseOperators_fuel|].
  split; [intros *; by apply parseArguments_fuel|].
  split; [intros *; by apply parseSlice_fuel|].
  intros *; by apply parseSubscript_fuel.
Qed.

(** The parser never stops for lack of fuel: whatever [parse] returns is
    what the loops of the source return. *)
Lemma parse_fuel tokens : parse tokens ≠ Throw OutOfFuel.
Proof.
  unfold parse. pose proof (length_skipWhitespace tokens) as Hws.
  destruct (skipWhitespace tokens) as [|t ts] eqn:E; [done|].
  destruct (parseExpression _ _ _) as [[n ts']|e] eqn:E'; cbn [obind].
  - by destruct (skipWhitespace ts').
  - intros [= ->]. revert E'. apply (parser_fuel (enough tokens)).
    unfold enough. lia.
Qed.

Lemma parseOperators_bracket fuel precedence left_ rest :
  parseOperators (S fuel) precedence left_ (PunctuationToken "[" :: rest) =
  if peekPunctuation "]" (skipWhitespace rest) then
    Throw (Error "Empty subscript is not allowed")
  else
    let* (sub, ts) := parseSubscript fuel no_subscript (skipWhitespace rest) in
    if bool_decide (elementCount sub = 0%nat) then
      Throw (Error "Empty indexing or slicing expression")
    else parseOperators fuel precedence (subscriptNode left_ sub) ts.
Proof. reflexivity. Qed.

(** C7 (counterexample).  [a[1,]] holds one dimension, the expression [1],
    and no colon; the comma after it makes the node a Slicing one. *)
Lemma C7_trailing_comma_makes_a_slicing :
  Sample.tokens "a[1,]" =
    Ok [IdentifierToken "a"; PunctuationToken "["; ConstantToken "1" (VInt 1);
        PunctuationToken ","; PunctuationToken "]"]
  ∧ Sample.ast "a[1,]" =
      Ok (SlicingNode (IdentifierNode "a")
            [only_start (ValueNode (ConstantToken "1" (VInt 1)))])
  ∧ Sample.ast "a[1]" =
      Ok (IndexingNode (IdentifierNode "a") (ValueNode (ConstantToken "1" (VInt 1)))).
Proof. vm_compute. repeat split; reflexivity. Qed.

(** C7 (amended).  A bracketed subscript that is parsed becomes a Slicing
    node exactly when a colon or a comma stands in the bracket, outside the
    parentheses and brackets nested in it, and otherwise an Indexing node
    whose index is the start of the only dimension read; [[:]] and [[::]]
    give a Slicing node with one dimension in which nothing is defined, and
    [[]] fails. *)
Theorem C7_subscript_node :
  (∀ fuel precedence left_ rest result,
     parseOperators (S fuel) precedence left_ (PunctuationToken "[" :: rest) = Ok result →
     ∃ sub ts node,
       parseSubscript fuel no_subscript (skipWhitespace rest) = Ok (sub, ts)
       ∧ parseOperators fuel precedence node ts = Ok result
       ∧ if separated 0 rest then node = SlicingNode left_ (sub_slices sub)
         else ∃ index,
             sub_slices sub = [only_start index] ∧ node = IndexingNode left_ index)
  ∧ (∀ fuel precedence left_ rest,
       parseOperators (4 + fuel) precedence left_
         (PunctuationToken "[" :: PunctuationToken ":" :: PunctuationToken "]" :: rest) =
       parseOperators (3 + fuel) precedence (SlicingNode left_ [empty_slice]) rest)
  ∧ (∀ fuel precedence left_ rest,
       parseOperators (5 + fuel) precedence left_
         (PunctuationToken "[" :: PunctuationToken ":" :: PunctuationToken ":"
          :: PunctuationToken "]" :: rest) =
       parseOperators (4 + fuel) precedence (SlicingNode left_ [empty_slice]) rest)
  ∧ (∀ fuel precedence left_ rest,
       parseOperators (S fuel) precedence left_
         (PunctuationToken "[" :: PunctuationToken "]" :: rest) =
       Throw (Error "Empty subscript is not allowed")).
Proof.
  split; [|repeat split; intros; reflexivity].
  intros fuel precedence left_ rest result H. rewrite parseOperators_bracket in H.
  destruct (peekPunctuation "]" _); [done|]. bind_ok H.
  case_bool_decide as Hcount; [done|].
  destruct (parser_brackets fuel) as (_ & _ & _ & _ & _ & Hsub).
  destruct (Hsub _ _ _ _ E) as (_ & Hslicing & Hplain).
  rewrite separated_skipWhitespace in Hslicing. cbn [isSlicing no_subscript orb] in Hslicing.
  eexists _, _, _. split; [done|]. split; [exact H|].
  destruct (separated 0 rest).
  - unfold subscriptNode. by rewrite Hslicing.
  - destruct (Hplain Hslicing) as (r & [->|[index ->]] & Hs & Hn); simpl in Hs, Hn; [done|].
    exists index. split; [done|]. unfold subscriptNode. by rewrite Hslicing, Hs.
Qed.

Lemma C7_subscript_node_witness :
  let one := ConstantToken "1" (VInt 1) in
  let rest := [one; PunctuationToken ":"; one; PunctuationToken ",";
               WhitespaceToken " "; one; PunctuationToken "]"] in
  let result :=
    (SlicingNode (IdentifierNode "a")
       [{| start := Some (ValueNode one); end_ := Some (ValueNode one); step := None |};
        only_start (ValueNode one)], []) in
  parseOperators 21 0 (IdentifierNode "a") (PunctuationToken "[" :: rest) = Ok result
  ∧ ∃ sub ts node,
      parseSubscript 20 no_subscript (skipWhitespace rest) = Ok (sub, ts)
      ∧ parseOperators 20 0 node ts = Ok result
      ∧ if separated 0 rest then node = SlicingNode (IdentifierNode "a") (sub_slices sub)
        else ∃ index,
            sub_slices sub = [only_start index]
            ∧ node = IndexingNode (IdentifierNode "a") index.
Proof.
  intros one rest result.
  assert (H : parseOperators 21 0 (IdentifierNode "a") (PunctuationToken "[" :: rest)
              = Ok result) by (vm_compute; reflexivity).
  split; [exact H|].
  exact (proj1 C7_subscript_node 20%nat 0%nat (IdentifierNode "a") rest result H).
Defined.

(** Subscripts through the tokenizer and the parser. *)
Example subscript_scenarios :
  Sample.ast "a[:]" = Ok (SlicingNode (IdentifierNode "a") [empty_slice])
  ∧ Sample.ast "a[::]" = Ok (SlicingNode (IdentifierNode "a") [empty_slice])
  ∧ Sample.ast "a[]" = Throw (Error "Empty subscript is not allowed")
  ∧ Sample.ast "a[,]" = Throw (Error "Empty indexing or slicing expression")
  ∧ Sample.ast "a[f(1, 2)]" =
      Ok (IndexingNode (IdentifierNode "a")
            (InvokeNode (IdentifierNode "f")
               [ValueNode (ConstantToken "1" (VInt 1));
                ValueNode (ConstantToken "2" (VInt 2))]))
  ∧ Sample.ast "a[b[1:2]]" =
      Ok (IndexingNode (IdentifierNode "a")
            (SlicingNode (IdentifierNode "b")
               [{| start := Some (ValueNode (ConstantToken "1" (VInt 1)));
                   end_ := Some (ValueNode (ConstantToken "2" (VInt 2)));
                   step := None |}])).
Proof. vm_compute. repeat split; reflexivity. Qed.

(* ================================================================= *)
(** ** More on the parser *)

Lemma unaryFromLiteral_literal u :
  Operations.unaryFromLiteral (meta_literal (Operations.meta (OpUnary u))) = Some u.
Proof. destruct u; vm_compute; reflexivity. Qed.

Lemma parseAtom_unary fuel u rest :
  parseAtom (S fuel) (unary_token u :: rest) =
  let* (operand, ts) := parseExpression fuel 10 rest in
  Ok (UnaryNode u operand, ts).
Proof.
  unfold unary_token. cbn [parseAtom skipWhitespace].
  rewrite unaryFromLiteral_literal. by destruct u.
Qed.

Lemma parseExpression_step fuel precedence ts :
  parseExpression (S fuel) precedence ts =
  let* (left_, ts) := parseAtom fuel ts in parseOperators fuel precedence left_ ts.
Proof. reflexivity. Qed.

Lemma climb_unary fuel u a op b :
  parseExpression (8 + fuel) 0
    [unary_token u; atom_token a; operator_token op; atom_token b] =
  Ok (if (precedence_of op <? 10)%nat
      then BinaryNode (UnaryNode u (atom_node a)) op (atom_node b)
      else UnaryNode u (BinaryNode (atom_node a) op (atom_node b)), []).
Proof.
  change (8 + fuel)%nat with (S (S (S (S (S (S (S (S fuel)))))))).
  rewrite parseExpression_step, parseAtom_unary, parseExpression_atom,
    parseOperators_operator.
  destruct (precedence_of op <? 10)%nat eqn:Hp; cbn [obind].
  - rewrite parseOperators_operator.
    replace (precedence_of op <? 0)%nat with false by by destruct op.
    rewrite parseExpression_atom, parseOperators_end. cbn [obind].
    by rewrite parseOperators_end.
  - rewrite parseExpression_atom, parseOperators_end. cbn [obind].
    rewrite parseOperators_end. cbn [obind]. by rewrite parseOperators_end.
Qed.

(** A unary operator is parsed with the precedence of the multiplicative
    operators: its operand takes in a following [*], [/], [%] or [**] with
    its right operand, and stops before every operator of lower precedence.
    So [-a * b] is [-(a * b)], and [-a + b] is [(-a) + b]. *)
Theorem unary_operand u a op b :
  parse [unary_token u; atom_token a; operator_token op; atom_token b] =
  Ok (if (precedence_of op <? 10)%nat
      then BinaryNode (UnaryNode u (atom_node a)) op (atom_node b)
      else UnaryNode u (BinaryNode (atom_node a) op (atom_node b))).
Proof.
  unfold parse.
  change (skipWhitespace (unary_token u :: ?l)) with (unary_token u :: l).
  change (enough _) with (8 + 12)%nat.
  rewrite climb_unary. reflexivity.
Qed.

Lemma braces_cons t ts :
  braces (t :: ts) = ((if is_brace t then 1 else 0) + braces ts)%nat.
Proof.
  unfold braces. rewrite filter_cons. destruct (is_brace t); by case_decide.
Qed.

Lemma braces_skipWhitespace ts : braces (skipWhitespace ts) = braces ts.
Proof. induction ts as [|[] ts IH]; done. Qed.

Lemma braces_plain t ts : is_brace t = false → braces (t :: ts) = braces ts.
Proof. intros H. by rewrite braces_cons, H. Qed.

Section Braces.

Variable fuel : nat.
Hypothesis IHatom : ∀ ts n ts', parseAtom fuel ts = Ok (n, ts') → braces ts = braces ts'.
Hypothesis IHexp :
  ∀ p ts n ts', parseExpression fuel p ts = Ok (n, ts') → braces ts = braces ts'.
Hypothesis IHops :
  ∀ p l ts n ts', parseOperators fuel p l ts = Ok (n, ts') → braces ts = braces ts'.
Hypothesis IHargs :
  ∀ args ts r ts', parseArguments fuel args ts = Ok (r, ts') → braces ts = braces ts'.
Hypothesis IHslice :
  ∀ slice colons hasExpression flag ts r ts',
    parseSlice fuel slice colons hasExpression flag ts = Ok (r, ts') →
    braces ts = braces ts'.
Hypothesis IHsub :
  ∀ sub ts sub' ts', parseSubscript fuel sub ts = Ok (sub', ts') → braces ts = braces ts'.

Lemma parseAtom_braces ts n ts' :
  parseAtom (S fuel) ts = Ok (n, ts') → braces ts = braces ts'.
Proof.
  intros H. cbn [parseAtom] in H. rewrite <- (braces_skipWhitespace ts).
  destruct (skipWhitespace ts) as [|token rest]; [done|].
  destruct token as [| | | | |]; try discriminate H.
  all: try by (injection H as <- <-).
  - destruct (Operations.unaryFromLiteral literal); [|done].
    destruct (negb _); [done|]. bind_ok H. injection H as <- <-.
    apply IHexp in E. by rewrite braces_plain.
  - case_bool_decide; [subst literal|done]. bind_ok H.
    destruct (tryConsumePunctuation ")" _) as [ts2|] eqn:E'; [|done].
    injection H as -> ->.
    apply tryConsumePunctuation_Some in E'. apply IHexp in E.
    rewrite braces_plain, E, <- braces_skipWhitespace, E' by done.
    by rewrite braces_plain.
Qed.

Lemma parseExpression_braces p ts n ts' :
  parseExpression (S fuel) p ts = Ok (n, ts') → braces ts = braces ts'.
Proof.
  intros H. cbn [parseExpression] in H. bind_ok H.
  apply IHatom in E. apply IHops in H. congruence.
Qed.

Lemma parseOperators_braces p l ts n ts' :
  parseOperators (S fuel) p l ts = Ok (n, ts') → braces ts = braces ts'.
Proof.
  intros H. cbn [parseOperators] in H. cbv zeta in H.
  rewrite <- (braces_skipWhitespace ts).
  destruct (skipWhitespace ts) as [|token rest]; [by injection H as <- <-|].
  destruct token as [| | | | |]; try by injection H as <- <-.
  - destruct (Operations.binaryFromLiteral literal); [|done].
    destruct (negb _); [done|]. destruct (_ <? _)%nat; [by injection H as <- <-|].
    bind_ok H. apply IHexp in E. apply IHops in H.
    rewrite braces_plain by done. congruence.
  - case_bool_decide; [subst literal|].
    { destruct (skipWhitespace rest) as [|[] ts1] eqn:E1; try done.
      apply IHops in H.
      rewrite braces_plain, <- (braces_skipWhitespace rest), E1, braces_plain by done.
      done. }
    case_bool_decide; [subst literal|].
    { bind_ok H. apply IHargs in E. apply IHops in H.
      rewrite braces_plain by done. congruence. }
    case_bool_decide; [subst literal|by injection H as <- <-].
    destruct (peekPunctuation "]" _); [done|]. bind_ok H.
    case_bool_decide; [done|]. apply IHsub in E. apply IHops in H.
    rewrite braces_plain, <- (braces_skipWhitespace rest) by done. congruence.
Qed.

Lemma parseArguments_braces args ts r ts' :
  parseArguments (S fuel) args ts = Ok (r, ts') → braces ts = braces ts'.
Proof.
  intros H. cbn [parseArguments] in H. cbv zeta in H.
  rewrite <- (braces_skipWhitespace ts).
  destruct (tryConsumePunctuation ")" (skipWhitespace ts)) as [ts1|] eqn:E1.
  - injection H as <- <-. apply tryConsumePunctuation_Some in E1.
    by rewrite E1, braces_plain.
  - bind_ok H. apply IHexp in E. apply IHargs in H.
    rewrite E, <- braces_skipWhitespace, <- H.
    destruct (tryConsumePunctuation "," _) as [ts2|] eqn:E2; [|done].
    apply tryConsumePunctuation_Some in E2. by rewrite E2, braces_plain.
Qed.

Lemma parseSlice_braces slice colons hasExpression flag ts r ts' :
  parseSlice (S fuel) slice colons hasExpression flag ts = Ok (r, ts') →
  braces ts = braces ts'.
Proof.
  intros H. cbn [parseSlice] in H.
  destruct (peekPunctuation "," ts || peekPunctuation "]" ts).
  { destruct (hasExpression || _); by injection H as <- <-. }
  destruct (peekPunctuation ":" ts) eqn:Hcolon.
  - apply peekPunctuation_true in Hcolon as [rest ->]. simpl tail in H.
    apply IHslice in H. by rewrite braces_plain.
  - bind_ok H. apply IHexp in E. apply IHslice in H. congruence.
Qed.

Lemma parseSubscript_braces sub ts sub' ts' :
  parseSubscript (S fuel) sub ts = Ok (sub', ts') → braces ts = braces ts'.
Proof.
  intros H. cbn [parseSubscript] in H. cbv zeta in H.
  rewrite <- (braces_skipWhitespace ts).
  destruct (parseSlice fuel [] 0 false (isSlicing sub) (skipWhitespace ts))
    as [[[r flag'] ts1]|] eqn:E; [cbn [obind] in H|done].
  apply IHslice in E. rewrite E, <- (braces_skipWhitespace ts1).
  destruct (tryConsumePunctuation "," (skipWhitespace ts1)) as [ts2|] eqn:E2.
  { apply tryConsumePunctuation_Some in E2. apply IHsub in H.
    by rewrite E2, braces_plain. }
  destruct (tryConsumePunctuation "]" (skipWhitespace ts1)) as [ts2|] eqn:E3.
  { apply tryConsumePunctuation_Some in E3. injection H as <- <-.
    by rewrite E3, braces_plain. }
  apply IHsub in H. by rewrite braces_skipWhitespace in H |- *.
Qed.

End Braces.

Lemma parser_braces fuel :
  (∀ ts n ts', parseAtom fuel ts = Ok (n, ts') → braces ts = braces ts')
  ∧ (∀ p ts n ts', parseExpression fuel p ts = Ok (n, ts') → braces ts = braces ts')
  ∧ (∀ p l ts n ts', parseOperators fuel p l ts = Ok (n, ts') → braces ts = braces ts')
  ∧ (∀ args ts r ts', parseArguments fuel args ts = Ok (r, ts') → braces ts = braces ts')
  ∧ (∀ slice colons hasExpression flag ts r ts',
       parseSlice fuel slice colons hasExpression flag ts = Ok (r, ts') →
       braces ts = braces ts')
  ∧ (∀ sub ts sub' ts',
       parseSubscript fuel sub ts = Ok (sub', ts') → braces ts = braces ts').
Proof.
  induction fuel as [|fuel (IHatom & IHexp & IHops & IHargs & IHslice & IHsub)].
  { repeat split; intros; discriminate. }
  split; [intros *; by apply parseAtom_braces|].
  split; [intros *; by apply parseExpression_braces|].
  split; [intros *; by apply parseOperators_braces|].
  split; [intros *; by apply parseArguments_braces|].
  split; [intros *; by apply parseSlice_braces|].
  intros *; by apply parseSubscript_braces.
Qed.

(** No token list that holds a brace is parsed: the tokenizer makes a
    punctuation token of [{] and of [}], and no rule of the parser consumes
    one. *)
Theorem braces_are_never_parsed tokens node :
  parse tokens = Ok node →
  (PunctuationToken "{" ∉ tokens) ∧ (PunctuationToken "}" ∉ tokens).
Proof.
  unfold parse. intros H.
  assert (Hb : braces tokens = 0%nat).
  { rewrite <- braces_skipWhitespace.
    destruct (skipWhitespace tokens) as [|t ts]; [done|].
    bind_ok H. apply (parser_braces (enough tokens)) in E. rewrite E.
    rewrite <- braces_skipWhitespace. by destruct (skipWhitespace l). }
  unfold braces in Hb. apply length_zero_iff_nil in Hb.
  split; intros Hin.
  - assert (PunctuationToken "{" ∈ filter (λ t, is_brace t = true) tokens)
      by by apply list_elem_of_filter.
    rewrite Hb in *. by eapply not_elem_of_nil.
  - assert (PunctuationToken "}" ∈ filter (λ t, is_brace t = true) tokens)
      by by apply list_elem_of_filter.
    rewrite Hb in *. by eapply not_elem_of_nil.
Qed.

Lemma braces_are_never_parsed_witness :
  parse [IdentifierToken "a"; PunctuationToken "("; PunctuationToken ")"]
  = Ok (InvokeNode (IdentifierNode "a") [])
  ∧ (PunctuationToken "{"
     ∉ [IdentifierToken "a"; PunctuationToken "("; PunctuationToken ")"])
  ∧ (PunctuationToken "}"
     ∉ [IdentifierToken "a"; PunctuationToken "("; PunctuationToken ")"]).
Proof.
  split; [reflexivity|].
  apply (braces_are_never_parsed
           [IdentifierToken "a"; PunctuationToken "("; PunctuationToken ")"]
           (InvokeNode (IdentifierNode "a") [])).
  reflexivity.
Defined.







(* ================================================================= *)
(** ** The operation registry *)

Lemma literal_map_entry l e :
  Operations.OPERATOR_LITERAL_TO_NAME_MAP !! l = Some e →
  (∀ u, e.1 = Some u → meta_literal (Operations.meta (OpUnary u)) = l)
  ∧ (∀ b, e.2 = Some b → meta_literal (Operations.meta (OpBinary b)) = l).
Proof.
  intros H.
  pose proof (proj2 (elem_of_map_to_list Operations.OPERATOR_LITERAL_TO_NAME_MAP l e) H)
    as Hin. clear H.
  match type of Hin with _ ∈ ?m => remember m as L eqn:HL in Hin end.
  vm_compute in HL. subst L. apply list_elem_of_In in Hin. cbn [In] in Hin.
  repeat (destruct Hin as [Hin|Hin];
          [injection Hin as <- <-; split; intros ? [= <-]; reflexivity|]).
  done.
Qed.

(** The map from operator literals to names, read back: a literal gives a
    binary operation exactly when it is the literal of that operation in the
    registry, and likewise for the unary operations.  No two operations of
    one kind share a literal; [-] and [+] are the literals of a unary and of
    a binary operation. *)
Theorem operator_literals l :
  (∀ b, Operations.binaryFromLiteral l = Some b
        ↔ meta_literal (Operations.meta (OpBinary b)) = l)
  ∧ (∀ u, Operations.unaryFromLiteral l = Some u
          ↔ meta_literal (Operations.meta (OpUnary u)) = l).
Proof.
  split; intros op; split.
  - unfold Operations.binaryFromLiteral. intros H.
    destruct (Operations.OPERATOR_LITERAL_TO_NAME_MAP !! l) as [e|] eqn:E; [|done].
    by apply (literal_map_entry l e).
  - intros <-. apply binaryFromLiteral_literal.
  - unfold Operations.unaryFromLiteral. intros H.
    destruct (Operations.OPERATOR_LITERAL_TO_NAME_MAP !! l) as [e|] eqn:E; [|done].
    by apply (literal_map_entry l e).
  - intros <-. apply unaryFromLiteral_literal.
Qed.

(* ================================================================= *)
(** ** The tokenizer *)

Lemma string_app_cons c a b : String c a +:+ b = String c (a +:+ b).
Proof. reflexivity. Qed.

Lemma string_app_nil_l a : EmptyString +:+ a = a.
Proof. reflexivity. Qed.

Lemma take_while_app p s m r : take_while p s = (m, r) → s = m +:+ r.
Proof.
  revert m r. induction s as [|c s IH]; intros m r H; simpl in H.
  - by injection H as <- <-.
  - destruct (p c).
    + destruct (take_while p s) as [m' r'] eqn:E. injection H as <- <-.
      rewrite string_app_cons. f_equal. by apply IH.
    + by injection H as <- <-.
Qed.

Lemma non_empty_length s : non_empty s = true → (1 ≤ String.length s)%nat.
Proof. destruct s; [done|simpl; lia]. Qed.

Lemma string_length_app a b :
  String.length (a +:+ b) = (String.length a + String.length b)%nat.
Proof.
  induction a as [|c a IH]; [done|]. rewrite string_app_cons. simpl. by rewrite IH.
Qed.

Lemma string_app_assoc a b c : (a +:+ b) +:+ c = a +:+ (b +:+ c).
Proof.
  induction a as [|x a IH]; [done|]. rewrite !string_app_cons. by rewrite IH.
Qed.

Lemma string_app_nil_r a : a +:+ EmptyString = a.
Proof. induction a as [|x a IH]; [done|]. rewrite string_app_cons. by rewrite IH. Qed.

Lemma starts_with_app p s : starts_with p s = true → ∃ r, s = p +:+ r.
Proof.
  revert s. induction p as [|a p IH]; intros s H; [by exists s|].
  destruct s as [|b s]; [done|]. simpl in H.
  apply andb_true_iff in H as [H1 H]. apply bool_decide_eq_true in H1 as ->.
  destruct (IH _ H) as [r ->]. by exists r.
Qed.

Lemma first_match_app alternatives s m :
  first_match alternatives s = Some m → m ∈ alternatives ∧ ∃ r, s = m +:+ r.
Proof.
  induction alternatives as [|a l IH]; [done|]. simpl.
  destruct (starts_with a s) eqn:E.
  - intros [= <-]. split; [by left|]. by apply starts_with_app.
  - intros [? ?]%IH. split; [by right|done].
Qed.

Lemma re_whitespace_prefix : matches_prefix re_whitespace.
Proof.
  intros s m. unfold re_whitespace.
  destruct (take_while is_space s) as [m' r] eqn:E.
  destruct (non_empty m') eqn:Hm; [|done]. intros [= <-].
  split; [by apply non_empty_length|]. exists r. by eapply take_while_app.
Qed.

Lemma re_operator_prefix : matches_prefix re_operator.
Proof.
  intros s m. unfold re_operator.
  destruct (first_match _ s) as [m'|] eqn:E.
  - intros [= <-]. apply first_match_app in E as [Hin Hr]. split; [|done].
    apply list_elem_of_In in Hin. cbn [In] in Hin.
    repeat (destruct Hin as [<-|Hin]; [simpl; lia|]). done.
  - destruct s as [|c s]; [done|]. destruct (char_in _ c); [|done].
    intros [= <-]. split; [simpl; lia|]. by exists s.
Qed.

Lemma re_identifier_prefix ID_Start ID_Continue :
  matches_prefix (re_identifier ID_Start ID_Continue).
Proof.
  intros s m. unfold re_identifier. destruct s as [|c s]; [done|].
  destruct (_ || _); [|done].
  destruct (take_while _ s) as [m' r] eqn:E. intros [= <-].
  split; [simpl; lia|]. exists r. rewrite string_app_cons. f_equal.
  by eapply take_while_app.
Qed.

Lemma re_string_body_app q s m : re_string_body q s = Some m → ∃ r, s = m +:+ r.
Proof.
  remember (String.length s) as n eqn:Hn. revert s m Hn.
  induction n as [n IH] using lt_wf_ind. intros s m Hn.
  destruct s as [|c s]; [done|]. cbn [re_string_body].
  case_bool_decide.
  { intros [= <-]. by exists s. }
  case_bool_decide.
  - destruct s as [|e s]; [done|]. destruct (is_line_terminator e); [done|].
    destruct (re_string_body q s) as [m'|] eqn:E; [|done]. intros [= <-].
    destruct (IH (String.length s)) with (s := s) (m := m') as [r ->];
      [simpl in Hn; lia|done..|].
    by exists r.
  - destruct (re_string_body q s) as [m'|] eqn:E; [|done]. intros [= <-].
    destruct (IH (String.length s)) with (s := s) (m := m') as [r ->];
      [simpl in Hn; lia|done..|].
    by exists r.
Qed.

Lemma re_string_prefix q : matches_prefix (re_string q).
Proof.
  intros s m. unfold re_string. destruct s as [|c s]; [done|].
  case_bool_decide; [|done].
  destruct (re_string_body q s) as [m'|] eqn:E; [|done]. intros [= <-].
  split; [simpl; lia|]. apply re_string_body_app in E as [r ->]. by exists r.
Qed.

Lemma re_number_prefix : matches_prefix re_number.
Proof.
  intros s m. unfold re_number.
  destruct (take_while is_digit s) as [d1 r1] eqn:E1.
  apply take_while_app in E1.
  set (mantissa := match r1 with
                   | String "."%char r2 => _
                   | _ => _
                   end).
  assert (Hm : ∀ m0 r0, mantissa = Some (m0, r0) →
                 (1 ≤ String.length m0)%nat ∧ s = m0 +:+ r0).
  { subst mantissa. intros m0 r0.
    assert (Hd1 : (if non_empty d1 then Some (d1, r1) else None) = Some (m0, r0) →
                  (1 ≤ String.length m0)%nat ∧ s = m0 +:+ r0).
    { destruct (non_empty d1) eqn:Hn; [|done]. intros [= <- <-].
      split; [by apply non_empty_length|done]. }
    destruct r1 as [|c r2]; [done|].
    destruct (decide (c = "."%char)) as [->|Hc].
    - destruct (take_while is_digit r2) as [d2 r3] eqn:E2.
      apply take_while_app in E2. destruct (non_empty d2) eqn:Hn2; [|done].
      intros [= <- <-]. rewrite !string_length_app. split; [simpl; lia|].
      by rewrite E1, E2, !string_app_assoc.
    - revert Hd1. clear -Hc. intros Hd1 H. apply Hd1. revert H.
      destruct c as [[] [] [] [] [] [] [] []]; try done. }
  destruct mantissa as [[m0 r0]|]; [|done].
  destruct (Hm m0 r0 eq_refl) as [Hlen Hs]. clear Hm.
  set (exponent := match r0 with
                   | String e r2 => _
                   | EmptyString => _
                   end).
  assert (He : (1 ≤ String.length exponent.1)%nat ∧ s = exponent.1 +:+ exponent.2).
  { subst exponent. destruct r0 as [|e r2]; [done|].
    destruct (char_in "eE" e); [|done].
    set (signed := match r2 with
                   | String sg r3 => _
                   | EmptyString => _
                   end).
    assert (Hsg : r2 = signed.1 +:+ signed.2).
    { subst signed. destruct r2 as [|sg r3]; [done|]. by destruct (char_in "+-" sg). }
    destruct signed as [sign r3]. simpl in Hsg.
    destruct (take_while is_digit r3) as [d r4] eqn:E4. apply take_while_app in E4.
    destruct (non_empty d); [|done]. simpl.
    rewrite !string_length_app. split; [lia|].
    rewrite Hs, Hsg, E4, !string_app_assoc. done. }
  destruct exponent as [m' r']. simpl in He. destruct He as [Hlen' Hs'].
  destruct r' as [|c r'']; [intros [= <-]; split; [done|by exists EmptyString]|].
  destruct (decide (c = "n"%char)) as [->|Hc].
  - intros [= <-]. rewrite string_length_app. split; [lia|].
    exists r''. by rewrite Hs', string_app_assoc.
  - intros H. assert (m = m') as ->.
    { revert H. clear -Hc. destruct c as [[] [] [] [] [] [] [] []]; try done; congruence. }
    split; [done|]. by eexists.
Qed.

Lemma drop_add a b s : drop (a + b) s = drop b (drop a s).
Proof.
  revert s. induction a as [|a IH]; intros s; [done|].
  destruct s as [|c s]; [by destruct b|]. apply IH.
Qed.

Lemma drop_app_length m r : drop (String.length m) (m +:+ r) = r.
Proof. induction m as [|c m IH]; [by destruct r|]. exact IH. Qed.

Lemma drop_all n s : (String.length s ≤ n)%nat → drop n s = EmptyString.
Proof.
  revert s. induction n as [|n IH]; intros [|c s] H; simpl in *; try done; try lia.
  apply IH. lia.
Qed.

Lemma next_matches w re m w' :
  matches_prefix re → StringWalker.next w re = (Some m, w') →
  w' = {| source := source w; position := (position w + String.length m)%nat |}
  ∧ (1 ≤ String.length m)%nat
  ∧ StringWalker.getRemaining w = m +:+ StringWalker.getRemaining w'.
Proof.
  intros Hre. unfold StringWalker.next.
  destruct (re (StringWalker.getRemaining w)) as [m'|] eqn:E; [|done].
  intros [= <- <-]. destruct (Hre _ _ E) as [Hm [r Hr]].
  split; [done|]. split; [done|]. rewrite Hr. f_equal.
  unfold StringWalker.getRemaining, substring_from in *. simpl.
  by rewrite drop_add, Hr, drop_app_length.
Qed.

Lemma next_fails w re w' : StringWalker.next w re = (None, w') → w' = w.
Proof.
  unfold StringWalker.next. destruct (re _); [done|]. by intros [= <-].
Qed.

Section Progress.

Variables ID_Start ID_Continue : ascii → bool.
Variable factory : list (string * StaticMethod).
Variable ignoreWhitespace : bool.

Local Abbreviation scan := (Tokenizer.scan ID_Start ID_Continue factory ignoreWhitespace).

Lemma scan_fuel fuel :
  ∀ w tokens,
    (String.length (source w) - position w < fuel)%nat →
    scan fuel w tokens ≠ Throw OutOfFuel.
Proof.
  induction fuel as [|fuel IH]; intros w tokens Hf; [lia|].
  cbn [Tokenizer.scan]. unfold StringWalker.hasRemaining.
  destruct (position w <? String.length (source w))%nat eqn:Hp; [|done].
  apply Nat.ltb_lt in Hp. cbn [negb].
  assert (Hnext : ∀ re m w' tokens',
             matches_prefix re → StringWalker.next w re = (Some m, w') →
             scan fuel w' tokens' ≠ Throw OutOfFuel).
  { intros re m w' tokens' Hre Hn.
    destruct (next_matches _ _ _ _ Hre Hn) as (-> & Hm & _).
    apply IH. simpl. lia. }
  assert (Hbind : ∀ (t : Outcome Token) (k : Token → Outcome (list Token)),
             (∀ e, t = Throw e → e ≠ OutOfFuel) →
             (∀ x, k x ≠ Throw OutOfFuel) →
             (let* x := t in k x) ≠ Throw OutOfFuel).
  { intros [x|e] k He Hk; [apply Hk|]. intros [= ->]. by eapply He. }
  assert (Hcall : ∀ name args e, call_static factory name args = Throw e → e ≠ OutOfFuel).
  { intros name args e. unfold call_static.
    destruct (get_static factory name) as [[f|f|f]|]; [| | |by intros [= <-]].
    - destruct args as [|[] ?]; by intros [= <-].
    - by destruct args.
    - destruct args as [|[] [|? ?]]; by intros [= <-]. }
  destruct (StringWalker.next w re_whitespace) as [[m|] w1] eqn:E1.
  { eapply Hnext; [apply re_whitespace_prefix|done]. }
  case_bool_decide.
  { apply Hbind; [apply Hcall|]. intros t. apply IH.
    unfold StringWalker.consume. simpl. lia. }
  destruct (StringWalker.next w re_operator) as [[m|] w2] eqn:E2.
  { apply Hbind; [apply Hcall|]. intros t.
    eapply Hnext; [apply re_operator_prefix|done]. }
  destruct (StringWalker.next w re_number) as [[m|] w3] eqn:E3.
  { destruct (number_value m) as [value|e] eqn:En; cbn [obind].
    - apply Hbind; [apply Hcall|]. intros t.
      eapply Hnext; [apply re_number_prefix|done].
    - intros [= ->]. unfold number_value, parseFloat, decimal_value in En.
      by repeat case_match. }
  destruct (StringWalker.next w (re_string squote)) as [[m|] w4] eqn:E4.
  { apply Hbind; [apply Hcall|]. intros t.
    eapply Hnext; [apply re_string_prefix|done]. }
  destruct (StringWalker.next w (re_string dquote)) as [[m|] w5] eqn:E5.
  { apply Hbind; [apply Hcall|]. intros t.
    eapply Hnext; [apply re_string_prefix|done]. }
  destruct (StringWalker.next w (re_identifier ID_Start ID_Continue))
    as [[m|] w6] eqn:E6; [|done].
  apply Hbind; [apply Hcall|]. intros t.
  eapply Hnext; [apply re_identifier_prefix|done].
Qed.

End Progress.

Lemma replace_escapes_fuel braced fuel s :
  replace_escapes braced fuel s ≠ Throw OutOfFuel.
Proof.
  revert s. induction fuel as [|fuel IH]; intros s; [done|].
  cbn [replace_escapes]. destruct s as [|c rest]; [done|].
  destruct (take_while _ _) as [hex after].
  destruct (_ && _).
  - destruct (fromCodePoint _) as [ch|e] eqn:Ef; cbn [obind];
      [|intros [= ->]; unfold fromCodePoint in Ef; by repeat case_match].
    match goal with
    | |- context [replace_escapes braced fuel ?x] =>
        destruct (replace_escapes braced fuel x) eqn:E; [done|]
    end.
    cbn [obind]. intros [= ->]. by eapply IH.
  - destruct (replace_escapes braced fuel rest) eqn:E; [done|].
    cbn [obind]. intros [= ->]. by eapply IH.
Qed.

Lemma instance_tokenize_fuel ID_Start ID_Continue factory input :
  Tokenizer.instance_tokenize ID_Start ID_Continue factory input ≠ Throw OutOfFuel.
Proof.
  unfold Tokenizer.instance_tokenize, Tokenizer.parseUnicodeEscapes.
  destruct (replace_escapes false _ input) as [once|e] eqn:E1; cbn [obind];
    [|intros [= ->]; by eapply replace_escapes_fuel].
  destruct (replace_escapes true _ once) as [src|e] eqn:E2; cbn [obind];
    [|intros [= ->]; by eapply replace_escapes_fuel].
  apply scan_fuel. simpl. lia.
Qed.

(** The tokenizer comes to an end on every input: each round of its loop
    consumes at least one character of the text or throws. *)
Theorem tokenize_terminates ID_Start ID_Continue factory input :
  Tokenizer.tokenize ID_Start ID_Continue factory input ≠ Throw OutOfFuel.
Proof.
  destruct input as [str|raw args]; [apply instance_tokenize_fuel|].
  unfold Tokenizer.tokenize.
  assert (Hargs : ∀ args i tokens,
             Tokenizer.tokenize_args ID_Start ID_Continue factory raw i args tokens
             ≠ Throw OutOfFuel).
  { clear args. induction args as [|arg args IH]; intros i tokens; [done|].
    cbn [Tokenizer.tokenize_args].
    destruct (raw !! i) as [s|]; [|done].
    destruct (Tokenizer.instance_tokenize _ _ _ s) as [ts|e] eqn:E; cbn [obind];
      [|intros [= ->]; by eapply instance_tokenize_fuel].
    destruct (call_static factory "interpolation" [arg]) as [t|e] eqn:Ec; cbn [obind];
      [apply IH|].
    intros [= ->]. revert Ec. unfold call_static.
    by destruct (get_static factory "interpolation") as [[f|f|f]|]; repeat case_match. }
  destruct (Tokenizer.tokenize_args _ _ _ raw 0 args []) as [tokens|e] eqn:E;
    cbn [obind]; [|intros [= ->]; by eapply Hargs].
  destruct (last raw) as [str|]; [|done].
  destruct (Tokenizer.instance_tokenize _ _ _ str) as [ts|e] eqn:E'; cbn [obind];
    [done|]. intros [= ->]. by eapply instance_tokenize_fuel.
Qed.

Lemma peek_one w :
  StringWalker.hasRemaining w = true →
  ∃ c, StringWalker.peek w 1 = String c EmptyString
       ∧ StringWalker.getRemaining w
         = String c (StringWalker.getRemaining (StringWalker.consume w 1)).
Proof.
  unfold StringWalker.hasRemaining, StringWalker.peek, StringWalker.getRemaining,
    StringWalker.consume, substring_from.
  destruct w as [src p]. simpl. intros Hp%Nat.ltb_lt.
  rewrite Nat.min_l by lia. rewrite Nat.add_1_r.
  revert src Hp. induction p as [|p IH]; intros [|c src] Hp; simpl in *; try lia.
  - exists c. split; [by destruct src|by destruct src].
  - apply IH. lia.
Qed.

Lemma re_operator_registered s m :
  re_operator s = Some m →
  is_Some (Operations.unaryFromLiteral m) ∨ is_Some (Operations.binaryFromLiteral m).
Proof.
  unfold re_operator. destruct (first_match _ s) as [m'|] eqn:E.
  - intros [= <-]. apply first_match_app in E as [Hin _].
    apply list_elem_of_In in Hin. cbn [In] in Hin.
    repeat (destruct Hin as [<-|Hin]; [right; vm_compute; eauto|]). done.
  - destruct s as [|c s]; [done|]. destruct (char_in _ c) eqn:Hc; [|done].
    intros [= <-]. unfold char_in in Hc. apply bool_decide_eq_true in Hc.
    apply list_elem_of_In in Hc. cbn [String.list_ascii_of_string In] in Hc.
    repeat (destruct Hc as [<-|Hc];
            [first [right; vm_compute; by eauto | left; vm_compute; by eauto]|]).
    done.
Qed.

Lemma re_whitespace_idempotent s m : re_whitespace s = Some m → re_whitespace m = Some m.
Proof.
  unfold re_whitespace. destruct (take_while is_space s) as [m' r] eqn:E.
  destruct (non_empty m') eqn:Hm; [|done]. intros [= <-].
  assert (Hall : take_while is_space m' = (m', EmptyString)).
  { clear Hm. revert m' r E. induction s as [|c s IH]; intros m' r E; simpl in E.
    - by injection E as <- <-.
    - destruct (is_space c) eqn:Hc.
      + destruct (take_while is_space s) as [m0 r0] eqn:E0. injection E as <- <-.
        simpl. rewrite Hc. by rewrite (IH m0 r0).
      + by injection E as <- <-. }
  by rewrite Hall, Hm.
Qed.

(** A number literal opens with a digit or the point, a string literal
    with its quote. *)
Lemma re_number_first s m :
  re_number s = Some m → ∃ c rest, m = String c rest ∧ c ≠ squote ∧ c ≠ dquote.
Proof.
  intros H. destruct (re_number_prefix s m H) as [Hlen [r Hs]].
  destruct m as [|c rest]; [simpl in Hlen; lia|]. exists c, rest. split; [done|].
  subst s. rewrite string_app_cons in H.
  split; intros ->; vm_compute in H; discriminate.
Qed.

Lemma re_string_first q s m : re_string q s = Some m → ∃ rest, m = String q rest.
Proof.
  unfold re_string. destruct s as [|c s]; [done|]. case_bool_decide; [subst c|done].
  destruct (re_string_body q s) as [body|]; [|done]. simpl. intros [= <-]. by eexists.
Qed.

Section Spelling.

Variables ID_Start ID_Continue : ascii → bool.

Local Abbreviation scan :=
  (Tokenizer.scan ID_Start ID_Continue TokenFactory_statics).

Lemma spell_app ts ts' : spell (ts ++ ts') = spell ts +:+ spell ts'.
Proof.
  induction ts as [|t ts IH]; [done|]. simpl.
  change (spell (t :: ?l)) with (token_literal t +:+ spell l).
  by rewrite IH, string_app_assoc.
Qed.

(** With the white space kept, the tokens are consecutive pieces of the
    text, each of the shape of its kind. *)
Lemma scan_spells fuel :
  ∀ w tokens out,
    scan false fuel w tokens = Ok out →
    ∃ new, out = tokens ++ new
           ∧ spell new = StringWalker.getRemaining w
           ∧ Forall token_shape new.
Proof.
  induction fuel as [|fuel IH]; intros w tokens out; [done|].
  cbn [Tokenizer.scan].
  destruct (StringWalker.hasRemaining w) eqn:Hrem; cbn [negb].
  2:{ intros [= <-]. exists []. rewrite app_nil_r. split; [done|]. split; [|done].
      unfold StringWalker.hasRemaining in Hrem. apply Nat.ltb_ge in Hrem.
      unfold StringWalker.getRemaining, substring_from. by rewrite drop_all. }
  assert (Hstep : ∀ re m w' t,
             matches_prefix re → StringWalker.next w re = (Some m, w') →
             token_literal t = m → token_shape t →
             scan false fuel w' (tokens ++ [t]) = Ok out →
             ∃ new, out = tokens ++ new
                    ∧ spell new = StringWalker.getRemaining w
                    ∧ Forall token_shape new).
  { intros re m w' t Hre Hn Hlit Hshape Hscan.
    destruct (next_matches _ _ _ _ Hre Hn) as (_ & _ & Hr).
    destruct (IH _ _ _ Hscan) as (new & -> & Hsp & Hall).
    exists (t :: new). rewrite <- app_assoc. split; [done|].
    split; [|by constructor].
    change (spell (t :: new)) with (token_literal t +:+ spell new).
    by rewrite Hlit, Hsp, Hr. }
  destruct (StringWalker.next w re_whitespace) as [[m|] w1] eqn:E1.
  { apply (Hstep _ _ _ (WhitespaceToken m) re_whitespace_prefix E1 eq_refl).
    unfold StringWalker.next in E1.
    destruct (re_whitespace _) eqn:E; [|done]. injection E1 as <- <-.
    by eapply re_whitespace_idempotent. }
  case_bool_decide as Hpunct.
  { destruct (peek_one w Hrem) as (c & Hc & Hr). rewrite Hc in *.
    change (call_static TokenFactory_statics "punctuation" [VString (String c EmptyString)])
      with (Ok (PunctuationToken (String c EmptyString))).
    cbn [obind]. intros Hscan.
    destruct (IH _ _ _ Hscan) as (new & -> & Hsp & Hall).
    exists (PunctuationToken (String c EmptyString) :: new).
    rewrite <- app_assoc. split; [done|]. split; [|by constructor].
    change (spell (?t :: new)) with (token_literal t +:+ spell new).
    by rewrite Hsp, Hr. }
  destruct (StringWalker.next w re_operator) as [[m|] w2] eqn:E2.
  { change (call_static TokenFactory_statics "operator" [VString m])
      with (Ok (OperatorToken m)).
    cbn [obind]. apply (Hstep _ _ _ (OperatorToken m) re_operator_prefix E2 eq_refl).
    unfold StringWalker.next in E2.
    destruct (re_operator _) eqn:E; [|done]. injection E2 as <- <-.
    by eapply re_operator_registered. }
  destruct (StringWalker.next w re_number) as [[m|] w3] eqn:E3.
  { destruct (number_value m) as [value|] eqn:Ev; [|done]. cbn [obind].
    change (call_static TokenFactory_statics "constant" [VString m; value])
      with (Ok (ConstantToken m value)).
    cbn [obind]. apply (Hstep _ _ _ (ConstantToken m value) re_number_prefix E3 eq_refl).
    unfold StringWalker.next in E3.
    destruct (re_number _) as [m'|] eqn:E; [|done]. injection E3 as <- <-.
    destruct (re_number_first _ _ E) as (c & rest & -> & Hs & Hd). simpl.
    by rewrite !bool_decide_eq_false_2. }
  destruct (StringWalker.next w (re_string squote)) as [[m|] w4] eqn:E4.
  { change (call_static TokenFactory_statics "constant" [VString m; ?v])
      with (Ok (ConstantToken m v)).
    cbn [obind]. apply (Hstep _ _ _ (ConstantToken m (string_value squote m))
             (re_string_prefix squote) E4 eq_refl).
    unfold StringWalker.next in E4.
    destruct (re_string squote _) as [m'|] eqn:E; [|done]. injection E4 as <- <-.
    by destruct (re_string_first _ _ _ E) as [rest ->]. }
  destruct (StringWalker.next w (re_string dquote)) as [[m|] w5] eqn:E5.
  { change (call_static TokenFactory_statics "constant" [VString m; ?v])
      with (Ok (ConstantToken m v)).
    cbn [obind]. apply (Hstep _ _ _ (ConstantToken m (string_value dquote m))
             (re_string_prefix dquote) E5 eq_refl).
    unfold StringWalker.next in E5.
    destruct (re_string dquote _) as [m'|] eqn:E; [|done]. injection E5 as <- <-.
    by destruct (re_string_first _ _ _ E) as [rest ->]. }
  destruct (StringWalker.next w (re_identifier ID_Start ID_Continue))
    as [[m|] w6] eqn:E6; [|done].
  change (call_static TokenFactory_statics "identifier" [VString m])
    with (Ok (IdentifierToken m)).
  cbn [obind].
  apply (Hstep _ _ _ (IdentifierToken m)
           (re_identifier_prefix ID_Start ID_Continue) E6 eq_refl).
  destruct (next_matches _ _ _ _ (re_identifier_prefix ID_Start ID_Continue) E6)
    as (_ & Hm & _).
  simpl. intros ->. simpl in Hm. lia.
Qed.

Local Abbreviation visible := (filter (λ t, is_whitespace t = false)).

Lemma visible_snoc ts t :
  is_whitespace t = false → visible (ts ++ [t]) = visible ts ++ [t].
Proof. intros H. rewrite filter_app, filter_cons. by case_decide. Qed.

(** Leaving the white space out while tokenizing gives what is left when
    the white space tokens are taken out afterwards. *)
Lemma scan_ignoring fuel :
  ∀ w tokens,
    scan true fuel w (visible tokens) =
    let* out := scan false fuel w tokens in Ok (visible out).
Proof.
  induction fuel as [|fuel IH]; intros w tokens; [done|].
  cbn [Tokenizer.scan].
  destruct (StringWalker.hasRemaining w); cbn [negb]; [|done].
  destruct (StringWalker.next w re_whitespace) as [[m|] w1].
  { rewrite <- IH. f_equal. rewrite filter_app, filter_cons.
    case_decide; [done|]. by rewrite filter_nil, app_nil_r. }
  case_bool_decide.
  { change (call_static TokenFactory_statics "punctuation" [VString ?c])
      with (Ok (PunctuationToken c)).
    cbn [obind]. by rewrite <- IH, visible_snoc. }
  destruct (StringWalker.next w re_operator) as [[m|] w2].
  { change (call_static TokenFactory_statics "operator" [VString m])
      with (Ok (OperatorToken m)).
    cbn [obind]. by rewrite <- IH, visible_snoc. }
  destruct (StringWalker.next w re_number) as [[m|] w3].
  { destruct (number_value m) as [value|]; [|done]. cbn [obind].
    change (call_static TokenFactory_statics "constant" [VString m; value])
      with (Ok (ConstantToken m value)).
    cbn [obind]. by rewrite <- IH, visible_snoc. }
  destruct (StringWalker.next w (re_string squote)) as [[m|] w4].
  { change (call_static TokenFactory_statics "constant" [VString m; ?v])
      with (Ok (ConstantToken m v)).
    cbn [obind]. by rewrite <- IH, visible_snoc. }
  destruct (StringWalker.next w (re_string dquote)) as [[m|] w5].
  { change (call_static TokenFactory_statics "constant" [VString m; ?v])
      with (Ok (ConstantToken m v)).
    cbn [obind]. by rewrite <- IH, visible_snoc. }
  destruct (StringWalker.next w (re_identifier ID_Start ID_Continue))
    as [[m|] w6]; [|done].
  change (call_static TokenFactory_statics "identifier" [VString m])
    with (Ok (IdentifierToken m)).
  cbn [obind]. by rewrite <- IH, visible_snoc.
Qed.

End Spelling.

(** The tokens of a plain text are the pieces of a division of the text,
    after its Unicode escapes are replaced, into consecutive pieces, without
    the pieces of white space: put together with these they spell the text
    again. *)
Theorem plain_tokens_spell_the_source ID_Start ID_Continue str tokens :
  Tokenizer_tokenize ID_Start ID_Continue (PlainString str) = Ok tokens →
  ∃ src pieces,
    Tokenizer.parseUnicodeEscapes str = Ok src
    ∧ Tokenizer.scan ID_Start ID_Continue TokenFactory_statics false
        (S (String.length src)) {| source := src; position := 0 |} [] = Ok pieces
    ∧ spell pieces = src
    ∧ tokens = filter (λ t, is_whitespace t = false) pieces.
Proof.
  unfold Tokenizer_tokenize, Tokenizer.tokenize, Tokenizer.instance_tokenize.
  destruct (Tokenizer.parseUnicodeEscapes str) as [src|] eqn:E; [|done]. cbn [obind].
  change (@nil Token) with (filter (λ t, is_whitespace t = false) (@nil Token)) at 1.
  rewrite scan_ignoring.
  destruct (Tokenizer.scan _ _ _ false _ _ []) as [pieces|] eqn:Es; [|done].
  cbn [obind]. intros [= <-].
  destruct (scan_spells _ _ _ _ _ _ Es) as (new & -> & Hsp & _).
  exists src, new. by rewrite Hsp.
Qed.

(** Of a plain text the tokenizer makes no white space token and no embedded
    token; its punctuation tokens are the nine punctuation characters, and
    every operator token is the literal of a unary or of a binary operation
    of the registry. *)
Theorem plain_tokens_shapes ID_Start ID_Continue str tokens :
  Tokenizer_tokenize ID_Start ID_Continue (PlainString str) = Ok tokens →
  Forall (λ t, token_shape t ∧ token_type t ≠ Whitespace ∧ token_type t ≠ Embedded)
         tokens.
Proof.
  unfold Tokenizer_tokenize, Tokenizer.tokenize, Tokenizer.instance_tokenize.
  destruct (Tokenizer.parseUnicodeEscapes str) as [src|] eqn:E; [|done]. cbn [obind].
  change (@nil Token) with (filter (λ t, is_whitespace t = false) (@nil Token)) at 1.
  rewrite scan_ignoring.
  destruct (Tokenizer.scan _ _ _ false _ _ []) as [pieces|] eqn:Es; [|done].
  cbn [obind]. intros [= <-].
  destruct (scan_spells _ _ _ _ _ _ Es) as (new & -> & _ & Hall).
  simpl. apply Forall_forall. intros t [Hws Hin]%list_elem_of_filter.
  rewrite Forall_forall in Hall. specialize (Hall t Hin).
  split; [done|]. by destruct t.
Qed.

Lemma plain_tokens_spell_the_source_witness :
  Sample.tokens "a + 1"
  = Ok [IdentifierToken "a"; OperatorToken "+"; ConstantToken "1" (VInt 1)]
  ∧ ∃ src pieces,
      Tokenizer.parseUnicodeEscapes "a + 1" = Ok src
      ∧ Tokenizer.scan ascii_ID_Start ascii_ID_Continue TokenFactory_statics false
          (S (String.length src)) {| source := src; position := 0 |} [] = Ok pieces
      ∧ spell pieces = src
      ∧ [IdentifierToken "a"; OperatorToken "+"; ConstantToken "1" (VInt 1)]
        = filter (λ t, is_whitespace t = false) pieces.
Proof.
  split; [vm_compute; reflexivity|].
  apply (plain_tokens_spell_the_source ascii_ID_Start ascii_ID_Continue "a + 1").
  vm_compute. reflexivity.
Defined.

Lemma plain_tokens_shapes_witness :
  Sample.tokens "f(x) ** 2"
  = Ok [IdentifierToken "f"; PunctuationToken "("; IdentifierToken "x";
        PunctuationToken ")"; OperatorToken "**"; ConstantToken "2" (VInt 2)]
  ∧ Forall (λ t, token_shape t ∧ token_type t ≠ Whitespace ∧ token_type t ≠ Embedded)
      [IdentifierToken "f"; PunctuationToken "("; IdentifierToken "x";
       PunctuationToken ")"; OperatorToken "**"; ConstantToken "2" (VInt 2)].
Proof.
  split; [vm_compute; reflexivity|].
  apply (plain_tokens_shapes ascii_ID_Start ascii_ID_Continue "f(x) ** 2").
  vm_compute. reflexivity.
Defined.

Lemma replace_escapes_plain braced fuel s :
  no_backslash s = true → (String.length s ≤ fuel)%nat →
  replace_escapes braced fuel s = Ok s.
Proof.
  revert s. induction fuel as [|fuel IH]; intros s Hs Hf.
  - by destruct s.
  - destruct s as [|c rest]; [done|]. cbn [replace_escapes].
    unfold no_backslash, all_chars in Hs. simpl in Hs.
    apply andb_true_iff in Hs as [Hc Hrest].
    apply negb_true_iff, bool_decide_eq_false in Hc.
    destruct (take_while _ _) as [hex after].
    replace (starts_with (String backslash (if braced then "u{" else "u")) (String c rest))
      with false.
    2:{ simpl. case_bool_decide; [congruence|done]. }
    cbn [andb]. rewrite IH; [done|done|simpl in Hf; lia].
Qed.

Lemma parseUnicodeEscapes_no_escape s :
  no_backslash s = true → Tokenizer.parseUnicodeEscapes s = Ok s.
Proof.
  intros Hs. unfold Tokenizer.parseUnicodeEscapes.
  rewrite replace_escapes_plain by done. cbn [obind].
  by rewrite replace_escapes_plain.
Qed.

(** A text without a backslash holds no Unicode escape: both replacement
    passes of [parseUnicodeEscapes] leave it as it is. *)
Theorem parseUnicodeEscapes_plain s :
  no_backslash s = true → Tokenizer.parseUnicodeEscapes s = Ok s.
Proof.
  intros Hs. unfold Tokenizer.parseUnicodeEscapes.
  rewrite (replace_escapes_plain false) by done. cbn [obind].
  by rewrite (replace_escapes_plain true).
Qed.

Lemma parseUnicodeEscapes_plain_witness :
  no_backslash "a[1:2] + 'b'" = true
  ∧ Tokenizer.parseUnicodeEscapes "a[1:2] + 'b'" = Ok "a[1:2] + 'b'".
Proof.
  split; [reflexivity|]. apply (parseUnicodeEscapes_plain "a[1:2] + 'b'"). reflexivity.
Defined.

Lemma re_string_body_plain q body rest :
  plain_body q body = true →
  re_string_body q (body +:+ String q rest) = Some (body +:+ String q EmptyString).
Proof.
  induction body as [|c body IH]; intros H.
  - simpl. rewrite string_app_nil_l. cbn [re_string_body]. by rewrite bool_decide_eq_true_2.
  - unfold plain_body, all_chars in H. simpl in H.
    apply andb_true_iff in H as [Hc Hb].
    apply andb_true_iff in Hc as [Hq Hbs].
    apply negb_true_iff, bool_decide_eq_false in Hq, Hbs.
    rewrite !string_app_cons. cbn [re_string_body].
    rewrite !bool_decide_eq_false_2 by done.
    by rewrite (IH Hb).
Qed.

Lemma drop_last_snoc body q : drop_last (body +:+ String q EmptyString) = body.
Proof.
  induction body as [|c body IH]; [done|]. rewrite string_app_cons.
  cbn [drop_last]. rewrite IH.
  destruct body; reflexivity.
Qed.

Lemma replace_pair_plain a b r s :
  all_chars (λ c, negb (bool_decide (c = a))) s = true → replace_pair a b r s = s.
Proof.
  induction s as [|c s IH]; [done|]. intros H.
  unfold all_chars in H. simpl in H. apply andb_true_iff in H as [Hc Hs].
  apply negb_true_iff, bool_decide_eq_false in Hc.
  cbn [replace_pair]. destruct s as [|d s]; [done|].
  rewrite (bool_decide_eq_false_2 (c = a)) by done. cbn [andb].
  by rewrite (IH Hs).
Qed.

Lemma plain_body_no_backslash q s : plain_body q s = true → no_backslash s = true.
Proof.
  unfold plain_body, no_backslash, all_chars.
  induction (String.list_ascii_of_string s) as [|c l IH]; [done|]. simpl.
  intros [[_ ->]%andb_true_iff ?]%andb_true_iff. auto.
Qed.

Lemma no_backslash_app a b :
  no_backslash (a +:+ b) = no_backslash a && no_backslash b.
Proof.
  unfold no_backslash, all_chars.
  induction a as [|c a IH]; [done|]. rewrite string_app_cons. simpl.
  by rewrite IH, andb_assoc.
Qed.

Lemma quote_is_no_other_token q s :
  q = squote ∨ q = dquote →
  re_whitespace (String q s) = None
  ∧ bool_decide (String q EmptyString ∈ ["("; ")"; "["; "]"; "{"; "}"; ","; ":"; "."])
    = false
  ∧ re_operator (String q s) = None
  ∧ re_number (String q s) = None.
Proof. intros [-> | ->]; repeat split; reflexivity. Qed.

(** A string literal without an escape is read back: between two single or
    two double quotes, a text that holds neither that quote nor a backslash
    becomes one constant token whose value is the text. *)
Theorem string_literal_round_trip ID_Start ID_Continue q body :
  q = squote ∨ q = dquote → plain_body q body = true →
  Tokenizer_tokenize ID_Start ID_Continue
    (PlainString (String q (body +:+ String q EmptyString)))
  = Ok [ConstantToken (String q (body +:+ String q EmptyString)) (VString body)].
Proof.
  intros Hq Hbody.
  set (lit := String q (body +:+ String q EmptyString)).
  unfold Tokenizer_tokenize, Tokenizer.tokenize, Tokenizer.instance_tokenize.
  rewrite parseUnicodeEscapes_no_escape.
  2:{ change lit with (String q EmptyString +:+ (body +:+ String q EmptyString)).
      rewrite !no_backslash_app, (plain_body_no_backslash q body Hbody).
      by destruct Hq as [-> | ->]. }
  cbn [obind].
  assert (Hlen : String.length lit = S (S (String.length body))).
  { subst lit. simpl. rewrite string_length_app. simpl. lia. }
  rewrite Hlen.
  destruct (quote_is_no_other_token q (body +:+ String q EmptyString) Hq)
    as (Hws & Hp & Hop & Hnum).
  assert (Hstr : re_string q lit = Some lit).
  { subst lit. cbn [re_string]. rewrite bool_decide_eq_true_2 by done.
    by rewrite re_string_body_plain. }
  assert (Hvalue : string_value q lit = VString body).
  { unfold string_value. subst lit. cbn [drop]. rewrite drop_last_snoc.
    rewrite (replace_pair_plain backslash q q body)
      by (by apply plain_body_no_backslash in Hbody).
    rewrite replace_pair_plain by (by apply plain_body_no_backslash in Hbody).
    done. }
  remember (S (S (String.length body))) as n eqn:Hn.
  cbn [Tokenizer.scan].
  unfold StringWalker.hasRemaining, StringWalker.next, StringWalker.getRemaining,
    StringWalker.peek, substring_from.
  cbn [source position drop]. rewrite Hlen.
  replace (0 <? n)%nat with true by (by subst n). cbn [negb].
  change (re_whitespace lit) with (re_whitespace (String q (body +:+ String q EmptyString))).
  rewrite Hws.
  replace (String.substring 0 1 lit) with (String q EmptyString)
    by (subst lit; simpl; by destruct (body +:+ String q EmptyString)).
  change (re_operator lit) with (re_operator (String q (body +:+ String q EmptyString))).
  change (re_number lit) with (re_number (String q (body +:+ String q EmptyString))).
  rewrite Hp, Hop, Hnum.
  assert (Hend : ∀ t,
             Tokenizer.scan ID_Start ID_Continue TokenFactory_statics true n
               {| source := lit; position := (0 + String.length lit)%nat |} t = Ok t).
  { intros t. rewrite Hlen. destruct n as [|n']; [done|]. cbn [Tokenizer.scan].
    unfold StringWalker.hasRemaining. cbn [source position].
    by rewrite Hlen, Nat.ltb_irrefl. }
  destruct Hq as [-> | ->].
  - rewrite Hstr, Hvalue.
    change (call_static TokenFactory_statics "constant" [VString lit; VString body])
      with (Ok (ConstantToken lit (VString body))).
    cbn [obind app]. apply Hend.
  - replace (re_string squote lit) with (@None string) by done.
    rewrite Hstr, Hvalue.
    change (call_static TokenFactory_statics "constant" [VString lit; VString body])
      with (Ok (ConstantToken lit (VString body))).
    cbn [obind app]. apply Hend.
Qed.

Lemma string_literal_round_trip_witness :
  (squote = squote ∨ squote = dquote)
  ∧ plain_body squote "say: hi" = true
  ∧ Sample.tokens (String squote ("say: hi" +:+ String squote EmptyString))
    = Ok [ConstantToken (String squote ("say: hi" +:+ String squote EmptyString))
            (VString "say: hi")].
Proof.
  split; [by left|]. split; [reflexivity|].
  apply (string_literal_round_trip ascii_ID_Start ascii_ID_Continue squote "say: hi");
    [by left|reflexivity].
Defined.

(* ================================================================= *)
(** ** Bindings *)

Lemma evaluateIdentifierNode_value host_call rop name s r :
  engines (world s) !! rop = Some r →
  Evaluater.evaluateNode host_call rop (IdentifierNode name) s
  = (identifier_value r name, s).
Proof.
  intros Hr. destruct s as [w t]. simpl in Hr.
  cbn [Evaluater.evaluateNode]. unfold Evaluater.evaluateIdentifierNode.
  unfold bind, in_world, Rop.this. simpl. rewrite Hr.
  unfold identifier_value. by destruct (bindings r !! name).
Qed.

Lemma update_engine rop f w r :
  engines w !! rop = Some r →
  Rop.update rop f w = (Ok tt, with_engines (<[rop := f r]> (engines w)) w).
Proof. intros Hr. unfold Rop.update, bind, Rop.this, modify. by rewrite Hr. Qed.

Lemma bindAll_bindings rop entries :
  ∀ w r,
    engines w !! rop = Some r →
    ∃ r1,
      Rop.bindAll rop entries w = (Ok rop, with_engines (<[rop := r1]> (engines w)) w)
      ∧ overloadings r1 = overloadings r
      ∧ ∀ name, bindings r1 !! name
                = match assoc name (reverse entries) with
                  | Some v => Some v
                  | None => bindings r !! name
                  end.
Proof.
  induction entries as [|[key value] entries IH]; intros w r Hr.
  - exists r. simpl. unfold ret. rewrite insert_id by done.
    split; [by destruct w|done].
  - cbn [Rop.bindAll]. unfold bind at 1. rewrite (update_engine _ _ _ r Hr).
    set (w' := with_engines _ w).
    destruct (IH w' (Rop.set_binding key value r)) as (r1 & Hrun & Hov & Hb).
    { subst w'. simpl. by rewrite lookup_insert_eq. }
    exists r1. rewrite Hrun. subst w'. unfold with_engines. simpl.
    rewrite insert_insert_eq. split; [done|]. split; [done|].
    intros name. rewrite Hb, reverse_cons.
    assert (Hassoc : ∀ l : list (string * Value),
               assoc name (l ++ [(key, value)])
               = match assoc name l with
                 | Some v => Some v
                 | None => if decide (key = name) then Some value else None
                 end).
    { induction l as [|[k v] l IHl]; cbn [assoc app]; [done|].
      destruct (decide (k = name)); [done|apply IHl]. }
    rewrite Hassoc. destruct (assoc name (reverse entries)); [done|].
    simpl. case_decide as Hk.
    + subst. by rewrite lookup_insert_eq.
    + by rewrite lookup_insert_ne.
Qed.

(** Binding and looking up.  [bind] with the entries of an object or of a
    map changes the bindings of its engine and nothing else; an identifier
    then evaluates to the value of the last entry that binds it, and an
    identifier that no entry binds evaluates as before. *)
Theorem bind_then_lookup host_call rop entries w r :
  engines w !! rop = Some r →
  ∃ r1,
    Rop.bindAll rop entries w = (Ok rop, with_engines (<[rop := r1]> (engines w)) w)
    ∧ overloadings r1 = overloadings r
    ∧ ∀ name t,
        (Evaluater.evaluateNode host_call rop (IdentifierNode name)
           {| world := with_engines (<[rop := r1]> (engines w)) w; trace := t |}).1
        = match assoc name (reverse entries) with
          | Some v => Ok v
          | None => identifier_value r name
          end.
Proof.
  intros Hr. destruct (bindAll_bindings rop entries w r Hr) as (r1 & Hrun & Hov & Hb).
  exists r1. split; [done|]. split; [done|]. intros name t.
  rewrite (evaluateIdentifierNode_value _ _ _ _ r1) by (simpl; by rewrite lookup_insert_eq).
  unfold identifier_value. simpl. rewrite Hb.
  by destruct (assoc name (reverse entries)).
Qed.

Lemma bind_then_lookup_witness :
  let w := {| heap := ∅; engines := {[ 0%nat := {| overloadings := ∅; bindings := ∅ |} ]};
              instance := None |} in
  let entries := [("a", VInt 1); ("b", VInt 2); ("a", VInt 3)] in
  ∃ r1,
    Rop.bindAll 0 entries w = (Ok 0%nat, with_engines (<[0%nat := r1]> (engines w)) w)
    ∧ overloadings r1 = ∅
    ∧ ∀ name t,
        (Evaluater.evaluateNode Sample.host_call 0 (IdentifierNode name)
           {| world := with_engines (<[0%nat := r1]> (engines w)) w; trace := t |}).1
        = match assoc name (reverse entries) with
          | Some v => Ok v
          | None =>
              identifier_value {| overloadings := ∅; bindings := ∅ |} name
          end.
Proof.
  intros w entries.
  apply (bind_then_lookup Sample.host_call 0 entries w
           {| overloadings := ∅; bindings := ∅ |}).
  reflexivity.
Defined.

Lemma unbind_bindings rop keys :
  ∀ w r,
    engines w !! rop = Some r →
    ∃ r1,
      Rop.unbind rop keys w = (Ok rop, with_engines (<[rop := r1]> (engines w)) w)
      ∧ overloadings r1 = overloadings r
      ∧ ∀ name, bindings r1 !! name
                = if bool_decide (name ∈ keys) then None else bindings r !! name.
Proof.
  induction keys as [|k keys IH]; intros w r Hr.
  - exists r. simpl. unfold ret. rewrite insert_id by done.
    split; [by destruct w|]. done.
  - cbn [Rop.unbind]. unfold bind at 1. rewrite (update_engine _ _ _ r Hr).
    set (w' := with_engines _ w).
    set (r' := {| overloadings := overloadings r; bindings := delete k (bindings r) |}).
    destruct (IH w' r') as (r1 & Hrun & Hov & Hb).
    { subst w'. simpl. by rewrite lookup_insert_eq. }
    exists r1. rewrite Hrun. subst w'. unfold with_engines. simpl.
    rewrite insert_insert_eq. split; [done|]. split; [done|].
    intros name. rewrite Hb. subst r'. simpl.
    destruct (decide (name = k)) as [->|Hne].
    + rewrite lookup_delete_eq.
      rewrite (bool_decide_eq_true_2 (k ∈ k :: keys)) by by left.
      by case_bool_decide.
    + rewrite lookup_delete_ne by done.
      case_bool_decide as H1; case_bool_decide as H2; try done.
      * exfalso. apply H2. by right.
      * exfalso. apply elem_of_cons in H2 as [?|?]; done.
Qed.

(** Unbinding.  [unbind] changes the bindings of its engine and nothing
    else; an identifier among the keys is unknown afterwards, whether it was
    bound or not, and every other identifier evaluates as before. *)
Theorem unbind_then_lookup host_call rop keys w r :
  engines w !! rop = Some r →
  ∃ r1,
    Rop.unbind rop keys w = (Ok rop, with_engines (<[rop := r1]> (engines w)) w)
    ∧ overloadings r1 = overloadings r
    ∧ ∀ name t,
        (Evaluater.evaluateNode host_call rop (IdentifierNode name)
           {| world := with_engines (<[rop := r1]> (engines w)) w; trace := t |}).1
        = if bool_decide (name ∈ keys)
          then Throw (Error ("Unknown identifier: " +:+ name))
          else identifier_value r name.
Proof.
  intros Hr. destruct (unbind_bindings rop keys w r Hr) as (r1 & Hrun & Hov & Hb).
  exists r1. split; [done|]. split; [done|]. intros name t.
  rewrite (evaluateIdentifierNode_value _ _ _ _ r1) by (simpl; by rewrite lookup_insert_eq).
  unfold identifier_value. simpl. rewrite Hb. by case_bool_decide.
Qed.

Lemma unbind_then_lookup_witness :
  let r := {| overloadings := ∅; bindings := {[ "a" := VInt 1; "b" := VInt 2 ]} |} in
  let w := {| heap := ∅; engines := {[ 0%nat := r ]}; instance := None |} in
  ∃ r1,
    Rop.unbind 0 ["a"; "c"] w
    = (Ok 0%nat, with_engines (<[0%nat := r1]> (engines w)) w)
    ∧ overloadings r1 = ∅
    ∧ ∀ name t,
        (Evaluater.evaluateNode Sample.host_call 0 (IdentifierNode name)
           {| world := with_engines (<[0%nat := r1]> (engines w)) w; trace := t |}).1
        = if bool_decide (name ∈ ["a"; "c"])
          then Throw (Error ("Unknown identifier: " +:+ name))
          else identifier_value r name.
Proof.
  intros r w.
  apply (unbind_then_lookup Sample.host_call 0 ["a"; "c"] w r).
  reflexivity.
Defined.

(* ================================================================= *)
(** ** Engines *)

(** An engine that was just constructed is a new one and an empty one: no
    engine that existed is changed, the heap is not touched, and every
    identifier is unknown to it, [true] and [undefined] with the others. *)
Theorem new_engine_is_empty host_call w :
  ∃ rop w1,
    Rop.constructor w = (Ok rop, w1)
    ∧ engines w !! rop = None
    ∧ heap w1 = heap w ∧ instance w1 = instance w
    ∧ (∀ e, e ≠ rop → engines w1 !! e = engines w !! e)
    ∧ engines w1 !! rop = Some {| overloadings := ∅; bindings := ∅ |}
    ∧ ∀ name t,
        Evaluater.evaluateNode host_call rop (IdentifierNode name)
          {| world := w1; trace := t |}
        = (Throw (Error ("Unknown identifier: " +:+ name)), {| world := w1; trace := t |}).
Proof.
  eexists _, _. split; [reflexivity|].
  split; [apply not_elem_of_dom, is_fresh|].
  split; [done|]. split; [done|].
  split; [intros e He; simpl; by rewrite lookup_insert_ne|].
  split; [simpl; by rewrite lookup_insert_eq|].
  intros name t.
  rewrite (evaluateIdentifierNode_value _ _ _ _ {| overloadings := ∅; bindings := ∅ |})
    by (simpl; by rewrite lookup_insert_eq).
  unfold identifier_value. simpl. by rewrite lookup_empty.
Qed.

(** The default instance is made once: in a realm that is ready the getter
    returns an engine, a second access returns the same engine and changes
    nothing, and an access that finds the instance made changes nothing. *)
Theorem INST_is_a_singleton w :
  realm_ready (heap w) →
  ∃ rop w1,
    Rop.INST w = (Ok rop, w1)
    ∧ instance w1 = Some rop
    ∧ Rop.INST w1 = (Ok rop, w1)
    ∧ (∀ rop0, instance w = Some rop0 → rop = rop0 ∧ w1 = w).
Proof.
  intros Hready. destruct (instance w) as [rop0|] eqn:Hi.
  - exists rop0, w. unfold Rop.INST, bind, reads, ret. rewrite Hi.
    split; [done|]. split; [done|]. split; [done|]. by intros ? [= <-].
  - rewrite (INST_constructs w Hi). cbv zeta.
    set (rop := fresh (dom (engines w))).
    set (w0 := with_engines _ w).
    destruct (returns_install_defaults rop w0) as (a & w' & Hrun & _).
    { split; [done|]. split; [|done]. subst w0. simpl. by rewrite lookup_insert_eq. }
    rewrite Hrun. simpl. exists rop, (with_instance (Some rop) w').
    split; [done|]. split; [done|]. split; [|done].
    unfold Rop.INST, bind, reads, ret. done.
Qed.

Lemma INST_is_a_singleton_witness :
  realm_ready (heap Sample.world0)
  ∧ ∃ rop w1,
      Rop.INST Sample.world0 = (Ok rop, w1)
      ∧ instance w1 = Some rop
      ∧ Rop.INST w1 = (Ok rop, w1)
      ∧ (∀ rop0, instance Sample.world0 = Some rop0 → rop = rop0 ∧ w1 = Sample.world0).
Proof.
  assert (H : realm_ready (heap Sample.world0)).
  { repeat (apply Forall_cons_2; [eexists; vm_compute; reflexivity|]).
    apply Forall_nil_2. }
  split; [exact H|]. exact (INST_is_a_singleton Sample.world0 H).
Defined.

(* ================================================================= *)
(** ** Registering an overload and finding it *)

Lemma get_own_prototype h c p :
  own_property (cell h c) (KString "prototype") = Some p →
  get_property h (VObject c) (VString "prototype") = Ok p.
Proof.
  intros H. unfold get_property. cbn [ToPropertyKey obind get_by_key].
  unfold chain_fuel. cbn [find_property]. by rewrite H.
Qed.

Lemma detectFunctionType_object h fn t :
  detectFunctionType h fn = Ok t → ∃ l, fn = VObject l.
Proof. destruct fn; try done. eauto. Qed.

Lemma setOverload_result rop (p : Value) symbol fn w r t :
  engines w !! rop = Some r →
  detectFunctionType (heap w) fn = Ok t →
  ∃ w1 stored r1,
    Rop.setOverload rop p symbol fn w = (Ok tt, w1)
    ∧ engines w1 = <[rop := r1]> (engines w)
    ∧ instance w1 = instance w
    ∧ bindings r1 = bindings r
    ∧ Rop.registered (overloadings r1) p symbol = Some stored
    ∧ (∀ p' s', (p', s') ≠ (p, symbol) →
         Rop.registered (overloadings r1) p' s' = Rop.registered (overloadings r) p' s')
    ∧ (∀ l, is_Some (heap w !! l) → heap w1 !! l = heap w !! l)
    ∧ match t with
      | arrow =>
          ∃ l, stored = VObject l ∧ heap w !! l = None
               ∧ callable (cell (heap w1) l)
                 = Some {| fn_code := AdapterCode (Rop.code_of (heap w) fn);
                           fn_text := Rop.adapter_text |}
      | _ => stored = fn ∧ heap w1 = heap w
      end.
Proof.
  intros Hr Hfn. unfold Rop.setOverload.
  unfold bind at 1. unfold Rop.this at 1. rewrite Hr.
  set (r0 := if bool_decide (is_Some (overloadings r !! p)) then r
             else Rop.set_class_overloads p ∅ r).
  set (w0 := with_engines (<[rop := r0]> (engines w)) w).
  assert (Hfirst : (if bool_decide (is_Some (overloadings r !! p)) then ret tt
                    else Rop.update rop (Rop.set_class_overloads p ∅)) w = (Ok tt, w0)).
  { subst w0 r0. case_bool_decide.
    - unfold ret. rewrite insert_id by done. by destruct w.
    - by rewrite (update_engine _ _ _ r Hr). }
  unfold bind at 1. rewrite Hfirst.
  assert (Hr0 : engines w0 !! rop = Some r0) by (subst w0; simpl; by rewrite lookup_insert_eq).
  assert (Hclass : Rop.class_overloads p r0 = Rop.class_overloads p r).
  { subst r0. unfold Rop.class_overloads. case_bool_decide as Hp; [done|].
    simpl. rewrite lookup_insert_eq. simpl.
    destruct (overloadings r !! p) eqn:E; [|done]. exfalso. apply Hp. by eexists. }
  assert (Hother : ∀ p', p' ≠ p → overloadings r0 !! p' = overloadings r !! p').
  { intros p' Hp'. subst r0. case_bool_decide; [done|]. simpl.
    by rewrite lookup_insert_ne. }
  unfold bind at 1, reads at 1. unfold bind at 1, lift at 1.
  change (heap w0) with (heap w). rewrite Hfn.
  set (final w' stored :=
         with_engines
           (<[rop := Rop.set_class_overloads p
                       (<[symbol := stored]> (Rop.class_overloads p r0)) r0]>
              (engines w')) w').
  assert (Hlast : ∀ w' stored,
             engines w' = engines w0 →
             Rop.update rop
               (λ r, Rop.set_class_overloads p
                       (<[symbol := stored]> (Rop.class_overloads p r)) r) w'
             = (Ok tt, final w' stored)).
  { intros w' stored He. rewrite (update_engine rop _ w' r0); [done|by rewrite He]. }
  assert (Hgoal : ∀ w' stored,
             engines w' = engines w0 → instance w' = instance w →
             (∀ l, is_Some (heap w !! l) → heap w' !! l = heap w !! l) →
             engines (final w' stored)
             = <[rop := Rop.set_class_overloads p
                          (<[symbol := stored]> (Rop.class_overloads p r0)) r0]>
                 (engines w)
             ∧ instance (final w' stored) = instance w
             ∧ bindings (Rop.set_class_overloads p
                           (<[symbol := stored]> (Rop.class_overloads p r0)) r0)
               = bindings r
             ∧ Rop.registered
                 (overloadings
                    (Rop.set_class_overloads p
                       (<[symbol := stored]> (Rop.class_overloads p r0)) r0))
                 p symbol = Some stored
             ∧ (∀ p' s', (p', s') ≠ (p, symbol) →
                  Rop.registered
                    (overloadings
                       (Rop.set_class_overloads p
                          (<[symbol := stored]> (Rop.class_overloads p r0)) r0))
                    p' s'
                  = Rop.registered (overloadings r) p' s')
             ∧ (∀ l, is_Some (heap w !! l) → heap (final w' stored) !! l = heap w !! l)).
  { intros w' stored He Hi Hh. subst final. unfold Rop.registered. simpl.
    split; [rewrite He; subst w0; simpl; by rewrite insert_insert_eq|].
    split; [done|]. split; [by subst r0; case_bool_decide|].
    split; [by rewrite lookup_insert_eq; simpl; rewrite lookup_insert_eq|].
    split; [|done].
    intros p' s' Hne. destruct (decide (p' = p)) as [->|Hp'].
    - rewrite lookup_insert_eq. simpl.
      assert (s' ≠ symbol) by congruence.
      rewrite lookup_insert_ne by done.
      unfold Rop.class_overloads in *. rewrite Hclass.
      by destruct (overloadings r !! p).
    - rewrite lookup_insert_ne by done. by rewrite Hother. }
  destruct t.
  - unfold bind at 1, ret at 1. rewrite Hlast by done.
    destruct (Hgoal w0 fn) as (? & ? & ? & ? & ? & ?); [done..|].
    by eexists _, fn, _.
  - unfold bind at 1.
    unfold new_function, new_object, bind, allocate, ret. simpl.
    set (l0 := fresh (dom (heap w))).
    set (h0 := <[l0 := _]> (heap w)).
    set (l := fresh (dom h0)).
    set (h1 := <[l := _]> h0).
    set (w' := with_heap h1 (with_heap h0 w0)).
    assert (Hl0 : heap w !! l0 = None) by apply not_elem_of_dom, is_fresh.
    assert (Hl : h0 !! l = None) by apply not_elem_of_dom, is_fresh.
    assert (Hlw : heap w !! l = None).
    { subst h0. destruct (decide (l = l0)) as [Heq|Hne].
      - rewrite Heq in Hl. by rewrite lookup_insert_eq in Hl.
      - by rewrite lookup_insert_ne in Hl. }
    rewrite (Hlast w' (VObject l)) by done.
    destruct (Hgoal w' (VObject l)) as (? & ? & ? & ? & ? & ?); [done|done|..].
    { intros k [o Hk]. subst w' h1 h0. simpl.
      rewrite !lookup_insert_ne; [done|congruence..]. }
    eexists _, (VObject l), _. repeat (split; [done|]).
    exists l. split; [done|]. split; [done|].
    subst final w' h1. simpl. unfold cell. by rewrite lookup_insert_eq.
  - unfold bind at 1, ret at 1. rewrite Hlast by done.
    destruct (Hgoal w0 fn) as (? & ? & ? & ? & ? & ?); [done..|].
    by eexists _, fn, _.
Qed.

(** What the test of [detectFunctionType] on the text accepts: a text that
    opens with a parenthesis, or one whose second character is a closing
    square bracket. *)
Lemma arrow_text_parenthesis rest : arrow_text (String "(" rest) = true.
Proof. reflexivity. Qed.

Lemma arrow_text_other c1 c2 rest :
  c1 ≠ "("%char → c2 ≠ "]"%char → arrow_text (String c1 (String c2 rest)) = false.
Proof.
  intros H1 H2. unfold arrow_text. cbn [starts_with].
  rewrite (bool_decide_eq_false_2 ("("%char = c1)) by done. cbn [andb orb].
  unfold re_arrow. cbn [take_while].
  rewrite (bool_decide_eq_false_2 (c2 = "]"%char)) by done.
  cbn [non_empty andb]. apply andb_false_r.
Qed.

(** Registering an overload and finding it.  [overload], on a class whose
    [prototype] is not [undefined], for a known operation and a function,
    returns normally and changes the entry of that prototype and operation
    only; [getOverloadOnClass] then finds what was stored, unless the
    prototype is [null].  What is stored is the function itself when
    [detectFunctionType] calls it normal or a method, and when it calls it
    an arrow function a new function that passes its receiver on as the
    first argument.  A function that owns a [prototype] is normal; any other
    is an arrow function when its text opens with a parenthesis, and a
    method when its text opens otherwise and has no closing square bracket
    in the second place, as the text of an arrow function written without
    parentheses around its parameter. *)
Theorem overload_then_lookup host_call rop c p op symbol fn t w r :
  engines w !! rop = Some r →
  own_property (cell (heap w) c) (KString "prototype") = Some p →
  p ≠ VUndefined →
  Operations_symbol op = Some symbol →
  detectFunctionType (heap w) fn = Ok t →
  ∃ w1 stored r1,
    Rop.overload rop (VObject c) op fn w = (Ok rop, w1)
    ∧ Rop.getOverloadOnClass rop (VObject c) symbol w1
      = (Ok (if bool_decide (p = VNull) then VNull else stored), w1)
    ∧ engines w1 = <[rop := r1]> (engines w)
    ∧ instance w1 = instance w
    ∧ bindings r1 = bindings r
    ∧ Rop.registered (overloadings r1) p symbol = Some stored
    ∧ (∀ p' s', (p', s') ≠ (p, symbol) →
         Rop.registered (overloadings r1) p' s' = Rop.registered (overloadings r) p' s')
    ∧ match t with
      | arrow =>
          ∃ l, stored = VObject l ∧ heap w !! l = None
               ∧ ∀ this args,
                   call_function host_call stored this args w1
                   = run_code host_call (Rop.code_of (heap w) fn) VUndefined
                       (this :: args) w1
      | _ => stored = fn ∧ heap w1 = heap w
      end
    ∧ ∃ l, fn = VObject l
           ∧ (is_Some (own_property (cell (heap w) l) (KString "prototype")) → t = normal)
           ∧ (own_property (cell (heap w) l) (KString "prototype") = None →
              ∃ info, callable (cell (heap w) l) = Some info
                      ∧ t = (if arrow_text (fn_text info) then arrow else method)
                      ∧ (∀ rest, fn_text info = String "(" rest → t = arrow)
                      ∧ (∀ c1 c2 rest,
                           fn_text info = String c1 (String c2 rest) →
                           c1 ≠ "("%char → c2 ≠ "]"%char → t = method)).
Proof.
  intros Hr Hproto Hp Hsym Hfn.
  destruct (setOverload_result rop p symbol fn w r t Hr Hfn)
    as (w1 & stored & r1 & Hset & He & Hi & Hb & Hreg & Hothers & Hheap & Hstored).
  exists w1, stored, r1.
  assert (Hstored_object : ∃ l, stored = VObject l).
  { destruct t.
    - destruct Hstored as [-> _]. by eapply detectFunctionType_object.
    - destruct Hstored as (l & -> & _). by eexists.
    - destruct Hstored as [-> _]. by eapply detectFunctionType_object. }
  split.
  { unfold Rop.overload. unfold bind at 1, reads at 1. unfold bind at 1, lift at 1.
    rewrite (get_own_prototype _ _ _ Hproto).
    rewrite bool_decide_eq_false_2 by done. rewrite Hsym.
    unfold bind at 1. by rewrite Hset. }
  split.
  { unfold Rop.getOverloadOnClass. unfold bind at 1, reads at 1.
    unfold bind at 1, lift at 1.
    assert (Hc : cell (heap w1) c = cell (heap w) c).
    { unfold cell. rewrite Hheap; [done|]. by eapply own_property_in_heap. }
    rewrite (get_own_prototype (heap w1) c p) by by rewrite Hc.
    unfold Rop.getOverloadFromPrototypeChain, bind, Rop.this, reads, lift.
    rewrite He, lookup_insert_eq. cbn [Rop.walk Nat.add].
    case_bool_decide; [done|]. rewrite Hreg.
    destruct Hstored_object as [l ->]. done. }
  repeat (split; [done|]).
  split.
  { destruct t; [done| |done].
    destruct Hstored as (l & -> & Hl & Hcall). exists l. split; [done|]. split; [done|].
    intros this args. unfold call_function. by rewrite Hcall. }
  destruct (detectFunctionType_object _ _ _ Hfn) as [l ->]. exists l. split; [done|].
  unfold detectFunctionType in Hfn. split.
  - intros Hown. rewrite bool_decide_eq_true_2 in Hfn by done. by injection Hfn.
  - intros Hown. rewrite bool_decide_eq_false_2 in Hfn by (rewrite Hown; by intros [? ?]).
    destruct (callable (cell (heap w) l)) as [info|]; [|done].
    injection Hfn as <-. exists info. split; [done|]. split; [done|]. split.
    + intros rest ->. by rewrite arrow_text_parenthesis.
    + intros c1 c2 rest -> H1 H2. by rewrite arrow_text_other.
Qed.

Lemma overload_then_lookup_witness :
  let bare := 40%nat in
  let round := 41%nat in
  let h := <[bare := Sample.function_object "other => undefined" 6 []]>
             (<[round := Sample.function_object "(self, other) => undefined" 7 []]> Sample.realm) in
  let w := (Rop.constructor (with_heap h Sample.world0)).2 in
  let plus := Operations.symbol (OpBinary B_add) in
  detectFunctionType (heap w) (VObject bare) = Ok method
  ∧ detectFunctionType (heap w) (VObject round) = Ok arrow
  ∧ (∃ w1 r1,
       Rop.overload 0 (VObject Sample.Vec2) (ByName "+") (VObject bare) w = (Ok 0%nat, w1)
       ∧ Rop.getOverloadOnClass 0 (VObject Sample.Vec2) plus w1 = (Ok (VObject bare), w1)
       ∧ engines w1 = <[0%nat := r1]> (engines w)
       ∧ heap w1 = heap w)
  ∧ (∃ w1 l,
       Rop.overload 0 (VObject Sample.Vec2) (ByName "+") (VObject round) w = (Ok 0%nat, w1)
       ∧ Rop.getOverloadOnClass 0 (VObject Sample.Vec2) plus w1 = (Ok (VObject l), w1)
       ∧ heap w !! l = None
       ∧ ∀ this args,
           call_function Sample.host_call (VObject l) this args w1
           = Sample.host_call 7 VUndefined (this :: args) w1).
Proof.
  intros bare round h w plus.
  assert (H1 : detectFunctionType (heap w) (VObject bare) = Ok method)
    by (vm_compute; reflexivity).
  assert (H2 : detectFunctionType (heap w) (VObject round) = Ok arrow)
    by (vm_compute; reflexivity).
  assert (Hr : engines w !! 0%nat = Some {| overloadings := ∅; bindings := ∅ |})
    by (vm_compute; reflexivity).
  assert (Hp : own_property (cell (heap w) Sample.Vec2) (KString "prototype")
               = Some (VObject Sample.Vec2_prototype)) by (vm_compute; reflexivity).
  split; [exact H1|]. split; [exact H2|]. split.
  - destruct (overload_then_lookup Sample.host_call 0 Sample.Vec2
                (VObject Sample.Vec2_prototype) (ByName "+") plus (VObject bare) method w
                _ Hr Hp ltac:(discriminate) eq_refl H1)
      as (w1 & stored & r1 & Hrun & Hget & He & _ & _ & _ & _ & [-> Hheap] & _).
    exists w1, r1. rewrite bool_decide_eq_false_2 in Hget by discriminate. by repeat split.
  - destruct (overload_then_lookup Sample.host_call 0 Sample.Vec2
                (VObject Sample.Vec2_prototype) (ByName "+") plus (VObject round) arrow w
                _ Hr Hp ltac:(discriminate) eq_refl H2)
      as (w1 & stored & r1 & Hrun & Hget & _ & _ & _ & _ & _ & (l & -> & Hl & Hcall) & _).
    exists w1, l. rewrite bool_decide_eq_false_2 in Hget by discriminate.
    split; [done|]. split; [done|]. split; [done|].
    intros this args. rewrite Hcall. reflexivity.
Defined.

(** An operation that the registry does not know: [overload] rejects it
    with a [TypeError] and changes nothing, where [overloads] passes over
    such a key of the definition object in silence, whatever its value is. *)
Theorem unknown_operations rop clazz prototype def w :
  get_property (heap w) clazz (VString "prototype") = Ok prototype →
  prototype ≠ VUndefined →
  Forall (λ entry, Operations_symbol entry.1 = None) def →
  Rop.overloads rop clazz def w = (Ok rop, w)
  ∧ ∀ entry, entry ∈ def →
      Rop.overload rop clazz entry.1 entry.2 w
      = (Throw (TypeError "Unknown operation"), w).
Proof.
  intros Hproto Hne Hdef. split.
  - unfold Rop.overloads. unfold bind at 1, reads at 1. unfold bind at 1, lift at 1.
    rewrite Hproto, bool_decide_eq_false_2 by done.
    assert (Hloop : Rop.overloads_loop rop prototype def w = (Ok tt, w)).
    { induction Hdef as [|[k v] def Hk Hdef IH]; [done|].
      cbn [Rop.overloads_loop]. simpl in Hk. by rewrite Hk. }
    unfold bind. by rewrite Hloop.
  - intros [k v] Hin. rewrite Forall_forall in Hdef. specialize (Hdef _ Hin).
    simpl in Hdef. unfold Rop.overload.
    unfold bind at 1, reads at 1. unfold bind at 1, lift at 1.
    rewrite Hproto, bool_decide_eq_false_2 by done. simpl. by rewrite Hdef.
Qed.

Lemma unknown_operations_witness :
  let w := (Rop.constructor Sample.world0).2 in
  let def := [(ByName "~x", VInt 1); (ByName "toString", VUndefined)] in
  Rop.overloads 0 (VObject Sample.Vec2) def w = (Ok 0%nat, w)
  ∧ ∀ entry, entry ∈ def →
      Rop.overload 0 (VObject Sample.Vec2) entry.1 entry.2 w
      = (Throw (TypeError "Unknown operation"), w).
Proof.
  intros w def.
  apply (unknown_operations 0 (VObject Sample.Vec2) (VObject Sample.Vec2_prototype) def w).
  - vm_compute. reflexivity.
  - discriminate.
  - repeat (apply Forall_cons_2; [vm_compute; reflexivity|]). apply Forall_nil_2.
Defined.

(* ================================================================= *)
(** ** Decimal numerals *)

Lemma pretty_N_char_digit x :
  (x < 10)%N →
  is_digit (pretty_N_char x) = true ∧ digit_value (pretty_N_char x) = Z.of_N x.
Proof.
  intros H.
  assert (x = 0 ∨ x = 1 ∨ x = 2 ∨ x = 3 ∨ x = 4 ∨ x = 5 ∨ x = 6 ∨ x = 7 ∨ x = 8 ∨ x = 9)%N
    as Hx by lia.
  repeat (destruct Hx as [->|Hx]; [by vm_compute|]). subst. by vm_compute.
Qed.

Lemma radix_value_cons acc c s :
  fold_left (λ acc c, 10 * acc + digit_value c) (String.list_ascii_of_string (String c s)) acc
  = fold_left (λ acc c, 10 * acc + digit_value c) (String.list_ascii_of_string s)
      (10 * acc + digit_value c).
Proof. reflexivity. Qed.

Lemma pretty_N_go_value x :
  ∀ s,
    radix_value 10 (pretty_N_go x s)
    = fold_left (λ acc c, 10 * acc + digit_value c) (String.list_ascii_of_string s)
        (Z.of_N x).
Proof.
  induction (N.lt_wf_0 x) as [x _ IH]. intros s.
  destruct (decide (x = 0)%N) as [->|Hx]; [by rewrite pretty_N_go_0|].
  rewrite pretty_N_go_step by lia.
  rewrite IH by (apply N.div_lt; lia).
  rewrite radix_value_cons. f_equal.
  destruct (pretty_N_char_digit (x `mod` 10)) as [_ ->]; [by apply N.mod_lt|].
  rewrite N2Z.inj_div, N2Z.inj_mod. change (Z.of_N 10) with 10.
  pose proof (Z.div_mod (Z.of_N x) 10). lia.
Qed.

Lemma pretty_N_go_digits x :
  ∀ s, all_chars is_digit s = true → all_chars is_digit (pretty_N_go x s) = true.
Proof.
  induction (N.lt_wf_0 x) as [x _ IH]. intros s Hs.
  destruct (decide (x = 0)%N) as [->|Hx]; [by rewrite pretty_N_go_0|].
  rewrite pretty_N_go_step by lia.
  apply IH; [apply N.div_lt; lia|].
  unfold all_chars. simpl. rewrite andb_true_iff. split; [|done].
  by destruct (pretty_N_char_digit (x `mod` 10)) as [-> _]; [apply N.mod_lt|].
Qed.

Lemma pretty_N_go_non_empty x s : (0 < x)%N → non_empty (pretty_N_go x s) = true.
Proof.
  revert s. induction (N.lt_wf_0 x) as [x _ IH]. intros s Hx.
  rewrite pretty_N_go_step by done.
  destruct (decide (x `div` 10 = 0)%N) as [->|Hd]; [by rewrite pretty_N_go_0|].
  apply IH; [apply N.div_lt; lia|by apply N.neq_0_lt_0].
Qed.

(** The decimal numeral of a natural number: it is made of digits, is not
    empty, and denotes the number. *)
Lemma decimal_numeral z :
  0 ≤ z →
  all_chars is_digit (decimal z) = true
  ∧ non_empty (decimal z) = true
  ∧ radix_value 10 (decimal z) = z.
Proof.
  intros Hz. destruct z as [|p|p]; [done| |lia].
  unfold decimal, pretty, pretty_Z, pretty, pretty_positive, pretty, pretty_N.
  rewrite decide_False by done.
  split; [by apply pretty_N_go_digits|]. split; [by apply pretty_N_go_non_empty|].
  by rewrite pretty_N_go_value.
Qed.

Lemma array_index_decimal z :
  0 ≤ z → array_index (KString (decimal z)) = Some (Z.to_nat z).
Proof.
  intros Hz. destruct (decimal_numeral z Hz) as (Hd & Hn & Hv).
  unfold array_index. rewrite Hd, Hn, Hv. cbn [andb].
  by rewrite bool_decide_eq_true_2.
Qed.

Lemma all_chars_impl (p q : ascii → bool) s :
  (∀ c, p c = true → q c = true) → all_chars p s = true → all_chars q s = true.
Proof.
  intros Hpq. unfold all_chars.
  induction (String.list_ascii_of_string s) as [|c l IH]; [done|]. simpl.
  intros [Hc Hl]%andb_true_iff. rewrite (Hpq c Hc). auto.
Qed.

Lemma digit_character c :
  is_digit c = true →
  is_space c = false
  ∧ c ≠ backslash
  ∧ c ≠ "n"%char
  ∧ char_in ".eE" c = false
  ∧ bool_decide (String c EmptyString ∈ ["("; ")"; "["; "]"; "{"; "}"; ","; ":"; "."])
    = false
  ∧ ∀ rest, re_operator (String c rest) = None.
Proof.
  destruct c as [[] [] [] [] [] [] [] []]; try discriminate; intros _;
    repeat split; try done.
Qed.

Lemma take_while_all p s : all_chars p s = true → take_while p s = (s, EmptyString).
Proof.
  unfold all_chars. induction s as [|c s IH]; [done|]. simpl.
  intros [-> Hs]%andb_true_iff. by rewrite IH.
Qed.

Lemma re_number_digits s :
  all_chars is_digit s = true → non_empty s = true → re_number s = Some s.
Proof.
  intros Hd Hn. unfold re_number. by rewrite (take_while_all _ _ Hd), Hn.
Qed.

Lemma last_char_digit s c :
  all_chars is_digit s = true → last_char s = Some c → is_digit c = true.
Proof.
  unfold all_chars. induction s as [|x s IH]; [done|]. simpl.
  intros [Hx Hs]%andb_true_iff. destruct s as [|y s]; [by intros [= <-]|].
  by apply IH.
Qed.

Lemma number_value_digits s :
  all_chars is_digit s = true →
  number_value s
  = if safe_integer (radix_value 10 s) then Ok (VInt (radix_value 10 s))
    else Throw (Unmodelled "number beyond the exact range of a double").
Proof.
  intros Hd. unfold number_value.
  rewrite bool_decide_eq_false_2.
  2:{ intros Hl. apply (last_char_digit _ _ Hd) in Hl. done. }
  rewrite (all_chars_impl is_digit (λ c, negb (char_in ".eE" c)) s); [done| |done].
  intros c Hc. by destruct (digit_character c Hc) as (_ & _ & _ & -> & _).
Qed.

(** The decimal numeral of a natural number that a double holds exactly is
    read back: it becomes one constant token whose value is the number. *)
Theorem decimal_round_trip ID_Start ID_Continue z :
  0 ≤ z ≤ 2 ^ 53 →
  Tokenizer_tokenize ID_Start ID_Continue (PlainString (decimal z))
  = Ok [ConstantToken (decimal z) (VInt z)].
Proof.
  intros Hz. destruct (decimal_numeral z) as (Hd & Hn & Hv); [lia|].
  unfold Tokenizer_tokenize, Tokenizer.tokenize, Tokenizer.instance_tokenize.
  rewrite parseUnicodeEscapes_no_escape.
  2:{ apply (all_chars_impl is_digit); [|done]. intros c Hc.
      destruct (digit_character c Hc) as (_ & Hb & _).
      by rewrite bool_decide_eq_false_2. }
  cbn [obind].
  remember (decimal z) as s eqn:Hs. destruct s as [|c rest]; [done|].
  assert (Hc : is_digit c = true).
  { unfold all_chars in Hd. simpl in Hd. by apply andb_true_iff in Hd as [? _]. }
  destruct (digit_character c Hc) as (Hsp & _ & _ & _ & Hp & Hop).
  remember (String.length (String c rest)) as n eqn:Hlen.
  cbn [Tokenizer.scan].
  unfold StringWalker.hasRemaining, StringWalker.next, StringWalker.getRemaining,
    StringWalker.peek, substring_from.
  cbn [source position drop]. rewrite <- Hlen.
  replace (0 <? n)%nat with true by (by subst n). cbn [negb].
  replace (re_whitespace (String c rest)) with (@None string)
    by (unfold re_whitespace; simpl; by rewrite Hsp).
  replace (String.substring 0 1 (String c rest)) with (String c EmptyString)
    by (simpl; by destruct rest).
  rewrite Hp, Hop, (re_number_digits _ Hd Hn), (number_value_digits _ Hd), Hv.
  replace (safe_integer z) with true
    by (unfold safe_integer; symmetry; apply andb_true_iff; lia).
  cbn [obind].
  change (call_static TokenFactory_statics "constant" [VString ?l; ?v])
    with (Ok (ConstantToken l v)).
  cbn [obind app]. rewrite <- Hlen.
  destruct n as [|n']; [done|]. cbn [Tokenizer.scan].
  unfold StringWalker.hasRemaining. cbn [source position].
  by rewrite <- Hlen, Nat.ltb_irrefl.
Qed.

Lemma decimal_round_trip_witness :
  0 ≤ 1024 ≤ 2 ^ 53
  ∧ Sample.tokens (decimal 1024) = Ok [ConstantToken (decimal 1024) (VInt 1024)].
Proof.
  split; [lia|].
  apply (decimal_round_trip ascii_ID_Start ascii_ID_Continue 1024). lia.
Defined.

(* ================================================================= *)
(** ** The built-in overloads of arrays *)

Lemma decimal_is_not_length z : 0 ≤ z → KString (decimal z) ≠ KString "length".
Proof.
  intros Hz [= Heq]. destruct (decimal_numeral z Hz) as (Hd & _ & _).
  rewrite Heq in Hd. done.
Qed.

Lemma get_element h l xs i x :
  elements (cell h l) = Some xs → xs !! i = Some x →
  get_property h (VObject l) (VInt (Z.of_nat i)) = Ok x.
Proof.
  intros Hxs Hx. unfold get_property. cbn [VInt ToPropertyKey obind get_by_key].
  unfold chain_fuel. cbn [find_property]. unfold own_property. rewrite Hxs.
  rewrite bool_decide_eq_false_2 by (apply decimal_is_not_length; lia).
  rewrite array_index_decimal by lia. by rewrite Nat2Z.id, Hx.
Qed.

Lemma get_length h l xs :
  elements (cell h l) = Some xs →
  get_property h (VObject l) (VString "length") = Ok (VInt (Z.of_nat (length xs))).
Proof.
  intros Hxs. unfold get_property. cbn [ToPropertyKey obind get_by_key].
  unfold chain_fuel. cbn [find_property]. unfold own_property. by rewrite Hxs.
Qed.

(** The ['[i]'] overload of arrays.  An index that is not a number is
    rejected.  An integer index from [-length] up to [length - 1] reads the
    element at that position, counted from the end when it is negative; the
    world is left as it is. *)
Theorem default_index_overload l xs w :
  elements (cell (heap w) l) = Some xs →
  (∀ v, typeof (heap w) v ≠ "number" →
        run_default ArrayIndex (VObject l) [v] w
        = (Throw (Error "Index of Array must be a number"), w))
  ∧ (∀ i : nat, (i < length xs)%nat →
       ∃ x, xs !! i = Some x
            ∧ run_default ArrayIndex (VObject l) [VInt (Z.of_nat i)] w = (Ok x, w)
            ∧ run_default ArrayIndex (VObject l)
                [VInt (Z.of_nat i - Z.of_nat (length xs))] w = (Ok x, w)).
Proof.
  intros Hxs. split.
  - intros v Hv. unfold run_default, bind, reads. cbn [arg lookup list_lookup default].
    by rewrite bool_decide_eq_false_2.
  - intros i Hi. destruct (lookup_lt_is_Some_2 xs i Hi) as [x Hx]. exists x.
    split; [done|].
    assert (Hrun : ∀ z, normalizeIndex z (Z.of_nat (length xs)) = Z.of_nat i →
               run_default ArrayIndex (VObject l) [VInt z] w = (Ok x, w)).
    { intros z Hz. unfold run_default, bind, reads, lift, throw.
      cbn [arg lookup list_lookup default typeof VInt].
      rewrite bool_decide_eq_true_2 by done. cbn [negb integral obind].
      rewrite (get_length _ _ _ Hxs). cbn [VInt integral obind].
      change (integral (id (VInt z))) with (Ok z). cbv iota. rewrite Hz.
      by rewrite (get_element _ _ _ _ _ Hxs Hx). }
    split; apply Hrun; unfold normalizeIndex.
    + by rewrite (proj2 (Z.ltb_ge _ _)) by lia.
    + rewrite (proj2 (Z.ltb_lt _ _)) by lia. lia.
Qed.

Lemma default_index_overload_witness :
  let w := Sample.world0 in
  let xs := VInt <$> [1; 2; 3; 4; 5; 6; 7; 8] in
  elements (cell (heap w) Sample.array8) = Some xs
  ∧ (∀ v, typeof (heap w) v ≠ "number" →
          run_default ArrayIndex (VObject Sample.array8) [v] w
          = (Throw (Error "Index of Array must be a number"), w))
  ∧ (∀ i : nat, (i < length xs)%nat →
       ∃ x, xs !! i = Some x
            ∧ run_default ArrayIndex (VObject Sample.array8) [VInt (Z.of_nat i)] w
              = (Ok x, w)
            ∧ run_default ArrayIndex (VObject Sample.array8)
                [VInt (Z.of_nat i - Z.of_nat (length xs))] w = (Ok x, w)).
Proof.
  intros w xs.
  assert (H : elements (cell (heap w) Sample.array8) = Some xs) by (vm_compute; reflexivity).
  split; [exact H|]. exact (default_index_overload Sample.array8 xs w H).
Defined.












Lemma blank_no_backslash s : blank s = true → no_backslash s = true.
Proof.
  apply all_chars_impl. intros c Hc.
  destruct (bool_decide_reflect (c = backslash)) as [->|]; done.
Qed.

Lemma blank_tokens ID_Start ID_Continue s :
  blank s = true →
  Tokenizer.instance_tokenize ID_Start ID_Continue TokenFactory_statics s = Ok [].
Proof.
  intros Hs. unfold Tokenizer.instance_tokenize.
  rewrite parseUnicodeEscapes_no_escape by by apply blank_no_backslash.
  cbn [obind]. destruct s as [|c s]; [done|].
  remember (String c s) as text eqn:Ht.
  cbn [Tokenizer.scan]. unfold StringWalker.hasRemaining, StringWalker.next,
    StringWalker.getRemaining, substring_from. cbn [source position drop].
  replace (0 <? String.length text)%nat with true
    by (subst text; symmetry; by apply Nat.ltb_lt; simpl; lia).
  cbn [negb]. unfold re_whitespace. rewrite (take_while_all is_space text Hs).
  replace (non_empty text) with true by by subst text.
  destruct (String.length text) as [|n] eqn:En; [by subst text|].
  cbn [Tokenizer.scan]. unfold StringWalker.hasRemaining. cbn [source position].
  rewrite En. by rewrite Nat.add_0_l, Nat.ltb_irrefl.
Qed.

(** Blank input.  A text of white space only, the empty text among them,
    gives no token, and [rop.o] throws [Empty expression] without touching
    the engine or the host; so does the template that holds this text and
    no embedded value. *)
Theorem blank_expression ID_Start ID_Continue host_call rop s m :
  blank s = true →
  Rop_o ID_Start ID_Continue host_call rop (PlainString s) m
  = (Throw (Error "Empty expression"), m)
  ∧ Rop_o ID_Start ID_Continue host_call rop (Template [s] []) m
    = (Throw (Error "Empty expression"), m).
Proof.
  intros Hs. unfold Rop_o, Tokenizer_tokenize, Tokenizer.tokenize.
  cbn [Tokenizer.tokenize_args obind last].
  rewrite (blank_tokens _ _ s Hs). split; reflexivity.
Qed.

Lemma blank_expression_witness :
  let s := String (ascii_of_nat 32) (String (ascii_of_nat 10) (String (ascii_of_nat 9) EmptyString)) in
  blank s = true
  ∧ Rop_o ascii_ID_Start ascii_ID_Continue Sample.host_call 0 (PlainString s)
      (Sample.machine Sample.world0)
    = (Throw (Error "Empty expression"), Sample.machine Sample.world0)
  ∧ Rop_o ascii_ID_Start ascii_ID_Continue Sample.host_call 0 (Template [s] [])
      (Sample.machine Sample.world0)
    = (Throw (Error "Empty expression"), Sample.machine Sample.world0).
Proof.
  intros s. split; [reflexivity|].
  apply (blank_expression ascii_ID_Start ascii_ID_Continue Sample.host_call 0 s).
  reflexivity.
Defined.

Lemma walker_remaining w :
  TokenWalker.within w →
  TokenWalker.getRemaining w
  = skipn (Z.to_nat (TokenWalker.position w)) (TokenWalker.tokens w).
Proof.
  intros [H0 H1]. unfold TokenWalker.getRemaining.
  replace (TokenWalker.position w <? 0) with false by (symmetry; apply Z.ltb_ge; lia).
  by rewrite Z.min_l.
Qed.

Lemma walker_item ts i :
  0 ≤ i → TokenWalker.item ts i = head (skipn (Z.to_nat i) ts).
Proof.
  intros Hi. unfold TokenWalker.item.
  replace (i <? 0) with false by (symmetry; apply Z.ltb_ge; lia).
  by rewrite head_lookup, lookup_drop, Nat.add_0_r.
Qed.

Lemma skipn_succ {A} n (l : list A) : skipn (S n) l = tail (skipn n l).
Proof. revert l. induction n as [|n IH]; intros [|x l]; try done. apply IH. Qed.

Lemma walker_step w :
  TokenWalker.within w → TokenWalker.position w < TokenWalker.size w →
  let w' := {| TokenWalker.tokens := TokenWalker.tokens w;
               TokenWalker.position := TokenWalker.position w + 1 |} in
  TokenWalker.within w'
  ∧ TokenWalker.getRemaining w' = tail (TokenWalker.getRemaining w).
Proof.
  intros Hw Hlt w'. assert (Hw' : TokenWalker.within w').
  { destruct Hw. split; simpl; unfold TokenWalker.size in *; simpl; lia. }
  split; [done|]. rewrite !walker_remaining by done. simpl.
  destruct Hw. by rewrite Z2Nat.inj_add, Nat.add_1_r, skipn_succ by lia.
Qed.

Lemma walker_end w :
  TokenWalker.within w → ¬ TokenWalker.position w < TokenWalker.size w →
  TokenWalker.getRemaining w = [].
Proof.
  intros Hw Hge. rewrite walker_remaining by done.
  apply drop_ge. destruct Hw. unfold TokenWalker.size in *. lia.
Qed.

(** The walker as a list.  While the position is one of the array or its
    end, the walker behaves as the list of the tokens that remain: [peek()]
    and [next()] give its head, [next()], [consume()] and [skip()] leave its
    tail, and the walker is finished when the list is empty. *)
Theorem walker_as_list w :
  TokenWalker.within w →
  let remaining := TokenWalker.getRemaining w in
  TokenWalker.peek w 0 = head remaining
  ∧ (TokenWalker.next w).1 = head remaining
  ∧ TokenWalker.getRemaining (TokenWalker.next w).2 = tail remaining
  ∧ TokenWalker.getRemaining (TokenWalker.consume w 1) = tail remaining
  ∧ TokenWalker.getRemaining (TokenWalker.skip w 1) = tail remaining
  ∧ TokenWalker.isFinished w = bool_decide (remaining = [])
  ∧ TokenWalker.hasRemaining w = negb (TokenWalker.isFinished w)
  ∧ TokenWalker.within (TokenWalker.next w).2
  ∧ TokenWalker.within (TokenWalker.consume w 1).
Proof.
  intros Hw remaining. subst remaining.
  unfold TokenWalker.peek, TokenWalker.next, TokenWalker.consume, TokenWalker.skip,
    TokenWalker.isFinished, TokenWalker.hasRemaining.
  rewrite Z.add_0_r.
  destruct (Z.ltb_spec (TokenWalker.position w) (TokenWalker.size w)) as [Hlt|Hge].
  - destruct (walker_step w Hw Hlt) as [Hw' Hrem].
    replace (0 <=? TokenWalker.position w) with true
      by (symmetry; apply Z.leb_le; by destruct Hw).
    replace (TokenWalker.size w <=? TokenWalker.position w) with false
      by (symmetry; apply Z.leb_gt; lia).
    rewrite Z.min_l by lia. cbn [andb fst snd negb].
    rewrite walker_item, <- walker_remaining by (done || by destruct Hw).
    repeat split; try done; try (by destruct Hw'); [].
    symmetry. apply bool_decide_eq_false. intros Hnil.
    pose proof (f_equal length Hnil) as Hlen.
    rewrite walker_remaining, length_drop in Hlen by done.
    destruct Hw. unfold TokenWalker.size in *. simpl in Hlen. lia.
  - assert (Hnil : TokenWalker.getRemaining w = []) by (apply walker_end; [done|lia]).
    replace (TokenWalker.size w <=? TokenWalker.position w) with true
      by (symmetry; apply Z.leb_le; lia).
    rewrite andb_false_r, Z.min_r by lia. cbn [fst snd negb].
    assert (Hend : TokenWalker.within
                     {| TokenWalker.tokens := TokenWalker.tokens w;
                        TokenWalker.position := TokenWalker.size w |}).
    { split; simpl; unfold TokenWalker.size; simpl; lia. }
    rewrite Hnil. repeat split; try done; try (by destruct Hend); try (by destruct Hw);
      try (symmetry; by apply bool_decide_eq_true);
      (apply walker_end; [done|]; simpl; unfold TokenWalker.size; simpl; lia).
Qed.

Lemma walker_as_list_witness :
  let w := {| TokenWalker.tokens := [IdentifierToken "a"; OperatorToken "+"; IdentifierToken "b"];
              TokenWalker.position := 1 |} in
  TokenWalker.within w
  ∧ TokenWalker.peek w 0 = Some (OperatorToken "+")
  ∧ TokenWalker.getRemaining (TokenWalker.next w).2 = [IdentifierToken "b"].
Proof.
  intros w. assert (H : TokenWalker.within w) by (split; vm_compute; discriminate).
  split; [exact H|].
  destruct (walker_as_list w H) as (H1 & _ & H3 & _).
  split; [exact H1|exact H3].
Defined.

Lemma next_loop_takes rounds :
  ∀ w result,
    TokenWalker.within w →
    let out := TokenWalker.next_loop rounds w result in
    out.1 = result ++ take rounds (TokenWalker.getRemaining w)
    ∧ TokenWalker.within out.2
    ∧ TokenWalker.getRemaining out.2 = skipn rounds (TokenWalker.getRemaining w).
Proof.
  induction rounds as [|rounds IH]; intros w result Hw.
  { simpl. by rewrite app_nil_r. }
  cbn [TokenWalker.next_loop].
  destruct (Z.ltb_spec (TokenWalker.position w) (TokenWalker.size w)) as [Hlt|Hge].
  - destruct (walker_step w Hw Hlt) as [Hw' Hrem].
    rewrite walker_item, <- walker_remaining by (done || by destruct Hw).
    match goal with |- context [TokenWalker.next_loop rounds ?w1 ?r1] =>
      destruct (IH w1 r1 Hw') as (H1 & H2 & H3) end.
    cbv zeta. rewrite H1, H3, Hrem.
    destruct (TokenWalker.getRemaining w) as [|t rest]; simpl.
    + split; [by rewrite take_nil|]. split; [done|]. by rewrite drop_nil.
    + split; [by rewrite <- app_assoc|done].
  - cbv zeta. cbn [fst snd]. rewrite (walker_end w Hw) by lia.
    by rewrite take_nil, drop_nil, app_nil_r.
Qed.

(** Taking several tokens.  While the position is one of the array or its
    end, [next(count)] gives the first [count] of the tokens that remain, all
    of them when fewer remain, and [null] instead of an empty array (at the
    end, or for a count that is not positive); it leaves the others.
    [consume(count)] leaves the same tokens for a count that is not
    negative. *)
Theorem next_count_takes w count :
  TokenWalker.within w →
  let remaining := TokenWalker.getRemaining w in
  let n := Z.to_nat count in
  (TokenWalker.next_count w count).1
  = (if bool_decide (count ≤ 0 ∨ remaining = []) then None
     else Some (take n remaining))
  ∧ TokenWalker.getRemaining (TokenWalker.next_count w count).2 = skipn n remaining
  ∧ TokenWalker.within (TokenWalker.next_count w count).2
  ∧ (0 ≤ count →
     TokenWalker.getRemaining (TokenWalker.consume w count) = skipn n remaining
     ∧ TokenWalker.within (TokenWalker.consume w count)).
Proof.
  intros Hw remaining n. subst remaining n. unfold TokenWalker.next_count.
  destruct (next_loop_takes (Z.to_nat count) w [] Hw) as (H1 & H2 & H3).
  destruct (TokenWalker.next_loop (Z.to_nat count) w []) as [result w'].
  cbn [fst snd] in *. rewrite app_nil_l in H1. subst result.
  split; [|split; [done|split; [done|]]].
  - case_bool_decide as Hc.
    + destruct Hc as [Hc| ->]; [|by rewrite take_nil].
      by replace (Z.to_nat count) with 0%nat by lia.
    + destruct (TokenWalker.getRemaining w) as [|t rest]; [tauto|].
      destruct (Z.to_nat count) as [|k] eqn:Ek; [lia|done].
  - intros Hc. destruct Hw as [H0 Hle].
    assert (Hw' : TokenWalker.within (TokenWalker.consume w count)).
    { split; simpl; unfold TokenWalker.size in *; simpl; lia. }
    split; [|done]. rewrite !walker_remaining by (done || by split).
    rewrite drop_drop. simpl.
    destruct (Z.le_gt_cases (TokenWalker.position w + count) (TokenWalker.size w)).
    + rewrite Z.min_l by done. f_equal. lia.
    + rewrite Z.min_r by lia. unfold TokenWalker.size in *.
      rewrite !drop_ge; [done| |]; lia.
Qed.

Lemma next_count_takes_witness :
  let w := {| TokenWalker.tokens := [IdentifierToken "a"; OperatorToken "+"; IdentifierToken "b"];
              TokenWalker.position := 1 |} in
  TokenWalker.within w
  ∧ (TokenWalker.next_count w 5).1 = Some [OperatorToken "+"; IdentifierToken "b"]
  ∧ TokenWalker.getRemaining (TokenWalker.next_count w 5).2 = [].
Proof.
  intros w. assert (H : TokenWalker.within w) by (split; vm_compute; discriminate).
  split; [exact H|].
  destruct (next_count_takes w 5 H) as (H1 & H2 & _).
  split; [exact H1|exact H2].
Defined.

(** Induction on trees, with the trees inside the argument lists and the
    slices. *)
Lemma AstNode_nested_ind (P : AstNode → Prop) :
  (∀ token, P (ValueNode token)) →
  (∀ name, P (IdentifierNode name)) →
  (∀ operation operand, P operand → P (UnaryNode operation operand)) →
  (∀ l operation r, P l → P r → P (BinaryNode l operation r)) →
  (∀ l name, P l → P (AccessPropertyNode l name)) →
  (∀ target args, P target → Forall P args → P (InvokeNode target args)) →
  (∀ target index, P target → P index → P (IndexingNode target index)) →
  (∀ target slices,
     P target →
     Forall (λ ns, from_option P True (start ns) ∧ from_option P True (end_ ns)
                   ∧ from_option P True (step ns)) slices →
     P (SlicingNode target slices)) →
  ∀ node, P node.
Proof.
  intros HV HI HU HB HA HK HX HS. fix IH 1. intros [t|n|u o|l b r|l n|f args|f i|f slices].
  - apply HV.
  - apply HI.
  - apply HU, IH.
  - apply HB; apply IH.
  - apply HA, IH.
  - apply HK; [apply IH|]. induction args as [|a args IHargs]; constructor; [apply IH|apply IHargs].
  - apply HX; apply IH.
  - apply HS; [apply IH|].
    induction slices as [|[[a|] [b|] [c|]] slices IHs]; constructor; try apply IHs;
      simpl; repeat split; try apply IH.
Qed.

Section Keeps.

Context {S : Type} (R : S → S → Prop).
Hypothesis R_refl : ∀ s, R s s.
Hypothesis R_trans : ∀ s1 s2 s3, R s1 s2 → R s2 s3 → R s1 s3.

Lemma keeps_ret {A} (a : A) : keeps R (ret a).
Proof. intros s. apply R_refl. Qed.

Lemma keeps_throw {A} e : keeps R (@throw S A e).
Proof. intros s. apply R_refl. Qed.

Lemma keeps_lift {A} (o : Outcome A) : keeps R (lift o).
Proof. intros s. apply R_refl. Qed.

Lemma keeps_reads {A} (f : S → A) : keeps R (reads f).
Proof. intros s. apply R_refl. Qed.

Lemma keeps_bind {A B} (m : Run S A) (k : A → Run S B) :
  keeps R m → (∀ a, keeps R (k a)) → keeps R (bind m k).
Proof.
  intros Hm Hk s. unfold bind. specialize (Hm s).
  destruct (m s) as [[a|e] s1]; [|done].
  eapply R_trans; [exact Hm|apply Hk].
Qed.

Lemma keeps_mapM {A B} (f : A → Run S B) l :
  Forall (λ x, keeps R (f x)) l → keeps R (mapM f l).
Proof.
  induction 1 as [|x l Hx Hl IH]; [apply keeps_ret|].
  cbn [mapM]. apply keeps_bind; [done|]. intros y.
  apply keeps_bind; [exact IH|]. intros ys. apply keeps_ret.
Qed.

End Keeps.

Lemma same_engines_refl w : same_engines w w.
Proof. by split. Qed.

Lemma same_engines_trans w1 w2 w3 :
  same_engines w1 w2 → same_engines w2 w3 → same_engines w1 w3.
Proof. intros [H1 H2] [H3 H4]. split; congruence. Qed.

(** A step of a computation on the world. *)
Ltac keep_world :=
  repeat first
    [ apply (keeps_ret same_engines same_engines_refl)
    | apply (keeps_throw same_engines same_engines_refl)
    | apply (keeps_lift same_engines same_engines_refl)
    | apply (keeps_reads same_engines same_engines_refl)
    | match goal with H : _ |- _ => apply H end
    | apply (keeps_bind same_engines same_engines_trans); [|intros ?]
    | match goal with |- keeps _ (if ?x then _ else _) => destruct x end
    | match goal with |- keeps _ (match ?x with _ => _ end) => destruct x end ].

Lemma keeps_allocate o : keeps same_engines (allocate o).
Proof. intros w. unfold allocate. by destruct (alloc o (heap w)). Qed.

Lemma keeps_store l o : keeps same_engines (store l o).
Proof. by intros w. Qed.

Lemma keeps_set_property l k v : keeps same_engines (set_property l k v).
Proof. by intros w. Qed.

Lemma keeps_new_array xs : keeps same_engines (new_array xs).
Proof. unfold new_array. pose proof keeps_allocate. keep_world. Qed.

Lemma keeps_new_object ps : keeps same_engines (new_object ps).
Proof. unfold new_object. pose proof keeps_allocate. keep_world. Qed.

Lemma keeps_run_default d this args : keeps same_engines (run_default d this args).
Proof.
  pose proof keeps_new_array. pose proof keeps_set_property.
  destruct d; unfold run_default; keep_world.
Qed.

Lemma keeps_this rop : keeps same_engines (Rop.this rop).
Proof. intros w. unfold Rop.this. destruct (engines w !! rop); by split. Qed.

Lemma keeps_getOverloadOnInstance rop inst symbol :
  keeps same_engines (Rop.getOverloadOnInstance rop inst symbol).
Proof.
  unfold Rop.getOverloadOnInstance, Rop.getOverloadFromPrototypeChain.
  pose proof keeps_this. keep_world.
Qed.

Section Frame.

Variable host_call : nat → Value → list Value → Run World Value.
Hypothesis host_keeps : ∀ id this args, keeps same_engines (host_call id this args).

Lemma keeps_run_code c : ∀ this args, keeps same_engines (run_code host_call c this args).
Proof.
  induction c as [id|d|c IH]; intros this args; cbn [run_code].
  - apply host_keeps.
  - apply keeps_run_default.
  - apply IH.
Qed.

Lemma keeps_call_function f this args :
  keeps same_engines (call_function host_call f this args).
Proof.
  intros w. unfold call_function.
  destruct f; try apply same_engines_refl.
  destruct (callable _); [apply keeps_run_code|apply same_engines_refl].
Qed.

(** The same engines in two states of the evaluation. *)
Local Abbreviation same := (λ s s' : Machine, same_engines (world s) (world s')).

Lemma same_refl s : same s s.
Proof. apply same_engines_refl. Qed.

Lemma same_trans s1 s2 s3 : same s1 s2 → same s2 s3 → same s1 s3.
Proof. apply same_engines_trans. Qed.

Lemma keeps_in_world {A} (m : Run World A) :
  keeps same_engines m → keeps same (in_world m).
Proof.
  intros Hm s. unfold in_world. specialize (Hm (world s)).
  by destruct (m (world s)).
Qed.

Lemma keeps_record e : keeps same (record e).
Proof. intros s. apply same_engines_refl. Qed.

Ltac keep :=
  repeat first
    [ apply (keeps_ret same same_refl)
    | apply (keeps_throw same same_refl)
    | apply (keeps_lift same same_refl)
    | apply (keeps_reads same same_refl)
    | apply keeps_record
    | apply keeps_in_world;
        first [apply keeps_getOverloadOnInstance | apply keeps_call_function
              | apply keeps_this | apply keeps_new_array | apply keeps_new_object]
    | match goal with H : _ |- _ => apply H end
    | apply (keeps_bind same same_trans); [|intros ?]
    | match goal with |- keeps _ (if ?x then _ else _) => destruct x end
    | match goal with |- keeps _ (match ?x with _ => _ end) => destruct x end ].

Variable rop : nat.

Lemma keeps_evaluateNode node :
  keeps same (Evaluater.evaluateNode host_call rop node).
Proof.
  induction node as [token|name|operation operand IH|l operation r IHl IHr|l name IH
                    |target args IH IHargs|target index IHt IHi|target slices IH IHs]
    using AstNode_nested_ind; cbn [Evaluater.evaluateNode].
  - unfold Evaluater.evaluateValueNode. keep.
  - unfold Evaluater.evaluateIdentifierNode. keep.
  - unfold Evaluater.evaluateUnaryNode, Evaluater.is_function, Evaluater.invoke,
      Evaluater.native. keep.
  - unfold Evaluater.evaluateBinaryNode, Evaluater.is_function, Evaluater.invoke,
      Evaluater.native. keep.
  - unfold Evaluater.evaluateAccessPropertyNode. keep.
  - unfold Evaluater.evaluateInvokeNode, Evaluater.is_function, Evaluater.invoke.
    pose proof (keeps_mapM same same_refl same_trans _ _ IHargs). keep.
  - unfold Evaluater.evaluateIndexingNode, Evaluater.is_function, Evaluater.invoke. keep.
  - assert (Hslice : ∀ ns,
              from_option (λ n, keeps same (Evaluater.evaluateNode host_call rop n)) True (start ns)
              ∧ from_option (λ n, keeps same (Evaluater.evaluateNode host_call rop n)) True (end_ ns)
              ∧ from_option (λ n, keeps same (Evaluater.evaluateNode host_call rop n)) True (step ns) →
              keeps same (Evaluater.calculateSlice (Evaluater.evaluateNode host_call rop) ns)).
    { intros [[a|] [b|] [c|]] (Ha & Hb & Hc); unfold Evaluater.calculateSlice;
        simpl in *; keep. }
    unfold Evaluater.evaluateSlicingNode, Evaluater.is_function, Evaluater.invoke.
    apply (keeps_bind same same_trans); [done|]. intros t.
    apply (keeps_bind same same_trans); [keep|]. intros fn.
    apply (keeps_bind same same_trans); [keep|]. intros [|].
    + apply (keeps_bind same same_trans).
      { apply (keeps_mapM same same_refl same_trans).
        eapply Forall_impl; [exact IHs|]. intros ns Hns. cbv beta.
        apply (keeps_bind same same_trans); [by apply Hslice|]. intros s.
        unfold Evaluater.slice_object. keep. }
      intros objects. keep.
    + destruct slices as [|slice [|]]; [keep| |keep].
      apply Forall_cons in IHs as [Hns _].
      destruct (_ || _); [keep|].
      apply (keeps_bind same same_trans); [by apply Hslice|]. intros s. keep.
Qed.

End Frame.

(** Evaluating changes no engine.  If the functions of the host leave the
    engines alone, then whatever [rop.o] is given and whether it returns or
    throws, every engine has afterwards the bindings and the overloads it
    had, no engine is made, and the default instance is the one it was. *)
Theorem evaluating_changes_no_engine ID_Start ID_Continue host_call rop strs s :
  (∀ id this args w, same_engines w (host_call id this args w).2) →
  same_engines (world s) (world (Rop_o ID_Start ID_Continue host_call rop strs s).2).
Proof.
  intros Hhost. unfold Rop_o, Evaluater.evaluate.
  unfold bind at 1. unfold lift at 1.
  destruct (Tokenizer_tokenize _ _ _) as [tokens|e]; [|apply same_engines_refl].
  unfold bind, lift.
  destruct (AstParser.parse tokens) as [ast|e]; [|apply same_engines_refl].
  by apply keeps_evaluateNode.
Qed.

Lemma sample_host_keeps id this args :
  keeps same_engines (Sample.host_call id this args).
Proof.
  pose proof keeps_set_property. unfold Sample.host_call.
  destruct id as [|[|[|[|[|[|]]]]]]; keep_world.
Qed.

Lemma evaluating_changes_no_engine_witness :
  let w := {| heap := Sample.realm;
              engines := {[ 0%nat := {| overloadings := ∅;
                                        bindings := {[ "tick" := VObject Sample.tick_fn ]} |} ]};
              instance := None |} in
  let out := Rop_o ascii_ID_Start ascii_ID_Continue Sample.host_call 0
               (PlainString "tick()") (Sample.machine w) in
  out.1 = Ok (VBoolean true)
  ∧ heap (world out.2) ≠ heap w
  ∧ same_engines w (world out.2).
Proof.
  intros w out. split; [vm_compute; reflexivity|]. split.
  { intros Heq.
    assert (H : cell (heap (world out.2)) Sample.counter = cell (heap w) Sample.counter)
      by (by rewrite Heq).
    vm_compute in H. discriminate H. }
  apply (evaluating_changes_no_engine ascii_ID_Start ascii_ID_Continue Sample.host_call 0
           (PlainString "tick()") (Sample.machine w)).
  exact sample_host_keeps.
Defined.

Lemma nesting_skipWhitespace open ts :
  nesting open (skipWhitespace ts) = nesting open ts.
Proof. induction ts as [|[] ts IH]; done. Qed.

Section Nesting.

Variable fuel : nat.
Hypothesis IHatom :
  ∀ ts n ts', parseAtom fuel ts = Ok (n, ts') →
    ∀ open, nesting open ts = nesting open ts'.
Hypothesis IHexp :
  ∀ p ts n ts', parseExpression fuel p ts = Ok (n, ts') →
    ∀ open, nesting open ts = nesting open ts'.
Hypothesis IHops :
  ∀ p l ts n ts', parseOperators fuel p l ts = Ok (n, ts') →
    ∀ open, nesting open ts = nesting open ts'.
Hypothesis IHargs :
  ∀ args ts r ts', parseArguments fuel args ts = Ok (r, ts') →
    ∀ open, nesting (Round :: open) ts = nesting open ts'.
Hypothesis IHslice :
  ∀ slice colons hasExpression flag ts r ts',
    parseSlice fuel slice colons hasExpression flag ts = Ok (r, ts') →
    ∀ open, nesting open ts = nesting open ts'.
Hypothesis IHsub :
  ∀ sub ts sub' ts', parseSubscript fuel sub ts = Ok (sub', ts') →
    ∀ open, nesting (Square :: open) ts = nesting open ts'.

Lemma parseAtom_nesting ts n ts' :
  parseAtom (S fuel) ts = Ok (n, ts') → ∀ open, nesting open ts = nesting open ts'.
Proof.
  intros H open. cbn [parseAtom] in H. rewrite <- (nesting_skipWhitespace open ts).
  destruct (skipWhitespace ts) as [|token rest]; [done|].
  destruct token as [| | | | |]; try discriminate H.
  all: try by (injection H as <- <-).
  - destruct (Operations.unaryFromLiteral literal); [|done].
    destruct (negb _); [done|]. bind_ok H. injection H as <- <-.
    by apply (IHexp _ _ _ _ E).
  - case_bool_decide; [subst literal|done]. bind_ok H.
    destruct (tryConsumePunctuation ")" _) as [ts2|] eqn:E'; [|done].
    injection H as -> ->.
    apply tryConsumePunctuation_Some in E'.
    change (nesting open (PunctuationToken "(" :: rest))
      with (nesting (Round :: open) rest).
    by rewrite (IHexp _ _ _ _ E), <- nesting_skipWhitespace, E'.
Qed.

Lemma parseExpression_nesting p ts n ts' :
  parseExpression (S fuel) p ts = Ok (n, ts') →
  ∀ open, nesting open ts = nesting open ts'.
Proof.
  intros H open. cbn [parseExpression] in H. bind_ok H.
  rewrite (IHatom _ _ _ E). by apply (IHops _ _ _ _ _ H).
Qed.

Lemma parseOperators_nesting p l ts n ts' :
  parseOperators (S fuel) p l ts = Ok (n, ts') →
  ∀ open, nesting open ts = nesting open ts'.
Proof.
  intros H open. cbn [parseOperators] in H. cbv zeta in H.
  rewrite <- (nesting_skipWhitespace open ts).
  destruct (skipWhitespace ts) as [|token rest]; [by injection H as <- <-|].
  destruct token as [| | | | |]; try by injection H as <- <-.
  - destruct (Operations.binaryFromLiteral literal); [|done].
    destruct (negb _); [done|]. destruct (_ <? _)%nat; [by injection H as <- <-|].
    bind_ok H. cbn [nesting].
    rewrite (IHexp _ _ _ _ E). by apply (IHops _ _ _ _ _ H).
  - case_bool_decide; [subst literal|].
    { destruct (skipWhitespace rest) as [|[] ts1] eqn:E1; try done.
      change (nesting open (PunctuationToken "." :: rest)) with (nesting open rest).
      rewrite <- (nesting_skipWhitespace open rest), E1. cbn [nesting].
      by apply (IHops _ _ _ _ _ H). }
    case_bool_decide; [subst literal|].
    { bind_ok H.
      change (nesting open (PunctuationToken "(" :: rest))
        with (nesting (Round :: open) rest).
      rewrite (IHargs _ _ _ _ E). by apply (IHops _ _ _ _ _ H). }
    case_bool_decide; [subst literal|by injection H as <- <-].
    destruct (peekPunctuation "]" _); [done|]. bind_ok H.
    case_bool_decide; [done|].
    change (nesting open (PunctuationToken "[" :: rest))
      with (nesting (Square :: open) rest).
    rewrite <- (nesting_skipWhitespace _ rest), (IHsub _ _ _ _ E).
    by apply (IHops _ _ _ _ _ H).
Qed.

Lemma parseArguments_nesting args ts r ts' :
  parseArguments (S fuel) args ts = Ok (r, ts') →
  ∀ open, nesting (Round :: open) ts = nesting open ts'.
Proof.
  intros H open. cbn [parseArguments] in H. cbv zeta in H.
  rewrite <- (nesting_skipWhitespace _ ts).
  destruct (tryConsumePunctuation ")" (skipWhitespace ts)) as [ts1|] eqn:E1.
  - injection H as <- <-. apply tryConsumePunctuation_Some in E1. by rewrite E1.
  - bind_ok H. rewrite (IHexp _ _ _ _ E), <- nesting_skipWhitespace.
    rewrite <- (IHargs _ _ _ _ H).
    destruct (tryConsumePunctuation "," _) as [ts2|] eqn:E2; [|done].
    apply tryConsumePunctuation_Some in E2. by rewrite E2.
Qed.

Lemma parseSlice_nesting slice colons hasExpression flag ts r ts' :
  parseSlice (S fuel) slice colons hasExpression flag ts = Ok (r, ts') →
  ∀ open, nesting open ts = nesting open ts'.
Proof.
  intros H open. cbn [parseSlice] in H.
  destruct (peekPunctuation "," ts || peekPunctuation "]" ts).
  { destruct (hasExpression || _); by injection H as <- <-. }
  destruct (peekPunctuation ":" ts) eqn:Hcolon.
  - apply peekPunctuation_true in Hcolon as [rest ->]. simpl tail in H.
    by rewrite <- (IHslice _ _ _ _ _ _ _ H).
  - bind_ok H. rewrite (IHexp _ _ _ _ E). by apply (IHslice _ _ _ _ _ _ _ H).
Qed.

Lemma parseSubscript_nesting sub ts sub' ts' :
  parseSubscript (S fuel) sub ts = Ok (sub', ts') →
  ∀ open, nesting (Square :: open) ts = nesting open ts'.
Proof.
  intros H open. cbn [parseSubscript] in H. cbv zeta in H.
  rewrite <- (nesting_skipWhitespace _ ts).
  destruct (parseSlice fuel [] 0 false (isSlicing sub) (skipWhitespace ts))
    as [[[r flag'] ts1]|] eqn:E; [cbn [obind] in H|done].
  rewrite (IHslice _ _ _ _ _ _ _ E), <- (nesting_skipWhitespace _ ts1).
  destruct (tryConsumePunctuation "," (skipWhitespace ts1)) as [ts2|] eqn:E2.
  { apply tryConsumePunctuation_Some in E2. rewrite E2.
    by rewrite <- (IHsub _ _ _ _ H). }
  destruct (tryConsumePunctuation "]" (skipWhitespace ts1)) as [ts2|] eqn:E3.
  { apply tryConsumePunctuation_Some in E3. injection H as <- <-. by rewrite E3. }
  rewrite <- (IHsub _ _ _ _ H). by rewrite !nesting_skipWhitespace.
Qed.

End Nesting.

Lemma parser_nesting fuel :
  (∀ ts n ts', parseAtom fuel ts = Ok (n, ts') →
     ∀ open, nesting open ts = nesting open ts')
  ∧ (∀ p ts n ts', parseExpression fuel p ts = Ok (n, ts') →
       ∀ open, nesting open ts = nesting open ts')
  ∧ (∀ p l ts n ts', parseOperators fuel p l ts = Ok (n, ts') →
       ∀ open, nesting open ts = nesting open ts')
  ∧ (∀ args ts r ts', parseArguments fuel args ts = Ok (r, ts') →
       ∀ open, nesting (Round :: open) ts = nesting open ts')
  ∧ (∀ slice colons hasExpression flag ts r ts',
       parseSlice fuel slice colons hasExpression flag ts = Ok (r, ts') →
       ∀ open, nesting open ts = nesting open ts')
  ∧ (∀ sub ts sub' ts', parseSubscript fuel sub ts = Ok (sub', ts') →
       ∀ open, nesting (Square :: open) ts = nesting open ts').
Proof.
  induction fuel as [|fuel (IHatom & IHexp & IHops & IHargs & IHslice & IHsub)].
  { repeat split; intros; discriminate. }
  split; [intros *; by apply parseAtom_nesting|].
  split; [intros *; by apply parseExpression_nesting|].
  split; [intros *; by apply parseOperators_nesting|].
  split; [intros *; by apply parseArguments_nesting|].
  split; [intros *; by apply parseSlice_nesting|].
  intros *; by apply parseSubscript_nesting.
Qed.

(** Every token list that is parsed has its round and square brackets
    properly nested: each closing bracket closes the innermost open bracket,
    which is of its kind, and none is left open. *)
Theorem parsed_brackets_are_nested tokens node :
  parse tokens = Ok node → nesting [] tokens = Some [].
Proof.
  unfold parse. intros H. rewrite <- nesting_skipWhitespace.
  destruct (skipWhitespace tokens) as [|t ts]; [done|].
  bind_ok H. destruct (parser_nesting (enough tokens)) as (_ & Hexp & _).
  rewrite (Hexp _ _ _ _ E), <- nesting_skipWhitespace.
  by destruct (skipWhitespace l).
Qed.

Lemma parsed_brackets_are_nested_witness :
  let tokens := [IdentifierToken "f"; PunctuationToken "("; IdentifierToken "a";
                 PunctuationToken "["; ConstantToken "1" (VInt 1); PunctuationToken "]";
                 PunctuationToken ","; PunctuationToken "("; IdentifierToken "b";
                 PunctuationToken ")"; PunctuationToken ")"] in
  parse tokens
  = Ok (InvokeNode (IdentifierNode "f")
          [IndexingNode (IdentifierNode "a") (ValueNode (ConstantToken "1" (VInt 1)));
           IdentifierNode "b"])
  ∧ nesting [] tokens = Some [].
Proof.
  intros tokens. split; [vm_compute; reflexivity|].
  apply (parsed_brackets_are_nested tokens
           (InvokeNode (IdentifierNode "f")
              [IndexingNode (IdentifierNode "a") (ValueNode (ConstantToken "1" (VInt 1)));
               IdentifierNode "b"])).
  vm_compute. reflexivity.
Defined.

Lemma parseOperators_postfix fuel precedence left_ p rest :
  parseOperators (5 + fuel) precedence left_ (postfix_tokens p ++ rest) =
  parseOperators (4 + fuel) precedence (postfix_node left_ p) rest.
Proof. destruct p as [name|[]|[]]; reflexivity. Qed.

Lemma precedence_of_positive op : (precedence_of op <? 0)%nat = false.
Proof. by destruct op. Qed.

Lemma operand_with_postfix fuel a op b p :
  parseExpression (9 + fuel) 0
    (atom_token a :: operator_token op :: atom_token b :: postfix_tokens p) =
  Ok (BinaryNode (atom_node a) op (postfix_node (atom_node b) p), []).
Proof.
  change (9 + fuel)%nat with (S (S (S (S (5 + fuel))))).
  rewrite parseExpression_atom, parseOperators_operator, precedence_of_positive.
  rewrite parseExpression_atom.
  rewrite <- (app_nil_r (postfix_tokens p)).
  change (S (5 + fuel)) with (5 + S fuel)%nat.
  rewrite parseOperators_postfix.
  change (4 + S fuel)%nat with (S (4 + fuel)).
  rewrite parseOperators_end. cbn [obind].
  change (S (S (5 + fuel))) with (S (6 + fuel)).
  by rewrite parseOperators_end.
Qed.

Lemma unary_with_postfix fuel u a p :
  parseExpression (8 + fuel) 0 (unary_token u :: atom_token a :: postfix_tokens p) =
  Ok (UnaryNode u (postfix_node (atom_node a) p), []).
Proof.
  change (8 + fuel)%nat with (S (S (S (S (4 + fuel))))).
  rewrite parseExpression_step, parseAtom_unary, parseExpression_atom.
  change (S (4 + fuel)) with (5 + fuel)%nat.
  rewrite <- (app_nil_r (postfix_tokens p)), parseOperators_postfix.
  change (4 + fuel)%nat with (S (3 + fuel)).
  rewrite parseOperators_end. cbn [obind].
  change (S (S (5 + fuel))) with (S (6 + fuel)).
  by rewrite parseOperators_end.
Qed.

(** A member access, an invocation and a subscript bind more strongly than
    every operator, whatever its precedence: after the right operand of a
    binary operator and after the operand of a unary operator they apply to
    that operand alone.  So [a ** b.c] is [a ** (b.c)] and [-a[0]] is
    [-(a[0])]. *)
Theorem postfix_binds_first u op a b p :
  parse (atom_token a :: operator_token op :: atom_token b :: postfix_tokens p)
  = Ok (BinaryNode (atom_node a) op (postfix_node (atom_node b) p))
  ∧ parse (unary_token u :: atom_token a :: postfix_tokens p)
    = Ok (UnaryNode u (postfix_node (atom_node a) p)).
Proof.
  unfold parse. rewrite skipWhitespace_atom.
  change (skipWhitespace (unary_token u :: ?l)) with (unary_token u :: l).
  split.
  - assert (He : ∃ fuel, enough (atom_token a :: operator_token op :: atom_token b
                                 :: postfix_tokens p) = (9 + fuel)%nat)
      by (destruct p; by eexists (_ : nat)).
    destruct He as [fuel ->].
    destruct (atom_token a) eqn:Ha; try by destruct a.
    all: rewrite <- Ha, operand_with_postfix; reflexivity.
  - assert (He : ∃ fuel, enough (unary_token u :: atom_token a :: postfix_tokens p)
                         = (8 + fuel)%nat)
      by (destruct p; by eexists (_ : nat)).
    destruct He as [fuel ->]. by rewrite unary_with_postfix.
Qed.

Lemma parseExpression_parenthesis fuel precedence rest :
  parseExpression (S (S fuel)) precedence (PunctuationToken "(" :: rest) =
  let* (expr, ts) := parseExpression fuel 0 rest in
  match tryConsumePunctuation ")" (skipWhitespace ts) with
  | Some ts => parseOperators (S fuel) precedence expr ts
  | None => Throw (Error "Expected closing parenthesis")
  end.
Proof.
  cbn [parseExpression parseAtom skipWhitespace]. simpl bool_decide. cbv iota.
  destruct (parseExpression fuel 0 rest) as [[expr ts]|e]; [|done]. cbn [obind].
  by destruct (tryConsumePunctuation ")" (skipWhitespace ts)).
Qed.

Lemma parseOperators_closing fuel precedence left_ rest :
  parseOperators (S fuel) precedence left_ (PunctuationToken ")" :: rest)
  = Ok (left_, PunctuationToken ")" :: rest).
Proof. reflexivity. Qed.

Lemma operation_in_parentheses fuel a op b rest :
  parseExpression (4 + fuel) 0
    (atom_token a :: operator_token op :: atom_token b :: PunctuationToken ")" :: rest) =
  Ok (BinaryNode (atom_node a) op (atom_node b), PunctuationToken ")" :: rest).
Proof.
  change (4 + fuel)%nat with (S (S (S (S fuel)))).
  rewrite parseExpression_atom, parseOperators_operator, precedence_of_positive.
  rewrite parseExpression_atom, parseOperators_closing. cbn [obind].
  by rewrite parseOperators_closing.
Qed.

(** Parentheses group and leave no node of their own: an operation in
    parentheses is one operand of the operator beside it, whatever the
    precedences of the two operators are. *)
Theorem parentheses_group a op1 b op2 c :
  parse [PunctuationToken "("; atom_token a; operator_token op1; atom_token b;
         PunctuationToken ")"; operator_token op2; atom_token c]
  = Ok (BinaryNode (BinaryNode (atom_node a) op1 (atom_node b)) op2 (atom_node c))
  ∧ parse [atom_token a; operator_token op1; PunctuationToken "("; atom_token b;
           operator_token op2; atom_token c; PunctuationToken ")"]
    = Ok (BinaryNode (atom_node a) op1 (BinaryNode (atom_node b) op2 (atom_node c))).
Proof.
  unfold parse. rewrite skipWhitespace_atom. cbn [skipWhitespace].
  change (enough _) with (S (S (4 + 26)))%nat. split.
  - rewrite parseExpression_parenthesis, operation_in_parentheses. cbn [obind].
    cbn [skipWhitespace tryConsumePunctuation]. simpl bool_decide. cbv iota.
    rewrite parseOperators_operator, precedence_of_positive.
    change (4 + 26)%nat with (S (S 28)).
    rewrite parseExpression_atom, parseOperators_end. cbn [obind].
    rewrite parseOperators_end. reflexivity.
  - destruct (atom_token a) eqn:Ha; try by destruct a.
    all: rewrite <- Ha, parseExpression_atom, parseOperators_operator,
           precedence_of_positive.
    all: change (4 + 26)%nat with (S (S (4 + 24))).
    all: rewrite parseExpression_parenthesis, operation_in_parentheses; cbn [obind].
    all: cbn [skipWhitespace tryConsumePunctuation]; simpl bool_decide; cbv iota.
    all: rewrite parseOperators_end; cbn [obind].
    all: change (S (S (4 + 24))) with (S 29); by rewrite parseOperators_end.
Qed.

(** Every operation of the registry can be written.  Between two operands
    the literal of a binary operation is read as one operator token, the
    longest alternative of the tokenizer first, and parsed as that
    operation; before an operand the literal of a unary operation is parsed
    as that operation. *)
Theorem registry_operators_are_read ID_Start ID_Continue :
  let one := ValueNode (ConstantToken "1" (VInt 1)) in
  let two := ValueNode (ConstantToken "2" (VInt 2)) in
  (∀ op, read ID_Start ID_Continue
           ("1" +:+ meta_literal (Operations.meta (OpBinary op)) +:+ "2")
         = Ok (BinaryNode one op two))
  ∧ (∀ u, read ID_Start ID_Continue
            (meta_literal (Operations.meta (OpUnary u)) +:+ "1")
          = Ok (UnaryNode u one)).
Proof.
  intros one two. split; intros op; destruct op; vm_compute; reflexivity.
Qed.


